(** * The per-frame rendering pipeline of [Scene], and [Events]

    A shallow embedding of [Scene.render], [Scene._renderSurface] and
    [Scene.flushCache], with the objects the pipeline mutates (Matrix and
    RenderModel objects, the scene's render-model cache) kept in an explicit
    store, so that reference identity and in-place updates are visible, and of
    the [EventEmitter] and [Events] classes.

    A JavaScript number is a finite value, an infinity or NaN; the finite
    values are exact rationals, so the rounding error of floating-point
    arithmetic and the sign of zero are outside the model. The pipeline reads
    of its numbers only the sign of a difference and of a normal's z, which
    rounding keeps, and the result of [Math.round]. A call completes normally
    or throws, and the store is the one the call leaves either way. *)

From Stdlib Require Import QArith Qround Sorted Permutation Lia.
From stdpp Require Import base list gmap strings.

Close Scope Q_scope.

(** A reference to an object of the store. *)
Abbreviation loc := nat (only parsing).

(** ** Numbers *)

Definition Qlt_bool (a b : Q) : bool := negb (Qle_bool b a).

Module Number.
Inductive t := Finite (q : Q) | Infinity | NegInfinity | NaN.

Definition zero : t := Finite 0.

Definition finite (a : t) : Prop :=
  match a with Finite _ => True | _ => False end.

(** A number that holds an integer value. *)
Definition is_integer (a : t) : Prop :=
  match a with
  | Finite q => (q == inject_Z (Qfloor q))%Q
  | _ => False
  end.

Definition opp (a : t) : t :=
  match a with
  | Finite q => Finite (- q)
  | Infinity => NegInfinity
  | NegInfinity => Infinity
  | NaN => NaN
  end.

Definition add (a b : t) : t :=
  match a, b with
  | NaN, _ | _, NaN => NaN
  | Finite p, Finite q => Finite (p + q)
  | Infinity, NegInfinity | NegInfinity, Infinity => NaN
  | Infinity, _ | _, Infinity => Infinity
  | NegInfinity, _ | _, NegInfinity => NegInfinity
  end.

(** [a - b]: the difference of two infinities of one sign is NaN. *)
Definition sub (a b : t) : t := add a (opp b).

(** [a < b]: false when either is NaN. *)
Definition ltb (a b : t) : bool :=
  match a, b with
  | NaN, _ | _, NaN => false
  | Finite p, Finite q => Qlt_bool p q
  | _, NegInfinity | Infinity, _ => false
  | NegInfinity, _ | _, Infinity => true
  end.

(** [a <= b]: false when either is NaN. *)
Definition leb (a b : t) : bool :=
  match a, b with
  | NaN, _ | _, NaN => false
  | Finite p, Finite q => Qle_bool p q
  | NegInfinity, _ | _, Infinity => true
  | _, NegInfinity | Infinity, _ => false
  end.

(** [a === b]: NaN equals nothing. *)
Definition eqb (a b : t) : bool :=
  match a, b with
  | Finite p, Finite q => Qeq_bool p q
  | Infinity, Infinity | NegInfinity, NegInfinity => true
  | _, _ => false
  end.

(** The infinity of a sign; a product or quotient without a sign is NaN. *)
Definition signed (s : comparison) : t :=
  match s with Gt => Infinity | Lt => NegInfinity | Eq => NaN end.

Definition mul (a b : t) : t :=
  match a, b with
  | NaN, _ | _, NaN => NaN
  | Finite p, Finite q => Finite (p * q)
  | Finite p, Infinity | Infinity, Finite p => signed (p ?= 0)%Q
  | Finite p, NegInfinity | NegInfinity, Finite p => signed (0 ?= p)%Q
  | Infinity, Infinity | NegInfinity, NegInfinity => Infinity
  | Infinity, NegInfinity | NegInfinity, Infinity => NegInfinity
  end.

(** [a / b], the zero divisor being +0. *)
Definition div (a b : t) : t :=
  match a, b with
  | NaN, _ | _, NaN => NaN
  | Finite p, Finite q => if Qeq_bool q 0 then signed (p ?= 0)%Q else Finite (p / q)
  | Finite _, _ => zero
  | Infinity, Finite q => if Qlt_bool q 0 then NegInfinity else Infinity
  | NegInfinity, Finite q => if Qlt_bool q 0 then Infinity else NegInfinity
  | _, _ => NaN
  end.
End Number.

(** [Math.round]: the nearest integer, ties towards plus infinity; NaN and the
    infinities are returned as they are. *)
Definition Math_round (a : Number.t) : Number.t :=
  match a with
  | Number.Finite q => Number.Finite (inject_Z (Qfloor (q + (1 # 2))%Q))
  | _ => a
  end.

Module Point.
Record t := mk { x : Number.t; y : Number.t; z : Number.t }.

(** Modelled from the spec: [Point.round] (geometry/point is not among the
    sources) rounds the point to the nearest integer coordinate, in place. *)
Definition round (p : t) : t :=
  {| x := Math_round (x p); y := Math_round (y p); z := Math_round (z p) |}.

(** Every finite coordinate of the point is an integer. *)
Definition integral (p : t) : Prop :=
  forall c, c ∈ [x p; y p; z p] -> Number.finite c -> Number.is_integer c.
End Point.

(** ** Completions

    A call returns a value or throws; the only error thrown by the code
    modelled here is the TypeError of calling what is not a function. *)
Inductive Error := TypeError.

Inductive Completion (A : Type) := Normal (a : A) | Throw (e : Error).
Arguments Normal {A} a.
Arguments Throw {A} e.

(** A [for ... of] loop over a list, or a [forEach]: the body is run for one
    element after the other, and a throw of the body ends the loop. The
    accumulator is what the body sees of the local variables and the store. *)
Section ForOf.
Context {A B S : Type} (body : B * S -> A -> Completion B * S).

Fixpoint forOf (xs : list A) (acc : B * S) : Completion B * S :=
  match xs with
  | [] => (Normal acc.1, acc.2)
  | x :: xs' =>
      match body acc x with
      | (Normal b, s) => forOf xs' (b, s)
      | (Throw e, s) => (Throw e, s)
      end
  end.
End ForOf.

(** ** Plain objects used as maps

    [_renderModelCache] and [emitters] are objects made by [{}], written by
    assignment only: reading [obj[key]] finds an own property, or else the
    member of that name the object inherits from [Object.prototype], or else
    [undefined]. The inherited members are functions, or for [__proto__] the
    prototype itself: none is [null], and none has a method [update], [add],
    [remove] or [emit]. *)
Definition Object_prototype : list string :=
  ["constructor"; "__defineGetter__"; "__defineSetter__"; "hasOwnProperty";
   "__lookupGetter__"; "__lookupSetter__"; "isPrototypeOf";
   "propertyIsEnumerable"; "toString"; "valueOf"; "__proto__"; "toLocaleString"].

Inductive Property (A : Type) := Own (a : A) | Inherited | Undefined.
Arguments Own {A} a.
Arguments Inherited {A}.
Arguments Undefined {A}.

Definition Object_get {A : Type} (own : gmap string A) (key : string) : Property A :=
  match own !! key with
  | Some a => Own a
  | None => if bool_decide (key ∈ Object_prototype) then Inherited else Undefined
  end.

(** ** The collaborators' types

    Lights, materials, shaders and the entries of a matrix are defined outside
    the pipeline; it only passes them around. *)
Class Externals := {
  Entries : Type;          (* the sixteen numbers a Matrix object holds *)
  Light : Type;
  LightRenderModel : Type;
  Material : Type;
  Shader : Type;           (* IShader *)
  Shading : Type           (* what [material.render] returns *)
}.

Module Surface.
Record t `{Externals} := mk {
  id : string;
  points : list Point.t;
  cullBackfaces : bool;
  fillMaterial : option Material;
  strokeMaterial : option Material
}.
End Surface.

Module Shape.
Record t `{Externals} := mk { surfaces : list Surface.t }.
End Shape.

(** The derived geometry of a render model ([transformed] and [projected]). *)
Module RenderData.
Record t := mk {
  points : list Point.t;
  normal : Point.t;
  barycenter : Point.t
}.

Definition roundPoints (d : t) : t :=
  {| points := map Point.round (points d);
     normal := normal d;
     barycenter := barycenter d |}.
End RenderData.

(** ** Matrix objects

    A Matrix is an object: [multiply] overwrites the entries of its receiver.
    The store of matrices is an allocation pointer and the entries found at
    every reference. *)
Module Matrix.
Abbreviation ref := nat (only parsing).

Record heap `{Externals} := mkHeap { next : ref; at_ : ref -> Entries }.

Section Ops.
Context `{Externals}.
Variable product : Entries -> Entries -> Entries.

Definition write (r : ref) (e : Entries) (h : heap) : heap :=
  {| next := next h; at_ := fun r' => if decide (r' = r) then e else at_ h r' |}.

(** Modelled from the spec: [Matrix.copy] (geometry/matrix is not among the
    sources) clones the matrix: a new object with the same entries. *)
Definition copy (r : ref) (h : heap) : ref * heap :=
  (next h, {| next := S (next h);
              at_ := fun r' => if decide (r' = next h) then at_ h r else at_ h r' |}).

(** Modelled from the spec: [a.multiply(b)] composes [b] onto the receiver
    [a], which is mutated and returned. *)
Definition multiply (a b : ref) (h : heap) : ref * heap :=
  (a, write a (product (at_ h a) (at_ h b)) h).
End Ops.
End Matrix.

(** ** Render models *)
Module RenderModel.
Record t `{Externals} := mk {
  surface : Surface.t;
  transform : Entries;
  projection : Entries;
  viewport : Entries;
  transformed : RenderData.t;
  projected : RenderData.t;
  inFrustrum : bool;
  fill : option Shading;
  stroke : option Shading
}.
End RenderModel.

(** ** The collaborators' operations *)
Class Collaborators `{Externals} := {
  (* the entries [a] holds after [a.multiply(b)] *)
  Matrix_product : Entries -> Entries -> Entries;
  (* [new LightRenderModel(light, transform)] *)
  LightRenderModel_new : Light -> Entries -> LightRenderModel;
  (* [material.render(lights, shader, renderData)] *)
  Material_render :
    Material -> list LightRenderModel -> Shader -> RenderData.t -> Shading;
  (* the scene graph, and [model.eachRenderable(lightFn, shapeFn)]: the calls
     of [shapeFn], in order, the lights being what [lightFn] returned; what
     [shapeFn] throws is not caught *)
  Model : Type;
  eachRenderable :
    Model -> (Light -> Entries -> LightRenderModel) ->
    list (Shape.t * list LightRenderModel * Entries);
  (* the geometry of a surface under a transform, a projection and a viewport:
     transformed data, projected data, frustum containment *)
  geometry :
    Surface.t -> Entries -> Entries -> Entries ->
    RenderData.t * RenderData.t * bool
}.

Section RenderModelOps.
Context `{Collaborators}.

(** Modelled from the spec: [new RenderModel(surface, transform, projection,
    viewport)] (render/model is not among the sources) computes the
    transformed and the projected geometry, the barycenter and the frustum
    containment; no shading result yet. *)
Definition RenderModel_new (surface : Surface.t) (transform projection viewport : Entries)
  : RenderModel.t :=
  let '(tr, pr, inF) := geometry surface transform projection viewport in
  {| RenderModel.surface := surface;
     RenderModel.transform := transform;
     RenderModel.projection := projection;
     RenderModel.viewport := viewport;
     RenderModel.transformed := tr;
     RenderModel.projected := pr;
     RenderModel.inFrustrum := inF;
     RenderModel.fill := None;
     RenderModel.stroke := None |}.

(** Modelled from the spec: [renderModel.update(transform, projection,
    viewport)] stores the three matrices and recomputes the transformed and
    projected geometry of the record's own surface, in place. *)
Definition RenderModel_update (rm : RenderModel.t) (transform projection viewport : Entries)
  : RenderModel.t :=
  let '(tr, pr, inF) := geometry (RenderModel.surface rm) transform projection viewport in
  {| RenderModel.surface := RenderModel.surface rm;
     RenderModel.transform := transform;
     RenderModel.projection := projection;
     RenderModel.viewport := viewport;
     RenderModel.transformed := tr;
     RenderModel.projected := pr;
     RenderModel.inFrustrum := inF;
     RenderModel.fill := RenderModel.fill rm;
     RenderModel.stroke := RenderModel.stroke rm |}.
End RenderModelOps.

(** ** [Array.prototype.sort]

    The sort is stable; [comparefn a b > 0] places [a] after [b], and a
    comparator value of NaN counts as +0. With a consistent comparator the
    result is determined, so one stable algorithm (insertion from the right)
    stands for all of them; with a comparator that is not consistent the
    order is left to the implementation, and this is one of the orders. *)
Section ArraySort.
Context {A : Type} (comparefn : A -> A -> Number.t).

Fixpoint sort_insert (a : A) (l : list A) : list A :=
  match l with
  | [] => [a]
  | b :: l' =>
      if Number.ltb Number.zero (comparefn a b) then b :: sort_insert a l'
      else a :: b :: l'
  end.

Fixpoint Array_sort (l : list A) : list A :=
  match l with
  | [] => []
  | a :: l' => sort_insert a (Array_sort l')
  end.
End ArraySort.

(** ** The scene *)
Module Camera.
Record t := mk { m : Matrix.ref; projection : Matrix.ref }.
End Camera.

Module IViewport.
Record t := mk { prescale : Matrix.ref; postscale : Matrix.ref }.
End IViewport.

Module Scene.
(** The options of a scene ([ISceneOptions]). *)
Record t `{Collaborators} := mk {
  model : Model;
  camera : Camera.t;
  viewport : IViewport.t;
  shader : Shader;
  cullBackfaces : bool;
  fractionalPoints : bool;
  cache : bool
}.

(** What a frame can mutate: the Matrix objects, the RenderModel objects
    and the own properties of the scene's private [_renderModelCache], an
    object keyed by [surface.id] whose values are references to RenderModel
    objects. *)
Record store `{Externals} := mkStore {
  matrices : Matrix.heap;
  models : list RenderModel.t;
  _renderModelCache : gmap string loc
}.

Section Methods.
Context `{Collaborators}.

Definition alloc (rm : RenderModel.t) (st : store) : loc * store :=
  (length (models st),
   {| matrices := matrices st;
      models := models st ++ [rm];
      _renderModelCache := _renderModelCache st |}).

Definition setModels (ms : list RenderModel.t) (st : store) : store :=
  {| matrices := matrices st; models := ms;
     _renderModelCache := _renderModelCache st |}.

Definition setCache (c : gmap string loc) (st : store) : store :=
  {| matrices := matrices st; models := models st; _renderModelCache := c |}.

Definition setMatrices (h : Matrix.heap) (st : store) : store :=
  {| matrices := h; models := models st;
     _renderModelCache := _renderModelCache st |}.

(** [renderModel = this._renderModelCache[surface.id] = new RenderModel(...)] *)
Definition store_new (surface : Surface.t) (transform projection viewport : Entries)
    (st : store) : loc * store :=
  let '(r, st') := alloc (RenderModel_new surface transform projection viewport) st in
  (r, setCache (<[Surface.id surface := r]> (_renderModelCache st')) st').

(** [Scene._renderSurface]. When the lookup finds an inherited member, which
    is not [null], the [else] branch calls its [update], which is not a
    function. *)
Definition _renderSurface (sc : t) (surface : Surface.t)
    (transform projection viewport : Entries) (st : store) : Completion loc * store :=
  if negb (cache sc) then
    let '(r, st') := alloc (RenderModel_new surface transform projection viewport) st in
    (Normal r, st')
  else
    match Object_get (_renderModelCache st) (Surface.id surface) with
    | Undefined =>
        let '(r, st') := store_new surface transform projection viewport st in
        (Normal r, st')
    | Own r =>
        (Normal r,
         setModels
           (alter (fun rm => RenderModel_update rm transform projection viewport)
                  r (models st)) st)
    | Inherited => (Throw TypeError, st)
    end.

(** The test of the shape visitor: backface culling and the frustum. *)
Definition visible (sc : t) (surface : Surface.t) (rm : RenderModel.t) : bool :=
  (negb (cullBackfaces sc) || negb (Surface.cullBackfaces surface)
   || Number.ltb (Point.z (RenderData.normal (RenderModel.projected rm))) Number.zero)
  && RenderModel.inFrustrum rm.

(** The assignments to [renderModel.fill] and [renderModel.stroke]. *)
Definition shade (sc : t) (surface : Surface.t) (lights : list LightRenderModel)
    (rm : RenderModel.t) : RenderModel.t :=
  {| RenderModel.surface := RenderModel.surface rm;
     RenderModel.transform := RenderModel.transform rm;
     RenderModel.projection := RenderModel.projection rm;
     RenderModel.viewport := RenderModel.viewport rm;
     RenderModel.transformed := RenderModel.transformed rm;
     RenderModel.projected := RenderModel.projected rm;
     RenderModel.inFrustrum := RenderModel.inFrustrum rm;
     RenderModel.fill :=
       match Surface.fillMaterial surface with
       | Some mat => Some (Material_render mat lights (shader sc) (RenderModel.transformed rm))
       | None => None
       end;
     RenderModel.stroke :=
       match Surface.strokeMaterial surface with
       | Some mat => Some (Material_render mat lights (shader sc) (RenderModel.transformed rm))
       | None => None
       end |}.

(** The loop [for (let p of renderModel.projected.points) p.round()]. *)
Definition roundProjected (rm : RenderModel.t) : RenderModel.t :=
  {| RenderModel.surface := RenderModel.surface rm;
     RenderModel.transform := RenderModel.transform rm;
     RenderModel.projection := RenderModel.projection rm;
     RenderModel.viewport := RenderModel.viewport rm;
     RenderModel.transformed := RenderModel.transformed rm;
     RenderModel.projected := RenderData.roundPoints (RenderModel.projected rm);
     RenderModel.inFrustrum := RenderModel.inFrustrum rm;
     RenderModel.fill := RenderModel.fill rm;
     RenderModel.stroke := RenderModel.stroke rm |}.

Definition quantize (sc : t) (rm : RenderModel.t) : RenderModel.t :=
  if fractionalPoints sc then rm else roundProjected rm.

(** The [if] statement of the shape visitor, for the reference [r] that
    [_renderSurface] returned: the test, then the shading, the rounding and
    the push onto the local array [renderModels]. *)
Definition pushVisible (sc : t) (surface : Surface.t) (lights : list LightRenderModel)
    (renderModels : list loc) (r : loc) (st1 : store) : list loc * store :=
  match models st1 !! r with
  | Some renderModel =>
      if visible sc surface renderModel then
        (renderModels ++ [r],
         setModels (<[r := quantize sc (shade sc surface lights renderModel)]> (models st1)) st1)
      else (renderModels, st1)
  | None => (renderModels, st1)   (* a dangling reference: no object to test *)
  end.

(** One iteration of [for (const surface of shape.surfaces)]: the first
    component of the accumulator is the local array [renderModels]. *)
Definition visitSurface (sc : t) (lights : list LightRenderModel)
    (transform projection viewport : Entries)
    (acc : list loc * store) (surface : Surface.t) : Completion (list loc) * store :=
  let '(renderModels, st) := acc in
  match _renderSurface sc surface transform projection viewport st with
  | (Normal r, st1) =>
      let '(renderModels', st2) := pushVisible sc surface lights renderModels r st1 in
      (Normal renderModels', st2)
  | (Throw e, st1) => (Throw e, st1)
  end.

(** The shape visitor handed to [eachRenderable]. *)
Definition shapeVisitor (sc : t) (projection viewport : Entries)
    (acc : list loc * store)
    (call : Shape.t * list LightRenderModel * Entries) : Completion (list loc) * store :=
  let '(shape, lights, transform) := call in
  forOf (visitSurface sc lights transform projection viewport)
        (Shape.surfaces shape) acc.

(** [this.camera.m.copy().multiply(this.viewport.prescale)
         .multiply(this.camera.projection)] *)
Definition composeProjection (sc : t) (h : Matrix.heap) : Matrix.ref * Matrix.heap :=
  let '(c, h1) := Matrix.copy (Camera.m (camera sc)) h in
  let '(c, h2) := Matrix.multiply Matrix_product c (IViewport.prescale (viewport sc)) h1 in
  Matrix.multiply Matrix_product c (Camera.projection (camera sc)) h2.

(** The walk of the scene graph: everything in [render] before the sort. *)
Definition collect (sc : t) (st : store) : Completion (list loc) * store :=
  let '(projection, h) := composeProjection sc (matrices st) in
  let viewport := IViewport.postscale (viewport sc) in
  forOf (shapeVisitor sc (Matrix.at_ h projection) (Matrix.at_ h viewport))
        (eachRenderable (model sc) LightRenderModel_new)
        ([], setMatrices h st).

(** [renderModel.projected.barycenter.z] of the object behind a reference. *)
Definition depth (st : store) (r : loc) : Number.t :=
  match models st !! r with
  | Some rm => Point.z (RenderData.barycenter (RenderModel.projected rm))
  | None => Number.zero
  end.

(** The comparator [(a, b) => b.projected.barycenter.z - a.projected.barycenter.z]. *)
Definition byDepth (st : store) (a b : loc) : Number.t :=
  Number.sub (depth st b) (depth st a).

(** [Scene.render]: the array returned, or the error thrown, and the store
    the call leaves behind. *)
Definition render (sc : t) (st : store) : Completion (list loc) * store :=
  match collect sc st with
  | (Normal renderModels, st1) => (Normal (Array_sort (byDepth st1) renderModels), st1)
  | (Throw e, st1) => (Throw e, st1)
  end.

(** [Scene.flushCache] *)
Definition flushCache (st : store) : store := setCache ∅ st.
End Methods.
End Scene.

(** ** A concrete world: translations

    The collaborators instantiated with the matrices that translate: the
    entries of a matrix are its translation vector, the product adds them, the
    scene graph is a flat list of shapes with their world transforms, and the
    frustum is the cube from (-1,-1,-1) to (1,1,1). *)
Module Translations.
Definition add (a b : Point.t) : Point.t :=
  {| Point.x := Number.add (Point.x a) (Point.x b);
     Point.y := Number.add (Point.y a) (Point.y b);
     Point.z := Number.add (Point.z a) (Point.z b) |}.

Definition sub (a b : Point.t) : Point.t :=
  {| Point.x := Number.sub (Point.x a) (Point.x b);
     Point.y := Number.sub (Point.y a) (Point.y b);
     Point.z := Number.sub (Point.z a) (Point.z b) |}.

Definition cross (a b : Point.t) : Point.t :=
  {| Point.x := Number.sub (Number.mul (Point.y a) (Point.z b))
                           (Number.mul (Point.z a) (Point.y b));
     Point.y := Number.sub (Number.mul (Point.z a) (Point.x b))
                           (Number.mul (Point.x a) (Point.z b));
     Point.z := Number.sub (Number.mul (Point.x a) (Point.y b))
                           (Number.mul (Point.y a) (Point.x b)) |}.

Definition at' (x y z : Q) : Point.t :=
  {| Point.x := Number.Finite x; Point.y := Number.Finite y; Point.z := Number.Finite z |}.

Definition origin : Point.t := at' 0 0 0.

Definition scale (k : Number.t) (a : Point.t) : Point.t :=
  {| Point.x := Number.mul k (Point.x a);
     Point.y := Number.mul k (Point.y a);
     Point.z := Number.mul k (Point.z a) |}.

(** The sum of the points divided by their number: NaN when there is none. *)
Definition centroid (ps : list Point.t) : Point.t :=
  scale (Number.div (Number.Finite 1) (Number.Finite (inject_Z (Z.of_nat (length ps)))))
        (fold_right add origin ps).

Definition normalOf (ps : list Point.t) : Point.t :=
  match ps with
  | p0 :: p1 :: p2 :: _ => cross (sub p1 p0) (sub p2 p0)
  | _ => origin
  end.

Definition within (a : Number.t) : bool :=
  Number.leb (Number.Finite (-1)) a && Number.leb a (Number.Finite 1).

Definition inClip (p : Point.t) : bool :=
  within (Point.x p) && within (Point.y p) && within (Point.z p).

Definition externals : Externals :=
  {| Entries := Point.t;
     Light := unit;
     LightRenderModel := unit;
     Material := string;
     Shader := unit;
     Shading := string * nat |}.

#[local] Existing Instance externals.

Definition translated (s : @Surface.t externals) (transform projection viewport : Point.t)
  : RenderData.t * RenderData.t * bool :=
  let world := map (add transform) (Surface.points s) in
  let camera := map (add projection) world in
  let screen := map (add viewport) camera in
  ({| RenderData.points := world;
      RenderData.normal := normalOf world;
      RenderData.barycenter := centroid world |},
   {| RenderData.points := screen;
      RenderData.normal := normalOf screen;
      RenderData.barycenter := centroid screen |},
   forallb inClip camera).

Definition collaborators : @Collaborators externals :=
  {| Matrix_product := add : @Entries externals -> @Entries externals -> @Entries externals;
     LightRenderModel_new := fun _ _ => tt;
     Material_render := fun mat lights _ _ => (mat, length lights);
     Model := list (@Shape.t externals * Point.t);
     eachRenderable := fun model _ => map (fun '(shape, t) => (shape, [], t)) model;
     geometry := translated |}.

#[local] Existing Instance collaborators.

(** A triangle that faces the viewer, with fractional coordinates. *)
Definition triangle : @Surface.t externals :=
  {| Surface.id := "s1";
     Surface.points := [at' 0 0 0; at' 0 (1 # 2) 0; at' (1 # 2) 0 0];
     Surface.cullBackfaces := true;
     Surface.fillMaterial := Some "red";
     Surface.strokeMaterial := None |}.

Definition shape : @Shape.t externals := {| Shape.surfaces := [triangle] |}.

(** Matrix objects 0 to 3: the camera's matrix and projection, the viewport's
    prescale and postscale, all the identity (no translation). *)
Definition heap0 : @Matrix.heap externals :=
  {| Matrix.next := 4; Matrix.at_ := fun _ => origin |}.

Definition store0 : @Scene.store externals :=
  {| Scene.matrices := heap0; Scene.models := []; Scene._renderModelCache := ∅ |}.

(** The scene of a scene graph, its matrices the objects 0 to 3. *)
Definition scene (model : list (@Shape.t externals * Point.t)) (cache fractional : bool)
  : @Scene.t externals collaborators :=
  {| Scene.model := model;
     Scene.camera := {| Camera.m := 0; Camera.projection := 1 |};
     Scene.viewport := {| IViewport.prescale := 2; IViewport.postscale := 3 |};
     Scene.shader := tt;
     Scene.cullBackfaces := true;
     Scene.fractionalPoints := fractional;
     Scene.cache := cache |}.

(** The shape instantiated twice: once in the frustum, once moved out of it. *)
Definition twice (far : Q) (cache fractional : bool) : @Scene.t externals collaborators :=
  scene [(shape, origin); (shape, at' 0 0 far)] cache fractional.

(** The shape once, in the frustum. *)
Definition once (cache fractional : bool) : @Scene.t externals collaborators :=
  scene [(shape, origin)] cache fractional.
End Translations.

(** More scenes of the world of translations. *)
Module Scenes.
#[local] Existing Instance Translations.externals.
#[local] Existing Instance Translations.collaborators.

(** A scene graph with no shape. *)
Definition vacant (cache : bool) : @Scene.t Translations.externals Translations.collaborators :=
  Translations.scene [] cache false.

(** A triangle that faces away from the viewer, its own culling off. *)
Definition backface : @Surface.t Translations.externals :=
  {| Surface.id := "s2";
     Surface.points :=
       [Translations.at' 0 0 0; Translations.at' (1 # 2) 0 0; Translations.at' 0 (1 # 2) 0];
     Surface.cullBackfaces := false;
     Surface.fillMaterial := None;
     Surface.strokeMaterial := Some "black" |}.

(** The two triangles, each once, both in the frustum. *)
Definition pair (cache : bool) : @Scene.t Translations.externals Translations.collaborators :=
  Translations.scene
    [({| Shape.surfaces := [Translations.triangle; backface] |}, Translations.origin)]
    cache false.

(** The triangle at depth 0, then the backface moved to depth 1/2. *)
Definition layered : @Scene.t Translations.externals Translations.collaborators :=
  Translations.scene
    [(Translations.shape, Translations.origin);
     ({| Shape.surfaces := [backface] |}, Translations.at' 0 0 (1 # 2))]
    true true.

(** A surface with no point, its culling off: its barycenter is 0/0. *)
Definition pointless : @Surface.t Translations.externals :=
  {| Surface.id := "s3";
     Surface.points := [];
     Surface.cullBackfaces := false;
     Surface.fillMaterial := None;
     Surface.strokeMaterial := None |}.

(** The triangle and the surface with no point. *)
Definition degenerate : @Scene.t Translations.externals Translations.collaborators :=
  Translations.scene
    [({| Shape.surfaces := [Translations.triangle; pointless] |}, Translations.origin)]
    true true.



(** The matrices of [heap0] but for the viewport's postscale, which moves
    points to infinity along x. *)
Definition heapInfinity : @Matrix.heap Translations.externals :=
  {| Matrix.next := 4;
     Matrix.at_ := fun r =>
       if Nat.eqb r 3
       then {| Point.x := Number.Infinity; Point.y := Number.zero; Point.z := Number.zero |}
       else Translations.origin |}.

Definition storeInfinity : @Scene.store Translations.externals :=
  {| Scene.matrices := heapInfinity; Scene.models := []; Scene._renderModelCache := ∅ |}.
End Scenes.

(** ** A concrete world: words

    The entries of a matrix are a word and the product appends, so that the
    order of a composition can be read off; the scene graph is empty. *)
Module Words.
Definition externals : Externals :=
  {| Entries := string;
     Light := unit;
     LightRenderModel := unit;
     Material := unit;
     Shader := unit;
     Shading := unit |}.

#[local] Existing Instance externals.

Definition nowhere : RenderData.t :=
  {| RenderData.points := [];
     RenderData.normal := Translations.origin;
     RenderData.barycenter := Translations.origin |}.

Definition collaborators : @Collaborators externals :=
  {| Matrix_product := String.append : @Entries externals -> @Entries externals -> @Entries externals;
     LightRenderModel_new := fun _ _ => tt;
     Material_render := fun _ _ _ _ => tt;
     Model := unit;
     eachRenderable := fun _ _ => [];
     geometry := fun _ _ _ _ => (nowhere, nowhere, true) |}.

#[local] Existing Instance collaborators.

(** Matrix objects 0 to 3: the camera's matrix M and projection P, the
    viewport's prescale S and postscale V. *)
Definition heap : @Matrix.heap externals :=
  {| Matrix.next := 4;
     Matrix.at_ := fun r =>
       match r with 0 => "M" | 1 => "P" | 2 => "S" | _ => "V" end |}.

Definition store : @Scene.store externals :=
  {| Scene.matrices := heap; Scene.models := []; Scene._renderModelCache := ∅ |}.

Definition scene : @Scene.t externals collaborators :=
  {| Scene.model := tt;
     Scene.camera := {| Camera.m := 0; Camera.projection := 1 |};
     Scene.viewport := {| IViewport.prescale := 2; IViewport.postscale := 3 |};
     Scene.shader := tt;
     Scene.cullBackfaces := true;
     Scene.fractionalPoints := false;
     Scene.cache := true |}.
End Words.

(** * Events (events.ts)

    Listeners are functions, compared by identity: a type with decidable
    equality. A call is recorded as the listener and its arguments. A
    listener may add or remove listeners of the emitter that is calling it:
    [react callback args] is what one call of the listener does to that
    emitter's list. Listeners are taken to return normally. *)
Module EventEmitter.
Section EventEmitter.
Context {Callback : Type} `{EqDecision Callback} {Args : Type}.

(** [callbacks.indexOf(callback)], counted from [i]: the index of the first
    element identical to [callback], or -1. *)
Fixpoint indexOfFrom (callback : Callback) (callbacks : list Callback) (i : Z) : Z :=
  match callbacks with
  | [] => (-1)%Z
  | c :: rest =>
      if decide (c = callback) then i else indexOfFrom callback rest (i + 1)%Z
  end.

Definition indexOf (callback : Callback) (callbacks : list Callback) : Z :=
  indexOfFrom callback callbacks 0%Z.

(** [EventEmitter.isEmpty] *)
Definition isEmpty (callbacks : list Callback) : bool := Nat.eqb (length callbacks) 0.

(** [EventEmitter.remove]: what it returns and the list it leaves.
    [callbacks.splice(i, 1)] deletes the element at [i]. *)
Definition remove (callback : option Callback) (callbacks : list Callback)
  : bool * list Callback :=
  let callbacks' :=
    match callback with
    | Some c =>
        let i := indexOf c callbacks in
        if (0 <=? i)%Z then delete (Z.to_nat i) callbacks else callbacks
    | None => callbacks
    end in
  (isEmpty callbacks', callbacks').

(** [EventEmitter.add] *)
Definition add (callback : Callback) (callbacks : list Callback) : list Callback :=
  (remove (Some callback) callbacks).2 ++ [callback].

Section Emit.
Variable react : Callback -> Args -> list Callback -> list Callback.

(** The loop [for (const callback of this.callbacks)] from index [i]: the
    iterator reads the array as it is when the index gets there, and ends
    when the index reaches its length. The loop need not end (a listener can
    add a listener at every call): [fuel] bounds the number of calls. The
    result is the calls made, in order, and the list left. *)
Fixpoint emitFrom (fuel i : nat) (callbacks : list Callback) (args : Args)
  : option (list (Callback * Args) * list Callback) :=
  match fuel with
  | 0 => None
  | S fuel' =>
      match callbacks !! i with
      | None => Some ([], callbacks)
      | Some callback =>
          match emitFrom fuel' (S i) (react callback args callbacks) args with
          | Some (calls, callbacks') => Some ((callback, args) :: calls, callbacks')
          | None => None
          end
      end
  end.

(** [EventEmitter.emit] *)
Definition emit (fuel : nat) (callbacks : list Callback) (args : Args)
  : option (list (Callback * Args) * list Callback) :=
  emitFrom fuel 0 callbacks args.
End Emit.
End EventEmitter.
End EventEmitter.

Module Events.
Section Events.
Context {Callback : Type} `{EqDecision Callback} {Args : Type}.

(** An [Events] object: [emitters] holds the own properties of the object of
    that name, an event name to an EventEmitter object, and [objects] holds
    the [callbacks] of every EventEmitter object made so far, by reference. *)
Record t := mk {
  emitters : gmap string loc;
  objects : list (list Callback)
}.

(** What [emitter] returns: the [emit] of an EventEmitter object,
    [EventEmitter.noopEmitter], or [undefined] (the [emit] of an inherited
    member). *)
Inductive func := emitOf (r : loc) | noopEmitter | undefined.

(** [if (this.emitters[eventName] == null)
       this.emitters[eventName] = new EventEmitter()] *)
Definition ensure (eventName : string) (ev : t) : t :=
  match Object_get (emitters ev) eventName with
  | Undefined =>
      {| emitters := <[eventName := length (objects ev)]> (emitters ev);
         objects := objects ev ++ [[]] |}
  | _ => ev
  end.

(** [Events.on]: [this.emitters[eventName].add] is not a function when the
    lookup finds an inherited member. *)
Definition on (eventName : string) (callback : Callback) (ev : t) : Completion unit * t :=
  let ev1 := ensure eventName ev in
  match Object_get (emitters ev1) eventName with
  | Own r =>
      (Normal tt,
       {| emitters := emitters ev1;
          objects := alter (EventEmitter.add callback) r (objects ev1) |})
  | _ => (Throw TypeError, ev1)
  end.

(** [Events.off]: the emitter is kept whatever [remove] returns;
    [emitter.remove] is not a function when the lookup finds an inherited
    member. *)
Definition off (eventName : string) (callback : option Callback) (ev : t)
  : Completion unit * t :=
  match Object_get (emitters ev) eventName with
  | Own r =>
      (Normal tt,
       {| emitters := emitters ev;
          objects := alter (fun cs => (EventEmitter.remove callback cs).2) r (objects ev) |})
  | Inherited => (Throw TypeError, ev)
  | Undefined => (Normal tt, ev)
  end.

(** [Events.clear] *)
Definition clear (ev : t) : t := {| emitters := ∅; objects := objects ev |}.

(** [Events.emitter]: the function returned and the object afterwards. An
    inherited member is truthy and has no [emit]. *)
Definition emitter (eventName : string) (ev : t) : func * t :=
  let ev1 := ensure eventName ev in
  (match Object_get (emitters ev1) eventName with
   | Own r => emitOf r
   | Inherited => undefined
   | Undefined => noopEmitter
   end, ev1).

(** Calling what [emitter] returned: the calls made and the object
    afterwards, or the TypeError of calling [undefined]; nothing when the
    fuel does not suffice. Of the [Events] object a listener is taken to
    touch only, through [react], the list of the emitter that calls it. *)
Definition call (react : Callback -> Args -> list Callback -> list Callback)
    (fuel : nat) (f : func) (args : Args) (ev : t)
  : option (Completion (list (Callback * Args)) * t) :=
  match f with
  | emitOf r =>
      match objects ev !! r with
      | Some callbacks =>
          match EventEmitter.emit react fuel callbacks args with
          | Some (calls, callbacks') =>
              Some (Normal calls,
                    {| emitters := emitters ev;
                       objects := <[r := callbacks']> (objects ev) |})
          | None => None
          end
      | None => Some (Normal [], ev)   (* a dangling reference: no object to call *)
      end
  | noopEmitter => Some (Normal [], ev)
  | undefined => Some (Throw TypeError, ev)
  end.

(** The listeners held for an event: those of its own emitter. *)
Definition listeners (eventName : string) (ev : t) : list Callback :=
  match emitters ev !! eventName with
  | Some r => default [] (objects ev !! r)
  | None => []
  end.

(** The emitters are objects of the store, no two events share one, and no
    listener is twice in a list. *)
Definition events_ok (ev : t) : Prop :=
  (forall e r, emitters ev !! e = Some r -> r < length (objects ev)) /\
  (forall e e' r, emitters ev !! e = Some r -> emitters ev !! e' = Some r -> e = e') /\
  Forall NoDup (objects ev).

(** The lookup of an event name finds an inherited member: the name is no
    own property of [emitters] and names a member of [Object.prototype]. *)
Definition inherits (eventName : string) (ev : t) : Prop :=
  emitters ev !! eventName = None /\ eventName ∈ Object_prototype.

(** A new [Events] object. *)
Definition empty : t := {| emitters := ∅; objects := [] |}.

(** The operations that keep the emitters: everything but [clear]. *)
Inductive op := Op_on (e : string) (c : Callback) | Op_off (e : string) (c : option Callback)
              | Op_emitter (e : string).

(** The object after an operation, whether it returned or threw. *)
Definition step (ev : t) (o : op) : t :=
  match o with
  | Op_on e c => (on e c ev).2
  | Op_off e c => (off e c ev).2
  | Op_emitter e => (emitter e ev).2
  end.

(** The listeners of a list leave the list alone when called. *)
Definition quiet (react : Callback -> Args -> list Callback -> list Callback)
    (args : Args) (callbacks : list Callback) : Prop :=
  forall c, c ∈ callbacks -> react c args callbacks = callbacks.
End Events.
End Events.

(** ** Listeners of the examples

    What a call of a listener does to the list of its emitter, for listeners
    named by strings. *)
Module Listeners.
(** Listeners that leave the list of their emitter alone. *)
Definition still : string -> string -> list string -> list string := fun _ _ l => l.

End Listeners.

(** * Vocabulary *)

(** ** Of the sort *)
Section SortVocabulary.
Context {A : Type} (key : A -> Number.t).

(** The comparator of [render], over any depth function. *)
Definition descending (a b : A) : Number.t := Number.sub (key b) (key a).

(** Farthest first: the earlier of two neighbours is at least as deep. *)
Definition farther_first (a b : A) : Prop := Number.leb (key b) (key a) = true.

(** The entries at one depth. *)
Definition at_depth (k : Number.t) (l : list A) : list A :=
  List.filter (fun a => Number.eqb (key a) k) l.
End SortVocabulary.

(** ** Of the pipeline *)
Section Vocabulary.
Context `{Collaborators}.

(** The visits of a frame, one per surface, in the order of the walk. *)
Definition visits (sc : Scene.t) : list (Surface.t * list LightRenderModel * Entries) :=
  flat_map (fun '(shape, lights, transform) =>
              map (fun surface => (surface, lights, transform)) (Shape.surfaces shape))
           (eachRenderable (Scene.model sc) LightRenderModel_new).

(** The [surface.id] of every visit of a frame. *)
Definition visitedIds (sc : Scene.t) : list string :=
  map (fun v => Surface.id v.1.1) (visits sc).

(** One visit: the body of the loop over [shape.surfaces], for one surface. *)
Definition visitOf (sc : Scene.t) (projection viewport : Entries)
    (acc : list loc * Scene.store) (v : Surface.t * list LightRenderModel * Entries)
  : Completion (list loc) * Scene.store :=
  let '(surface, lights, transform) := v in
  Scene.visitSurface sc lights transform projection viewport acc surface.

(** The visits [vs], made one after the other from an accumulator. *)
Definition walk (sc : Scene.t) (projection viewport : Entries)
    (vs : list (Surface.t * list LightRenderModel * Entries))
    (acc : list loc * Scene.store) : Completion (list loc) * Scene.store :=
  forOf (visitOf sc projection viewport) vs acc.

(** The z of the projected barycenter of the record behind a reference. *)
Definition barycenterZ (st : Scene.store) (r : loc) : option Number.t :=
  match Scene.models st !! r with
  | Some rm => Some (Point.z (RenderData.barycenter (RenderModel.projected rm)))
  | None => None
  end.

(** Of two entries of the array, the earlier is at least as deep as the
    later: both are records, and the z of the projected barycenter of the
    earlier is greater than or equal to that of the later. *)
Definition deeper (st : Scene.store) (earlier later : loc) : Prop :=
  exists ze zl, barycenterZ st earlier = Some ze /\ barycenterZ st later = Some zl /\
                Number.leb zl ze = true.

(** The entries whose projected barycenter has the z [k]. *)
Definition atDepth (st : Scene.store) (k : Number.t) (l : list loc) : list loc :=
  List.filter (fun r => match barycenterZ st r with
                        | Some z => Number.eqb z k
                        | None => false
                        end) l.

(** The record holds the three matrices and the geometry computed from them. *)
Definition computed (rm : RenderModel.t) (transform projection viewport : Entries) : Prop :=
  RenderModel.transform rm = transform /\
  RenderModel.projection rm = projection /\
  RenderModel.viewport rm = viewport /\
  (RenderModel.transformed rm, RenderModel.projected rm, RenderModel.inFrustrum rm)
  = geometry (RenderModel.surface rm) transform projection viewport.

(** The cache refers to objects of the store, each slot to the record of a
    surface with the slot's id, and no two slots to the same record. *)
Definition cache_ok (st : Scene.store) : Prop :=
  (forall i r, Scene._renderModelCache st !! i = Some r ->
     exists rm, Scene.models st !! r = Some rm /\ Surface.id (RenderModel.surface rm) = i) /\
  (forall i j r, Scene._renderModelCache st !! i = Some r ->
     Scene._renderModelCache st !! j = Some r -> i = j).

(** The four matrices of the scene are objects of the store. *)
Definition allocated (sc : Scene.t) (h : Matrix.heap) : Prop :=
  Camera.m (Scene.camera sc) < Matrix.next h /\
  Camera.projection (Scene.camera sc) < Matrix.next h /\
  IViewport.prescale (Scene.viewport sc) < Matrix.next h /\
  IViewport.postscale (Scene.viewport sc) < Matrix.next h.

(** The projection and the viewport matrix of a frame, by their entries. *)
Definition frameProjection (sc : Scene.t) (h : Matrix.heap) : Entries :=
  Matrix_product
    (Matrix_product (Matrix.at_ h (Camera.m (Scene.camera sc)))
                    (Matrix.at_ h (IViewport.prescale (Scene.viewport sc))))
    (Matrix.at_ h (Camera.projection (Scene.camera sc))).

Definition frameViewport (sc : Scene.t) (h : Matrix.heap) : Entries :=
  Matrix.at_ h (IViewport.postscale (Scene.viewport sc)).

(** The projected points as the geometry gives them, before any rounding. *)
Definition asProjected (rm : RenderModel.t) : RenderData.t :=
  (geometry (RenderModel.surface rm) (RenderModel.transform rm)
            (RenderModel.projection rm) (RenderModel.viewport rm)).1.2.

(** The record a visit leaves behind the reference it resolved. *)
Definition visited (sc : Scene.t) (s : Surface.t) (lights : list LightRenderModel)
    (rm0 : RenderModel.t) : RenderModel.t :=
  if Scene.visible sc s rm0 then Scene.quantize sc (Scene.shade sc s lights rm0) else rm0.

(** The test of a visit made from a store: [_renderSurface] returns there,
    and the record it resolves passes the visibility test. *)
Definition passes (sc : Scene.t) (P V : Entries) (st : Scene.store)
    (v : Surface.t * list LightRenderModel * Entries) : bool :=
  let '(s, _, t) := v in
  match Scene._renderSurface sc s t P V st with
  | (Normal r, st1) =>
      match Scene.models st1 !! r with
      | Some rm => Scene.visible sc s rm
      | None => false
      end
  | (Throw _, _) => false
  end.

(** The outcome of a frame after its first visits [vs]. *)
Definition walked (sc : Scene.t) (st : Scene.store)
    (vs : list (Surface.t * list LightRenderModel * Entries))
  : Completion (list loc) * Scene.store :=
  let ph := Scene.composeProjection sc (Scene.matrices st) in
  walk sc (Matrix.at_ ph.2 ph.1)
       (Matrix.at_ ph.2 (IViewport.postscale (Scene.viewport sc)))
       vs ([], Scene.setMatrices ph.2 st).

(** The visits [vs] of the frame return, and the visit [v], made after
    them, passes the test. *)
Definition passesAfter (sc : Scene.t) (st : Scene.store)
    (vs : list (Surface.t * list LightRenderModel * Entries))
    (v : Surface.t * list LightRenderModel * Entries) : bool :=
  let ph := Scene.composeProjection sc (Scene.matrices st) in
  match walked sc st vs with
  | (Normal _, st1) =>
      passes sc (Matrix.at_ ph.2 ph.1)
             (Matrix.at_ ph.2 (IViewport.postscale (Scene.viewport sc))) st1 v
  | (Throw _, _) => false
  end.

(** Everything of a record but its shading results. *)
Definition geometryOf (rm : RenderModel.t) :=
  (RenderModel.surface rm, RenderModel.transform rm, RenderModel.projection rm,
   RenderModel.viewport rm, RenderModel.transformed rm, RenderModel.projected rm,
   RenderModel.inFrustrum rm).

(** The second store has the slots of the first and the same surfaces behind
    the same references. *)
Definition extends (a b : Scene.store) : Prop :=
  (forall i r, Scene._renderModelCache a !! i = Some r ->
     Scene._renderModelCache b !! i = Some r) /\
  (forall r rm, Scene.models a !! r = Some rm ->
     exists rm', Scene.models b !! r = Some rm' /\
                 RenderModel.surface rm' = RenderModel.surface rm).

(** The rule in words: inside the frustum, and culling off for the scene, or
    off for the surface, or the projected normal pointing at the viewer. *)
Definition inView (sc : Scene.t) (s : Surface.t) (rm : RenderModel.t) : Prop :=
  RenderModel.inFrustrum rm = true /\
  (Scene.cullBackfaces sc = false \/ Surface.cullBackfaces s = false \/
   Number.ltb (Point.z (RenderData.normal (RenderModel.projected rm))) Number.zero = true).

(** The shading results of a surface under given lights, from the transformed
    geometry of a record. *)
Definition shadingOf (sc : Scene.t) (lights : list LightRenderModel)
    (material : option Material) (rm : RenderModel.t) : option Shading :=
  match material with
  | Some mat => Some (Material_render mat lights (Scene.shader sc) (RenderModel.transformed rm))
  | None => None
  end.

(** The hypothesis that no record is resolved twice in a frame: the cache is
    off, or the cache is sound and no surface id is visited twice. *)
Definition visited_once (sc : Scene.t) (st : Scene.store) : Prop :=
  Scene.cache sc = true -> cache_ok st /\ NoDup (visitedIds sc).

(** The lookup of an id finds an inherited member: with the cache on, the
    id is no own property of the cache and names a member of
    [Object.prototype]. *)
Definition inherits (sc : Scene.t) (st : Scene.store) (id : string) : Prop :=
  Scene.cache sc = true /\
  Scene._renderModelCache st !! id = None /\
  id ∈ Object_prototype.
End Vocabulary.

(** ** The walk as a fold of total steps

    A visit that returns is a function of the accumulator. [resolve] is what
    [_renderSurface] returns when it returns; where it throws, [resolve] is
    given the value of a miss, so that the visits of a frame that return can
    be followed as a fold. *)
Section Steps.
Context `{Collaborators}.

Definition resolve (sc : Scene.t) (s : Surface.t) (t P V : Entries) (st : Scene.store)
  : loc * Scene.store :=
  match Scene._renderSurface sc s t P V st with
  | (Normal r, st1) => (r, st1)
  | (Throw _, _) => Scene.store_new s t P V st
  end.

(** What [resolve] does, by cases. *)
Inductive built (sc : Scene.t) (s : Surface.t) (t P V : Entries) (st : Scene.store)
  : loc -> Scene.store -> Prop :=
| built_fresh :
    Scene.cache sc = false ->
    built sc s t P V st (length (Scene.models st))
      {| Scene.matrices := Scene.matrices st;
         Scene.models := Scene.models st ++ [RenderModel_new s t P V];
         Scene._renderModelCache := Scene._renderModelCache st |}
| built_miss :
    Scene.cache sc = true ->
    Scene._renderModelCache st !! Surface.id s = None ->
    built sc s t P V st (length (Scene.models st))
      {| Scene.matrices := Scene.matrices st;
         Scene.models := Scene.models st ++ [RenderModel_new s t P V];
         Scene._renderModelCache :=
           <[Surface.id s := length (Scene.models st)]> (Scene._renderModelCache st) |}
| built_hit r :
    Scene.cache sc = true ->
    Scene._renderModelCache st !! Surface.id s = Some r ->
    built sc s t P V st r
      {| Scene.matrices := Scene.matrices st;
         Scene.models := alter (fun rm => RenderModel_update rm t P V) r (Scene.models st);
         Scene._renderModelCache := Scene._renderModelCache st |}.

(** One visit that returns. *)
Definition visit (sc : Scene.t) (P V : Entries)
    (acc : list loc * Scene.store) (v : Surface.t * list LightRenderModel * Entries)
  : list loc * Scene.store :=
  let '(s, lights, t) := v in
  let '(l, st) := acc in
  let '(r, st1) := resolve sc s t P V st in
  Scene.pushVisible sc s lights l r st1.

(** The test of the record [resolve] gives. *)
Definition passed (sc : Scene.t) (P V : Entries) (st : Scene.store)
    (v : Surface.t * list LightRenderModel * Entries) : bool :=
  let '(s, _, t) := v in
  let '(r, st1) := resolve sc s t P V st in
  match Scene.models st1 !! r with
  | Some rm => Scene.visible sc s rm
  | None => false
  end.

(** Everything one visit does, seen from the store. *)
Record stepped (sc : Scene.t) (P V : Entries) (l : list loc) (st : Scene.store)
    (s : Surface.t) (lights : list LightRenderModel) (t : Entries)
    (acc' : list loc * Scene.store) (r : loc) (rm0 : RenderModel.t) : Prop := {
  st_list : acc'.1 = if Scene.visible sc s rm0 then l ++ [r] else l;
  st_object : Scene.models acc'.2 !! r = Some (visited sc s lights rm0);
  st_frame : forall r', r' <> r -> Scene.models acc'.2 !! r' = Scene.models st !! r';
  st_computed : computed rm0 t P V;
  st_id : Surface.id (RenderModel.surface rm0) = Surface.id s;
  st_uncached : Scene.cache sc = false ->
                RenderModel.surface rm0 = s /\ r = length (Scene.models st) /\
                rm0 = RenderModel_new s t P V /\
                length (Scene.models acc'.2) = S (length (Scene.models st)) /\
                Scene._renderModelCache acc'.2 = Scene._renderModelCache st;
  st_cached : Scene.cache sc = true ->
              Scene._renderModelCache acc'.2 !! Surface.id s = Some r /\ cache_ok acc'.2;
  st_cache_mono : forall i r', Scene._renderModelCache st !! i = Some r' ->
                               Scene._renderModelCache acc'.2 !! i = Some r';
  st_kept : forall r' rm, Scene.models st !! r' = Some rm ->
            exists rm', Scene.models acc'.2 !! r' = Some rm' /\
                        RenderModel.surface rm' = RenderModel.surface rm;
  st_built : built sc s t P V st r
               (Scene.setModels (<[r := rm0]> (Scene.models acc'.2)) acc'.2);
  st_matrices : Scene.matrices acc'.2 = Scene.matrices st;
  st_resolved : (resolve sc s t P V st).1 = r;
  st_passes : passed sc P V st (s, lights, t) = Scene.visible sc s rm0
}.

(** Visits that return, run from an accumulator. *)
Definition run (sc : Scene.t) (P V : Entries)
    (vs : list (Surface.t * list LightRenderModel * Entries))
    (acc : list loc * Scene.store) : list loc * Scene.store :=
  fold_left (visit sc P V) vs acc.

(** The array and the store of a frame whose first visits [vs] return. *)
Definition stepsOf (sc : Scene.t) (st : Scene.store)
    (vs : list (Surface.t * list LightRenderModel * Entries)) : list loc * Scene.store :=
  let ph := Scene.composeProjection sc (Scene.matrices st) in
  run sc (Matrix.at_ ph.2 ph.1)
      (Matrix.at_ ph.2 (IViewport.postscale (Scene.viewport sc)))
      vs ([], Scene.setMatrices ph.2 st).

(** What [collect] and [render] give when every visit returns. *)
Definition collected (sc : Scene.t) (st : Scene.store) : list loc * Scene.store :=
  stepsOf sc st (visits sc).

Definition rendered (sc : Scene.t) (st : Scene.store) : list loc * Scene.store :=
  (Array_sort (Scene.byDepth (collected sc st).2) (collected sc st).1, (collected sc st).2).
End Steps.

(** ** Of a frame that builds a record at every visit *)
Section BuildVocabulary.
Context `{Collaborators}.

(** The record a visit leaves when it builds a new one. *)
Definition builtRecord (sc : Scene.t) (P V : Entries)
    (v : Surface.t * list LightRenderModel * Entries) : RenderModel.t :=
  visited sc v.1.1 v.1.2 (RenderModel_new v.1.1 v.2 P V).

(** The references pushed when the visits [vs] build the objects [n], [n+1],
    ...: those of the visits whose new record passes the test. *)
Fixpoint pushed (sc : Scene.t) (P V : Entries) (n : nat)
    (vs : list (Surface.t * list LightRenderModel * Entries)) : list loc :=
  match vs with
  | [] => []
  | v :: vs' =>
      (if Scene.visible sc v.1.1 (RenderModel_new v.1.1 v.2 P V) then [n] else [])
      ++ pushed sc P V (S n) vs'
  end.

(** The scene with its [cache] option set. *)
Definition withCache (b : bool) (sc : Scene.t) : Scene.t :=
  {| Scene.model := Scene.model sc;
     Scene.camera := Scene.camera sc;
     Scene.viewport := Scene.viewport sc;
     Scene.shader := Scene.shader sc;
     Scene.cullBackfaces := Scene.cullBackfaces sc;
     Scene.fractionalPoints := Scene.fractionalPoints sc;
     Scene.cache := b |}.

(** No visit of [vs] finds a slot: the cache is off, or the ids are distinct
    and none is in the cache. *)
Definition all_built (sc : Scene.t) (st : Scene.store)
    (vs : list (Surface.t * list LightRenderModel * Entries)) : Prop :=
  Scene.cache sc = false \/
  (NoDup (map (fun v => Surface.id v.1.1) vs) /\
   forall v, v ∈ vs -> Scene._renderModelCache st !! Surface.id v.1.1 = None).

(** The cache refers to no object below [n], and the store has [n] objects
    at least. *)
Definition cache_above (n : nat) (st : Scene.store) : Prop :=
  n <= length (Scene.models st) /\
  forall i r, Scene._renderModelCache st !! i = Some r -> n <= r.
End BuildVocabulary.

(** * Properties *)

(** ** Numbers *)
Lemma Qlt_bool_iff (a b : Q) : Qlt_bool a b = true <-> (a < b)%Q.
Proof.
  unfold Qlt_bool. rewrite negb_true_iff. split.
  - intros E. apply Qnot_le_lt. intros L. apply Qle_bool_iff in L. congruence.
  - intros L. destruct (Qle_bool b a) eqn:E; [|done].
    apply Qle_bool_iff in E. exfalso. eapply Qlt_not_le; eauto.
Qed.

Lemma Qlt_bool_false (a b : Q) : Qlt_bool a b = false <-> (b <= a)%Q.
Proof.
  split.
  - intros E. apply Qnot_lt_le. intros L. apply Qlt_bool_iff in L. congruence.
  - intros L. destruct (Qlt_bool a b) eqn:E; [|done].
    apply Qlt_bool_iff in E. exfalso. eapply Qlt_not_le; eauto.
Qed.

(** The comparator of the sort is positive exactly when its first argument is
    the less deep; with a NaN on either side it never is. *)
Lemma ltb_sub_pos (a b : Number.t) :
  Number.ltb Number.zero (Number.sub b a) = true <-> Number.ltb a b = true.
Proof.
  destruct a as [p| | |], b as [q| | |]; simpl; try done.
  rewrite !Qlt_bool_iff. split; intros L.
  - apply Qlt_minus_iff. exact L.
  - apply (proj1 (Qlt_minus_iff _ _)). exact L.
Qed.

Lemma ltb_leb (a b : Number.t) : Number.ltb a b = true -> Number.leb a b = true.
Proof.
  destruct a as [p| | |], b as [q| | |]; simpl; try done.
  rewrite Qlt_bool_iff. intros L. apply Qle_bool_iff. by apply Qlt_le_weak.
Qed.

Lemma leb_of_not_ltb (a b : Number.t) :
  a <> Number.NaN -> b <> Number.NaN -> Number.ltb a b = false -> Number.leb b a = true.
Proof.
  destruct a as [p| | |], b as [q| | |]; simpl; try done.
  intros _ _. rewrite Qlt_bool_false. apply Qle_bool_iff.
Qed.

Lemma ltb_eqb (a b k : Number.t) :
  Number.ltb a b = true -> Number.eqb a k = true -> Number.eqb b k = true -> False.
Proof.
  destruct a as [p| | |], b as [q| | |], k as [r| | |]; simpl; try done.
  rewrite Qlt_bool_iff. intros L Ea Eb. apply Qeq_bool_iff in Ea, Eb.
  rewrite Ea, Eb in L. by apply Qlt_irrefl in L.
Qed.

Lemma leb_NaN (a b : Number.t) :
  Number.leb a b = true -> a <> Number.NaN /\ b <> Number.NaN.
Proof. by destruct a, b. Qed.

Lemma Math_round_integer (a : Number.t) :
  Number.finite a -> Number.is_integer (Math_round a).
Proof.
  destruct a as [q| | |]; try done. intros _.
  unfold Math_round, Number.is_integer. by rewrite Qfloor_Z.
Qed.

Lemma Math_round_finite (a : Number.t) :
  Number.finite (Math_round a) -> Number.finite a.
Proof. by destruct a. Qed.

Lemma round_integral (p : Point.t) : Point.integral (Point.round p).
Proof.
  intros c Hc Hf. simpl in Hc.
  repeat (apply elem_of_cons in Hc as [->|Hc]);
    try (apply Math_round_integer; by apply Math_round_finite).
  by apply elem_of_nil in Hc.
Qed.

#[local] Arguments Number.ltb : simpl never.
#[local] Arguments Number.leb : simpl never.
#[local] Arguments Number.eqb : simpl never.
#[local] Arguments Number.sub : simpl never.

(** ** The sort *)
Section SortFacts.
Context {A : Type} (key : A -> Number.t).

Lemma descending_pos (a b : A) :
  Number.ltb Number.zero (descending key a b) = true <-> Number.ltb (key a) (key b) = true.
Proof. apply ltb_sub_pos. Qed.

Lemma sort_insert_perm (a : A) (l : list A) : sort_insert (descending key) a l ≡ₚ a :: l.
Proof.
  induction l as [|b l IH]; simpl; [done|].
  destruct (Number.ltb Number.zero (descending key a b)); [|done].
  rewrite IH. apply Permutation_swap.
Qed.

Lemma Array_sort_perm (l : list A) : Array_sort (descending key) l ≡ₚ l.
Proof.
  induction l as [|a l IH]; simpl; [done|].
  rewrite sort_insert_perm. by rewrite IH.
Qed.

Lemma sort_insert_hd (a b : A) (l : list A) :
  HdRel (farther_first key) b l -> (farther_first key) b a ->
  HdRel (farther_first key) b (sort_insert (descending key) a l).
Proof.
  intros Hl Hab. destruct l as [|c l]; simpl; [by constructor|].
  destruct (Number.ltb Number.zero (descending key a c)); constructor; [|done].
  by inversion Hl.
Qed.

Lemma sort_insert_sorted (a : A) (l : list A) :
  key a <> Number.NaN -> Forall (fun b => key b <> Number.NaN) l ->
  Sorted (farther_first key) l -> Sorted (farther_first key) (sort_insert (descending key) a l).
Proof.
  intros Ha Hl. induction 1 as [|b l Hs IH Hhd]; simpl; [by repeat constructor|].
  apply Forall_cons in Hl as [Hb Hl].
  destruct (Number.ltb Number.zero (descending key a b)) eqn:E.
  - constructor; [by apply IH|]. apply sort_insert_hd; [done|].
    apply descending_pos in E. by apply ltb_leb.
  - constructor; [by constructor|]. constructor.
    apply leb_of_not_ltb; [done|done|].
    destruct (Number.ltb (key a) (key b)) eqn:E'; [|done].
    apply descending_pos in E'. congruence.
Qed.

(** When no key is NaN the comparator is consistent and the array comes out
    sorted. *)
Lemma Array_sort_sorted (l : list A) :
  Forall (fun a => key a <> Number.NaN) l ->
  Sorted (farther_first key) (Array_sort (descending key) l).
Proof.
  induction l as [|a l IH]; simpl; [constructor|].
  intros [Ha Hl]%Forall_cons. apply sort_insert_sorted; [done| |by apply IH].
  by rewrite Array_sort_perm.
Qed.

Lemma sort_insert_at_depth (k : Number.t) (a : A) (l : list A) :
  at_depth key k (sort_insert (descending key) a l) = at_depth key k (a :: l).
Proof.
  induction l as [|b l IH]; [done|]. simpl sort_insert.
  destruct (Number.ltb Number.zero (descending key a b)) eqn:E; [|done].
  apply descending_pos in E.
  unfold at_depth in *. simpl in *. rewrite IH.
  destruct (Number.eqb (key a) k) eqn:Ea, (Number.eqb (key b) k) eqn:Eb; try done.
  exfalso. by eapply ltb_eqb.
Qed.

(** The sort is stable, whatever the keys. *)
Lemma Array_sort_stable (k : Number.t) (l : list A) :
  at_depth key k (Array_sort (descending key) l) = at_depth key k l.
Proof.
  induction l as [|a l IH]; [done|]. simpl Array_sort.
  rewrite sort_insert_at_depth. unfold at_depth in *. simpl. by rewrite IH.
Qed.

End SortFacts.

(** Three depths and a tie: the deepest comes first and the two entries at
    depth 2 keep their order. *)
Example Array_sort_farthest_first :
  Array_sort (descending (fun e : Q * string => Number.Finite e.1))
    [(2%Q, "a"); (1%Q, "b"); (3%Q, "c"); (2%Q, "d")]
  = [(3%Q, "c"); (2%Q, "a"); (2%Q, "d"); (1%Q, "b")].
Proof. reflexivity. Qed.

Lemma sort_insert_ext {A : Type} (cmp cmp' : A -> A -> Number.t) (a : A) (l : list A) :
  (forall b, b ∈ l -> cmp a b = cmp' a b) ->
  sort_insert cmp a l = sort_insert cmp' a l.
Proof.
  induction l as [|b l IH]; intros E; [done|]. simpl.
  rewrite <- (E b) by set_solver. rewrite IH; [done|]. intros; apply E; set_solver.
Qed.

Lemma Array_sort_ext {A : Type} (key key' : A -> Number.t) (l : list A) :
  (forall a, a ∈ l -> key a = key' a) ->
  Array_sort (descending key) l = Array_sort (descending key') l.
Proof.
  induction l as [|a l IH]; intros E; [done|]. simpl.
  rewrite IH by (intros; apply E; set_solver).
  apply sort_insert_ext. intros b Hb. unfold descending.
  rewrite (E a) by set_solver. rewrite (E b); [done|].
  rewrite (Array_sort_perm key' l) in Hb. set_solver.
Qed.

Lemma Sorted_among {A : Type} (R R' : A -> A -> Prop) (l : list A) :
  (forall a b, a ∈ l -> b ∈ l -> R a b -> R' a b) -> Sorted R l -> Sorted R' l.
Proof.
  intros HR. induction 1 as [|a l Hs IH Hhd]; [constructor|].
  constructor.
  - apply IH. intros x y Hx Hy. apply HR; by apply list_elem_of_further.
  - destruct Hhd as [|b l Hab]; constructor.
    apply HR; [apply list_elem_of_here|apply list_elem_of_further, list_elem_of_here|done].
Qed.
(** ** The render-model builder and one visit *)
Section Pipeline.
Context `{Collaborators}.

Lemma RenderModel_new_computed s t P V : computed (RenderModel_new s t P V) t P V.
Proof.
  unfold computed, RenderModel_new.
  destruct (geometry s t P V) as [[tr pr] inF] eqn:E. simpl. by rewrite E.
Qed.

Lemma RenderModel_new_surface s t P V : RenderModel.surface (RenderModel_new s t P V) = s.
Proof. unfold RenderModel_new. by destruct (geometry s t P V) as [[tr pr] inF]. Qed.

Lemma RenderModel_update_computed rm t P V : computed (RenderModel_update rm t P V) t P V.
Proof.
  unfold computed, RenderModel_update.
  destruct (geometry (RenderModel.surface rm) t P V) as [[tr pr] inF] eqn:E. simpl.
  by rewrite E.
Qed.

Lemma RenderModel_update_surface rm t P V :
  RenderModel.surface (RenderModel_update rm t P V) = RenderModel.surface rm.
Proof.
  unfold RenderModel_update.
  by destruct (geometry (RenderModel.surface rm) t P V) as [[tr pr] inF].
Qed.

Lemma RenderModel_update_shading rm t P V :
  RenderModel.fill (RenderModel_update rm t P V) = RenderModel.fill rm /\
  RenderModel.stroke (RenderModel_update rm t P V) = RenderModel.stroke rm.
Proof.
  unfold RenderModel_update.
  by destruct (geometry (RenderModel.surface rm) t P V) as [[tr pr] inF].
Qed.

Lemma cache_cases (sc : Scene.t) : Scene.cache sc = true \/ Scene.cache sc = false.
Proof. destruct (Scene.cache sc); auto. Qed.

(** [resolve] by the own properties of the cache alone. *)
Lemma resolve_unfold sc s t P V st :
  resolve sc s t P V st
  = if negb (Scene.cache sc) then Scene.alloc (RenderModel_new s t P V) st
    else match Scene._renderModelCache st !! Surface.id s with
         | None =>
             (length (Scene.models st),
              {| Scene.matrices := Scene.matrices st;
                 Scene.models := Scene.models st ++ [RenderModel_new s t P V];
                 Scene._renderModelCache :=
                   <[Surface.id s := length (Scene.models st)]> (Scene._renderModelCache st) |})
         | Some r =>
             (r, Scene.setModels
                   (alter (fun rm => RenderModel_update rm t P V) r (Scene.models st)) st)
         end.
Proof.
  unfold resolve, Scene._renderSurface, Object_get, Scene.store_new.
  destruct (Scene.cache sc); simpl; [|done].
  destruct (Scene._renderModelCache st !! Surface.id s); [done|].
  by destruct (bool_decide (Surface.id s ∈ Object_prototype)).
Qed.

Lemma renderSurface_built sc s t P V st :
  built sc s t P V st (resolve sc s t P V st).1
                      (resolve sc s t P V st).2.
Proof.
  rewrite resolve_unfold.
  destruct (cache_cases sc) as [Ec|Ec]; rewrite Ec; simpl.
  - destruct (Scene._renderModelCache st !! Surface.id s) as [r|] eqn:El; simpl.
    + exact (built_hit sc s t P V st r Ec El).
    + exact (built_miss sc s t P V st Ec El).
  - exact (built_fresh sc s t P V st Ec).
Qed.

Lemma built_matrices sc s t P V st r st1 :
  built sc s t P V st r st1 -> Scene.matrices st1 = Scene.matrices st.
Proof. by destruct 1. Qed.

Lemma built_frame sc s t P V st r st1 r' :
  built sc s t P V st r st1 -> r' <> r ->
  Scene.models st1 !! r' = Scene.models st !! r'.
Proof.
  destruct 1; simpl; intros Hne.
  - destruct (decide (r' < length (Scene.models st))) as [Hlt|Hge].
    + by rewrite lookup_app_l.
    + rewrite !lookup_ge_None_2; [done|lia|rewrite length_app; simpl; lia].
  - destruct (decide (r' < length (Scene.models st))) as [Hlt|Hge].
    + by rewrite lookup_app_l.
    + rewrite !lookup_ge_None_2; [done|lia|rewrite length_app; simpl; lia].
  - by rewrite list_lookup_alter_ne.
Qed.

Lemma built_length sc s t P V st r st1 :
  built sc s t P V st r st1 -> length (Scene.models st) <= length (Scene.models st1).
Proof.
  destruct 1; simpl; rewrite ?length_app, ?length_alter; simpl; lia.
Qed.

Lemma built_cache_mono sc s t P V st r st1 i r' :
  built sc s t P V st r st1 ->
  Scene._renderModelCache st !! i = Some r' ->
  Scene._renderModelCache st1 !! i = Some r'.
Proof.
  destruct 1; simpl; intros Hi; try done.
  rewrite lookup_insert_ne; [done|]. intros <-. congruence.
Qed.

Lemma built_surface_kept sc s t P V st r st1 r' rm :
  built sc s t P V st r st1 ->
  Scene.models st !! r' = Some rm ->
  exists rm', Scene.models st1 !! r' = Some rm' /\
              RenderModel.surface rm' = RenderModel.surface rm.
Proof.
  destruct 1; simpl; intros Hr.
  - exists rm. split; [|done]. rewrite lookup_app_l; [done|]. by eapply lookup_lt_Some.
  - exists rm. split; [|done]. rewrite lookup_app_l; [done|]. by eapply lookup_lt_Some.
  - destruct (decide (r' = r)) as [->|Hne].
    + exists (RenderModel_update rm t P V). rewrite list_lookup_alter_eq, Hr. simpl.
      split; [done|]. apply RenderModel_update_surface.
    + exists rm. by rewrite list_lookup_alter_ne.
Qed.

Lemma built_uncached sc s t P V st r st1 :
  built sc s t P V st r st1 -> Scene.cache sc = false ->
  r = length (Scene.models st) /\
  Scene.models st1 = Scene.models st ++ [RenderModel_new s t P V] /\
  Scene._renderModelCache st1 = Scene._renderModelCache st.
Proof. destruct 1; intros Ec; simpl; try done; congruence. Qed.

Lemma built_cache_ok sc s t P V st r st1 :
  built sc s t P V st r st1 -> cache_ok st -> cache_ok st1.
Proof.
  destruct 1 as [Ec|Ec Hmiss|r Ec Hhit]; intros [Hobj Hinj]; split; simpl.
  - intros i r' Hi. destruct (Hobj i r' Hi) as (rm & Hrm & Hid). exists rm.
    split; [|done]. rewrite lookup_app_l; [done|]. by eapply lookup_lt_Some.
  - done.
  - intros i r' Hi. destruct (decide (i = Surface.id s)) as [->|Hne].
    + rewrite lookup_insert_eq in Hi. injection Hi as <-.
      exists (RenderModel_new s t P V). split; [|apply f_equal, RenderModel_new_surface].
      rewrite lookup_app_r by lia. by rewrite Nat.sub_diag.
    + rewrite lookup_insert_ne in Hi by done.
      destruct (Hobj i r' Hi) as (rm & Hrm & Hid). exists rm.
      split; [|done]. rewrite lookup_app_l; [done|]. by eapply lookup_lt_Some.
  - intros i j r' Hi Hj.
    destruct (decide (i = Surface.id s)) as [->|Hni], (decide (j = Surface.id s)) as [->|Hnj];
      try done.
    + rewrite lookup_insert_eq in Hi. rewrite lookup_insert_ne in Hj by done.
      injection Hi as <-. destruct (Hobj j _ Hj) as (rm & Hrm & _).
      apply lookup_lt_Some in Hrm. lia.
    + rewrite lookup_insert_eq in Hj. rewrite lookup_insert_ne in Hi by done.
      injection Hj as <-. destruct (Hobj i _ Hi) as (rm & Hrm & _).
      apply lookup_lt_Some in Hrm. lia.
    + rewrite lookup_insert_ne in Hi, Hj by done. by eapply Hinj.
  - intros i r' Hi. destruct (Hobj i r' Hi) as (rm & Hrm & Hid).
    destruct (decide (r' = r)) as [->|Hne].
    + exists (RenderModel_update rm t P V). rewrite list_lookup_alter_eq, Hrm. simpl.
      split; [done|]. by rewrite RenderModel_update_surface.
    + exists rm. by rewrite list_lookup_alter_ne.
  - done.
Qed.

(** The record behind the reference [_renderSurface] returns: its geometry is
    the one of this call, and with the cache on it is the slot of the surface. *)
Lemma built_resolved sc s t P V st r st1 :
  built sc s t P V st r st1 ->
  (Scene.cache sc = true -> cache_ok st) ->
  exists rm0, Scene.models st1 !! r = Some rm0 /\ computed rm0 t P V /\
              Surface.id (RenderModel.surface rm0) = Surface.id s /\
              (Scene.cache sc = false -> RenderModel.surface rm0 = s) /\
              (Scene.cache sc = true ->
               Scene._renderModelCache st1 !! Surface.id s = Some r).
Proof.
  destruct 1 as [Ec|Ec Hmiss|r Ec Hhit]; intros Hok; simpl.
  - exists (RenderModel_new s t P V). rewrite lookup_app_r by lia.
    rewrite Nat.sub_diag. split_and!; try done.
    + apply RenderModel_new_computed.
    + by rewrite RenderModel_new_surface.
    + intros _. apply RenderModel_new_surface.
    + congruence.
  - exists (RenderModel_new s t P V). rewrite lookup_app_r by lia.
    rewrite Nat.sub_diag. split_and!; try done.
    + apply RenderModel_new_computed.
    + by rewrite RenderModel_new_surface.
    + intros _. apply RenderModel_new_surface.
    + intros _. apply lookup_insert_eq.
  - destruct (Hok Ec) as [Hobj _]. destruct (Hobj _ _ Hhit) as (rm & Hrm & Hid).
    exists (RenderModel_update rm t P V). rewrite list_lookup_alter_eq, Hrm. simpl.
    split_and!; try done.
    + apply RenderModel_update_computed.
    + by rewrite RenderModel_update_surface.
    + congruence.
Qed.

Lemma setModels_same (st : Scene.store) : Scene.setModels (Scene.models st) st = st.
Proof. by destruct st. Qed.

Lemma visitSurface_step sc lights t P V l st s :
  (Scene.cache sc = true -> cache_ok st) ->
  exists r rm0 st1,
    resolve sc s t P V st = (r, st1) /\
    built sc s t P V st r st1 /\ Scene.models st1 !! r = Some rm0 /\
    visit sc P V (l, st) (s, lights, t)
    = (if Scene.visible sc s rm0 then l ++ [r] else l,
       Scene.setModels (<[r := visited sc s lights rm0]> (Scene.models st1)) st1).
Proof.
  intros Hok. pose proof (renderSurface_built sc s t P V st) as Hb.
  unfold visit, Scene.pushVisible.
  destruct (resolve sc s t P V st) as [r st1] eqn:Er. simpl in Hb.
  destruct (built_resolved _ _ _ _ _ _ _ _ Hb Hok) as (rm0 & Hrm0 & _).
  exists r, rm0, st1. split_and!; try done. rewrite Hrm0. unfold visited.
  destruct (Scene.visible sc s rm0); [done|].
  by rewrite list_insert_id, setModels_same.
Qed.

Lemma visited_surface sc s lights rm0 :
  RenderModel.surface (visited sc s lights rm0) = RenderModel.surface rm0.
Proof.
  unfold visited, Scene.quantize.
  by destruct (Scene.visible sc s rm0), (Scene.fractionalPoints sc).
Qed.

Lemma visited_matrices sc s lights rm0 :
  RenderModel.transform (visited sc s lights rm0) = RenderModel.transform rm0 /\
  RenderModel.projection (visited sc s lights rm0) = RenderModel.projection rm0 /\
  RenderModel.viewport (visited sc s lights rm0) = RenderModel.viewport rm0.
Proof.
  unfold visited, Scene.quantize.
  by destruct (Scene.visible sc s rm0), (Scene.fractionalPoints sc).
Qed.

Lemma visited_depth sc s lights rm0 :
  RenderData.barycenter (RenderModel.projected (visited sc s lights rm0))
  = RenderData.barycenter (RenderModel.projected rm0).
Proof.
  unfold visited, Scene.quantize.
  by destruct (Scene.visible sc s rm0), (Scene.fractionalPoints sc).
Qed.

Lemma cache_ok_insert st r rm0 rm1 :
  cache_ok st -> Scene.models st !! r = Some rm0 ->
  RenderModel.surface rm1 = RenderModel.surface rm0 ->
  cache_ok (Scene.setModels (<[r := rm1]> (Scene.models st)) st).
Proof.
  intros [Hobj Hinj] Hr Hs. split; simpl; [|done].
  intros i r' Hi. destruct (Hobj i r' Hi) as (rm & Hrm & Hid).
  destruct (decide (r' = r)) as [->|Hne].
  - exists rm1. rewrite list_lookup_insert_eq by (by eapply lookup_lt_Some).
    split; [done|]. congruence.
  - exists rm. by rewrite list_lookup_insert_ne.
Qed.

Lemma visit_stepped sc P V l st s lights t :
  (Scene.cache sc = true -> cache_ok st) ->
  exists r rm0, stepped sc P V l st s lights t (visit sc P V (l, st) (s, lights, t)) r rm0.
Proof.
  intros Hok.
  destruct (visitSurface_step sc lights t P V l st s Hok)
    as (r & rm0 & st1 & Er & Hb & Hrm0 & ->).
  destruct (built_resolved _ _ _ _ _ _ _ _ Hb Hok) as (rm0' & Hrm0' & Hc & Hid & Hun & Hca).
  assert (rm0' = rm0) as -> by congruence.
  assert (Hlt : r < length (Scene.models st1)) by (by eapply lookup_lt_Some).
  exists r, rm0. split; simpl.
  - done.
  - by rewrite list_lookup_insert_eq.
  - intros r' Hne. rewrite list_lookup_insert_ne by done. by eapply built_frame.
  - done.
  - done.
  - intros Ec. destruct (built_uncached _ _ _ _ _ _ _ _ Hb Ec) as (-> & Hm & Hcache).
    split_and!; try done; [by apply Hun| |].
    + rewrite Hm, lookup_app_r, Nat.sub_diag in Hrm0 by lia. simpl in Hrm0. congruence.
    + rewrite length_insert, Hm, length_app. simpl. lia.
  - intros Ec. split; [by apply Hca|].
    eapply cache_ok_insert; [|done|apply visited_surface].
    eapply built_cache_ok; [done|by apply Hok].
  - intros i r' Hi. by eapply built_cache_mono.
  - intros r' rm Hr. destruct (built_surface_kept _ _ _ _ _ _ _ _ _ _ Hb Hr) as (rm' & Hrm' & Hs).
    destruct (decide (r' = r)) as [->|Hne].
    + exists (visited sc s lights rm0). rewrite list_lookup_insert_eq by done.
      split; [done|]. rewrite visited_surface. congruence.
    + exists rm'. by rewrite list_lookup_insert_ne.
  - rewrite list_insert_insert_eq, list_insert_id by done.
    unfold Scene.setModels; simpl. by destruct st1.
  - by eapply built_matrices.
  - by rewrite Er.
  - unfold passed. by rewrite Er, Hrm0.
Qed.

(** ** The walk *)

Lemma run_nil sc P V acc : run sc P V [] acc = acc.
Proof. done. Qed.

Lemma run_cons sc P V v vs acc :
  run sc P V (v :: vs) acc = run sc P V vs (visit sc P V acc v).
Proof. done. Qed.

Lemma collect_run sc st :
  collected sc st
  = let '(p, h) := Scene.composeProjection sc (Scene.matrices st) in
    run sc (Matrix.at_ h p) (Matrix.at_ h (IViewport.postscale (Scene.viewport sc)))
        (visits sc) ([], Scene.setMatrices h st).
Proof.
  unfold collected, stepsOf.
  by destruct (Scene.composeProjection sc (Scene.matrices st)) as [p h].
Qed.

#[local] Arguments visit : simpl never.
#[local] Arguments run : simpl never.

Lemma visit_prefix sc P V l st v :
  visit sc P V (l, st) v
  = (l ++ (visit sc P V ([], st) v).1, (visit sc P V ([], st) v).2).
Proof.
  destruct v as [[s lights] t]. unfold visit, Scene.pushVisible.
  destruct (resolve sc s t P V st) as [r st1].
  destruct (Scene.models st1 !! r) as [rm|]; simpl; [|by rewrite app_nil_r].
  destruct (Scene.visible sc s rm); simpl; [done|by rewrite app_nil_r].
Qed.

Lemma run_prefix sc P V vs l st :
  run sc P V vs (l, st)
  = (l ++ (run sc P V vs ([], st)).1, (run sc P V vs ([], st)).2).
Proof.
  revert l st. induction vs as [|v vs IH]; intros l st; rewrite ?run_cons, ?run_nil.
  - by rewrite app_nil_r.
  - rewrite (visit_prefix sc P V l st v).
    destruct (visit sc P V ([], st) v) as [d st']. simpl.
    rewrite (IH (l ++ d)), (IH d). simpl. by rewrite app_assoc.
Qed.

Lemma run_cache_ok sc P V vs l st :
  (Scene.cache sc = true -> cache_ok st) ->
  Scene.cache sc = true -> cache_ok (run sc P V vs (l, st)).2.
Proof.
  revert l st. induction vs as [|[[s lights] t] vs IH]; intros l st Hok Ec; rewrite ?run_cons, ?run_nil.
  - by apply Hok.
  - destruct (visit_stepped sc P V l st s lights t Hok) as (r & rm0 & Hs).
    destruct (visit sc P V (l, st) (s, lights, t)) as [l' st'] eqn:E.
    apply IH; [|done]. intros _. by apply (st_cached _ _ _ _ _ _ _ _ _ _ _ Hs).
Qed.

Lemma visit_matrices sc P V acc v :
  Scene.matrices (visit sc P V acc v).2 = Scene.matrices acc.2.
Proof.
  destruct acc as [l st], v as [[s lights] t]. unfold visit, Scene.pushVisible.
  pose proof (renderSurface_built sc s t P V st) as Hb.
  destruct (resolve sc s t P V st) as [r st1]. simpl in Hb.
  apply built_matrices in Hb.
  destruct (Scene.models st1 !! r) as [rm|]; [|done].
  by destruct (Scene.visible sc s rm).
Qed.

Lemma run_matrices sc P V vs acc :
  Scene.matrices (run sc P V vs acc).2 = Scene.matrices acc.2.
Proof.
  revert acc. induction vs as [|v vs IH]; intros acc; rewrite ?run_cons, ?run_nil; [done|].
  rewrite IH. apply visit_matrices.
Qed.

(** A property that every visit establishes on the record it resolves holds
    of every entry of the array, whatever is visited again. *)
Lemma run_established sc P V (Q : RenderModel.t -> Prop) vs l st :
  (forall s lights t rm0, computed rm0 t P V -> Q (visited sc s lights rm0)) ->
  (Scene.cache sc = true -> cache_ok st) ->
  (forall r, r ∈ l -> exists rm, Scene.models st !! r = Some rm /\ Q rm) ->
  forall r, r ∈ (run sc P V vs (l, st)).1 ->
  exists rm, Scene.models (run sc P V vs (l, st)).2 !! r = Some rm /\ Q rm.
Proof.
  intros HQ. revert l st. induction vs as [|[[s lights] t] vs IH]; intros l st Hok Hl; rewrite ?run_cons, ?run_nil.
  - done.
  - destruct (visit_stepped sc P V l st s lights t Hok) as (r0 & rm0 & Hs).
    destruct (visit sc P V (l, st) (s, lights, t)) as [l' st'] eqn:E.
    destruct Hs as [Hlist Hobj Hframe Hcomp _ _ Hcached _ _ _ _ _ _]. simpl in *.
    apply IH.
    + intros Ec. by apply Hcached.
    + intros r Hr. destruct (decide (r = r0)) as [->|Hne].
      * eexists. split; [exact Hobj|]. by eapply HQ.
      * rewrite Hframe by done. apply Hl. subst l'.
        destruct (Scene.visible sc s rm0); [|done].
        apply elem_of_app in Hr as [Hr|Hr]; [done|].
        by apply list_elem_of_singleton in Hr.
Qed.

(** With the cache off every visit builds a new object; the older ones stay. *)
Lemma run_frame_uncached sc P V vs l st r :
  Scene.cache sc = false -> r < length (Scene.models st) ->
  Scene.models (run sc P V vs (l, st)).2 !! r = Scene.models st !! r.
Proof.
  intros Ec. revert l st. induction vs as [|[[s lights] t] vs IH]; intros l st Hlt; rewrite ?run_cons, ?run_nil.
  - done.
  - destruct (visit_stepped sc P V l st s lights t) as (r0 & rm0 & Hs); [congruence|].
    destruct (visit sc P V (l, st) (s, lights, t)) as [l' st'] eqn:E.
    destruct Hs as [_ _ Hframe _ _ Hun _ _ _ _ _ _ _]. simpl in *.
    destruct (Hun Ec) as (_ & -> & _ & Hlen & _).
    rewrite IH by lia. apply Hframe. lia.
Qed.

(** With the cache on, the slot of a surface that is not visited again keeps
    its record. *)
Lemma run_frame_cached sc P V vs l st i r :
  Scene.cache sc = true -> cache_ok st ->
  Scene._renderModelCache st !! i = Some r ->
  i ∉ map (fun v => Surface.id v.1.1) vs ->
  Scene.models (run sc P V vs (l, st)).2 !! r = Scene.models st !! r.
Proof.
  intros Ec. revert l st. induction vs as [|[[s lights] t] vs IH]; intros l st Hok Hi Hni; rewrite ?run_cons, ?run_nil.
  - done.
  - destruct (visit_stepped sc P V l st s lights t) as (r0 & rm0 & Hs); [done|].
    destruct (visit sc P V (l, st) (s, lights, t)) as [l' st'] eqn:E.
    destruct Hs as [_ _ Hframe _ _ _ Hcached Hmono _ _ _ _ _]. simpl in *.
    destruct (Hcached Ec) as [Hslot Hok'].
    assert (r <> r0) as Hne.
    { intros ->. destruct Hok' as [_ Hinj].
      assert (i = Surface.id s) as -> by (eapply Hinj; [by apply Hmono|done]).
      apply Hni. simpl. apply list_elem_of_here. }
    rewrite IH; [by apply Hframe|done|by apply Hmono|].
    intros Hin. apply Hni. simpl. by apply list_elem_of_further.
Qed.

(** The cache only grows during the walk, and a record keeps its surface. *)
Lemma run_cache_mono sc P V vs l st i r :
  (Scene.cache sc = true -> cache_ok st) ->
  Scene._renderModelCache st !! i = Some r ->
  Scene._renderModelCache (run sc P V vs (l, st)).2 !! i = Some r.
Proof.
  revert l st. induction vs as [|[[s lights] t] vs IH]; intros l st Hok Hi; rewrite ?run_cons, ?run_nil; [done|].
  destruct (visit_stepped sc P V l st s lights t Hok) as (r0 & rm0 & Hs).
  destruct (visit sc P V (l, st) (s, lights, t)) as [l' st'] eqn:E.
  destruct Hs as [_ _ _ _ _ _ Hcached Hmono _ _ _ _ _]. simpl in *.
  apply IH; [intros Ec; by apply Hcached|by apply Hmono].
Qed.

Lemma run_kept sc P V vs l st r rm :
  (Scene.cache sc = true -> cache_ok st) ->
  Scene.models st !! r = Some rm ->
  exists rm', Scene.models (run sc P V vs (l, st)).2 !! r = Some rm' /\
              RenderModel.surface rm' = RenderModel.surface rm.
Proof.
  revert l st rm. induction vs as [|[[s lights] t] vs IH]; intros l st rm Hok Hr; rewrite ?run_cons, ?run_nil.
  - by exists rm.
  - destruct (visit_stepped sc P V l st s lights t Hok) as (r0 & rm0 & Hs).
    destruct (visit sc P V (l, st) (s, lights, t)) as [l' st'] eqn:E.
    destruct Hs as [_ _ _ _ _ _ Hcached _ Hkept _ _ _ _]. simpl in *.
    destruct (Hkept _ _ Hr) as (rm1 & Hr1 & Hs1).
    destruct (IH l' st' rm1) as (rm2 & Hr2 & Hs2); [intros Ec; by apply Hcached|done|].
    exists rm2. split; [done|congruence].
Qed.

(** When no record is resolved twice (the cache is off, or no surface id is
    visited twice), every entry of the array is as its one visit left it. *)
Lemma run_last_visit sc P V vs st :
  (Scene.cache sc = true -> cache_ok st /\ NoDup (map (fun v => Surface.id v.1.1) vs)) ->
  forall r, r ∈ (run sc P V vs ([], st)).1 ->
  exists s lights t rm0,
    (s, lights, t) ∈ vs /\ computed rm0 t P V /\
    Surface.id (RenderModel.surface rm0) = Surface.id s /\
    (Scene.cache sc = false -> RenderModel.surface rm0 = s) /\
    Scene.visible sc s rm0 = true /\
    Scene.models (run sc P V vs ([], st)).2 !! r
    = Some (Scene.quantize sc (Scene.shade sc s lights rm0)).
Proof.
  revert st. induction vs as [|[[s lights] t] vs IH]; intros st Hok r; rewrite ?run_cons, ?run_nil.
  - simpl. by intros ?%elem_of_nil.
  - destruct (visit_stepped sc P V [] st s lights t) as (r0 & rm0 & Hs);
      [intros Ec; by apply Hok|].
    destruct (visit sc P V ([], st) (s, lights, t)) as [l' st'] eqn:E.
    destruct Hs as [Hlist Hobj Hframe Hcomp Hid Hun Hcached Hmono _ _ _ _ _]. simpl in *.
    rewrite run_prefix. simpl. intros [Hr|Hr]%elem_of_app.
    + subst l'. destruct (Scene.visible sc s rm0) eqn:Ev; [|by apply elem_of_nil in Hr].
      apply list_elem_of_singleton in Hr as ->.
      exists s, lights, t, rm0. split_and!; try done.
      * apply list_elem_of_here.
      * intros Ec. by apply Hun.
      * unfold visited in Hobj. rewrite Ev in Hobj. rewrite <- Hobj.
        destruct (cache_cases sc) as [Ec|Ec].
        -- destruct (Hcached Ec) as [Hslot Hok']. destruct (Hok Ec) as [_ Hnd].
           eapply run_frame_cached; [done|done|exact Hslot|].
           simpl in Hnd. by apply NoDup_cons in Hnd as [Hni _].
        -- apply run_frame_uncached; [done|]. by eapply lookup_lt_Some.
    + destruct (IH st') with (r := r) as (s' & lights' & t' & rm' & Hin & Hrest); [|done|].
      * intros Ec. split; [by apply Hcached|].
        destruct (Hok Ec) as [_ Hnd]. simpl in Hnd. by apply NoDup_cons in Hnd as [_ ?].
      * exists s', lights', t', rm'. split; [by apply list_elem_of_further|done].
Qed.

(** ** The composition of the projection *)
Lemma composeProjection_spec sc h :
  allocated sc h ->
  (Scene.composeProjection sc h).1 = Matrix.next h /\
  Matrix.next (Scene.composeProjection sc h).2 = S (Matrix.next h) /\
  Matrix.at_ (Scene.composeProjection sc h).2 (Scene.composeProjection sc h).1
  = frameProjection sc h /\
  forall r, r < Matrix.next h ->
            Matrix.at_ (Scene.composeProjection sc h).2 r = Matrix.at_ h r.
Proof.
  intros (Hm & Hp & Hpre & Hpost).
  unfold Scene.composeProjection, frameProjection, Matrix.multiply, Matrix.copy, Matrix.write.
  simpl. split_and!; try done.
  - repeat case_decide; try done; lia.
  - intros r Hr. repeat case_decide; try done; lia.
Qed.

(** With the cache off, the entries a walk adds are objects it allocates. *)
Lemma run_fresh_uncached sc P V vs st r :
  Scene.cache sc = false -> r ∈ (run sc P V vs ([], st)).1 ->
  length (Scene.models st) <= r.
Proof.
  intros Ec. revert st. induction vs as [|[[s lights] t] vs IH]; intros st;
    rewrite ?run_cons, ?run_nil.
  - simpl. by intros ?%elem_of_nil.
  - destruct (visit_stepped sc P V [] st s lights t) as (r0 & rm0 & Hs); [congruence|].
    destruct (visit sc P V ([], st) (s, lights, t)) as [l' st'] eqn:E.
    destruct Hs as [Hlist _ _ _ _ Hun _ _ _ _ _ _ _]. simpl in *.
    destruct (Hun Ec) as (_ & -> & _ & Hlen & _).
    rewrite run_prefix. simpl. intros [Hr|Hr]%elem_of_app.
    + subst l'. destruct (Scene.visible sc s rm0); [|by apply elem_of_nil in Hr].
      apply list_elem_of_singleton in Hr as ->. done.
    + apply IH in Hr. lia.
Qed.

(** When no record is resolved twice, the record of every visit is found in
    the store as the visit left it, and it is in the array exactly when it
    passed the test. *)
Lemma run_each_visit sc P V vs st :
  (Scene.cache sc = true -> cache_ok st /\ NoDup (map (fun v => Surface.id v.1.1) vs)) ->
  forall s lights t, (s, lights, t) ∈ vs ->
  exists r rm0,
    computed rm0 t P V /\
    Surface.id (RenderModel.surface rm0) = Surface.id s /\
    (Scene.cache sc = false -> RenderModel.surface rm0 = s) /\
    Scene.models (run sc P V vs ([], st)).2 !! r = Some (visited sc s lights rm0) /\
    (r ∈ (run sc P V vs ([], st)).1 <-> Scene.visible sc s rm0 = true) /\
    (Scene.cache sc = false -> length (Scene.models st) <= r) /\
    (Scene.cache sc = true ->
     Scene._renderModelCache (run sc P V vs ([], st)).2 !! Surface.id s = Some r).
Proof.
  revert st. induction vs as [|[[s0 lights0] t0] vs IH]; intros st Hok s lights t Hin;
    rewrite ?run_cons, ?run_nil.
  - by apply elem_of_nil in Hin.
  - destruct (visit_stepped sc P V [] st s0 lights0 t0) as (r0 & rm0 & Hs);
      [intros Ec; by apply Hok|].
    destruct (visit sc P V ([], st) (s0, lights0, t0)) as [l' st'] eqn:E.
    destruct Hs as [Hlist Hobj Hframe Hcomp Hid Hun Hcached Hmono _ _ _ _ _]. simpl in *.
    assert (Hok' : Scene.cache sc = true ->
                   cache_ok st' /\ NoDup (map (fun v => Surface.id v.1.1) vs)).
    { intros Ec. split; [by apply Hcached|].
      destruct (Hok Ec) as [_ Hnd]. simpl in Hnd. by apply NoDup_cons in Hnd as [_ ?]. }
    assert (Hni : Scene.cache sc = true ->
                  Surface.id s0 ∉ map (fun v => Surface.id v.1.1) vs).
    { intros Ec. destruct (Hok Ec) as [_ Hnd]. simpl in Hnd.
      by apply NoDup_cons in Hnd as [? _]. }
    assert (Hkeep : Scene.models (run sc P V vs ([], st')).2 !! r0
                    = Some (visited sc s0 lights0 rm0)).
    { rewrite <- Hobj. destruct (cache_cases sc) as [Ec|Ec].
      - destruct (Hcached Ec) as [Hslot Hc].
        eapply run_frame_cached; [done|done|exact Hslot|by apply Hni].
      - apply run_frame_uncached; [done|]. by eapply lookup_lt_Some. }
    rewrite run_prefix. simpl.
    apply elem_of_cons in Hin as [Heq|Hin].
    + injection Heq as -> -> ->. exists r0, rm0. split_and!; try done.
      * intros Ec. by apply Hun.
      * split.
        -- intros [Hr|Hr]%elem_of_app.
           ++ subst l'. destruct (Scene.visible sc s0 rm0); [done|by apply elem_of_nil in Hr].
           ++ exfalso. destruct (cache_cases sc) as [Ec|Ec].
              ** destruct (run_last_visit sc P V vs st' Hok' r0 Hr)
                   as (s' & lights' & t' & rm' & Hin' & _ & Hid' & _ & _ & Hlk).
                 rewrite Hkeep in Hlk. injection Hlk as Hlk.
                 apply (f_equal RenderModel.surface) in Hlk.
                 rewrite visited_surface in Hlk.
                 assert (RenderModel.surface (Scene.quantize sc (Scene.shade sc s' lights' rm'))
                         = RenderModel.surface rm') as Hq
                   by (unfold Scene.quantize; by destruct (Scene.fractionalPoints sc)).
                 rewrite Hq in Hlk.
                 apply (Hni Ec). apply list_elem_of_fmap.
                 exists (s', lights', t'). split; [simpl; congruence|done].
              ** apply run_fresh_uncached in Hr; [|done].
                 destruct (Hun Ec) as (_ & -> & _ & Hlen & _). lia.
        -- intros Ev. apply elem_of_app. left. subst l'. rewrite Ev.
           apply list_elem_of_here.
      * intros Ec. destruct (Hun Ec) as (_ & -> & _). done.
      * intros Ec. apply run_cache_mono; [intros _; by apply Hcached|by apply Hcached].
    + destruct (IH st' Hok' s lights t Hin)
        as (r & rm & Hc & Hi & Hu & Hlk & Hiff & Hfresh & Hslot).
      exists r, rm. split_and!; try done.
      * rewrite <- Hiff. split; [|intros ?; apply elem_of_app; by right].
        intros [Hr|Hr]%elem_of_app; [|done]. exfalso.
        subst l'. destruct (Scene.visible sc s0 rm0); [|by apply elem_of_nil in Hr].
        apply list_elem_of_singleton in Hr as ->.
        destruct (cache_cases sc) as [Ec|Ec].
        -- destruct (Hcached Ec) as [Hslot0 Hc0].
           pose proof (run_cache_ok sc P V vs [] st' (fun _ => Hc0) Ec) as [_ Hinj].
           assert (Surface.id s = Surface.id s0) as Hsame.
           { eapply Hinj; [by apply Hslot|].
             apply run_cache_mono; [by intros _|done]. }
           apply (Hni Ec). apply list_elem_of_fmap.
           exists (s, lights, t). split; [simpl; congruence|done].
        -- specialize (Hfresh Ec). apply lookup_lt_Some in Hobj. lia.
      * intros Ec. specialize (Hfresh Ec). destruct (Hun Ec) as (_ & _ & _ & Hlen & _). lia.
Qed.

(** ** Two frames of one scene *)

Lemma extends_trans a b c : extends a b -> extends b c -> extends a c.
Proof.
  intros [Hc1 Hm1] [Hc2 Hm2]. split.
  - intros i r Hi. by apply Hc2, Hc1.
  - intros r rm Hr. destruct (Hm1 _ _ Hr) as (rm1 & Hr1 & Hs1).
    destruct (Hm2 _ _ Hr1) as (rm2 & Hr2 & Hs2). exists rm2. split; [done|congruence].
Qed.

Lemma run_extends sc P V vs l st :
  (Scene.cache sc = true -> cache_ok st) -> extends st (run sc P V vs (l, st)).2.
Proof.
  intros Hok. split.
  - intros i r Hi. by apply run_cache_mono.
  - intros r rm Hr. by apply run_kept.
Qed.

Lemma geometryOf_computed rm rm' t P V :
  computed rm t P V -> computed rm' t P V ->
  RenderModel.surface rm = RenderModel.surface rm' ->
  geometryOf rm = geometryOf rm'.
Proof.
  intros (Ht & Hp & Hv & Hg) (Ht' & Hp' & Hv' & Hg') Hs. unfold geometryOf.
  rewrite <- Hs in Hg'. rewrite <- Hg in Hg'. injection Hg' as -> -> ->.
  by rewrite Ht, Hp, Hv, Ht', Hp', Hv', Hs.
Qed.

Lemma geometryOf_visited sc s lights rm rm' :
  geometryOf rm = geometryOf rm' ->
  Scene.visible sc s rm = Scene.visible sc s rm' /\
  geometryOf (visited sc s lights rm) = geometryOf (visited sc s lights rm').
Proof.
  unfold geometryOf. intros Hg. injection Hg as Hs Ht Hp Hv Htr Hpr Hin.
  assert (Scene.visible sc s rm = Scene.visible sc s rm') as Hvis.
  { unfold Scene.visible. by rewrite Hpr, Hin. }
  split; [done|]. unfold visited. rewrite <- Hvis.
  destruct (Scene.visible sc s rm); [|by rewrite Hs, Ht, Hp, Hv, Htr, Hpr, Hin].
  unfold Scene.quantize. destruct (Scene.fractionalPoints sc); simpl;
    by rewrite Hs, Ht, Hp, Hv, Htr, Hpr, Hin.
Qed.

Lemma renderSurface_hit sc s t P V st r :
  Scene.cache sc = true -> Scene._renderModelCache st !! Surface.id s = Some r ->
  resolve sc s t P V st
  = (r, Scene.setModels
          (alter (fun rm => RenderModel_update rm t P V) r (Scene.models st)) st).
Proof. intros Ec Hr. rewrite resolve_unfold. by rewrite Ec, Hr. Qed.

(** One visit of the second frame against the same visit of the first. *)
Lemma visit_sim sc P V s lights t l a b :
  Scene.cache sc = true -> cache_ok a -> cache_ok b ->
  extends (visit sc P V (l, a) (s, lights, t)).2 b ->
  exists r rma rmb d,
    (visit sc P V (l, a) (s, lights, t)).1 = l ++ d /\
    (visit sc P V (l, b) (s, lights, t)).1 = l ++ d /\ (forall x, x ∈ d -> x = r) /\
    Scene.models (visit sc P V (l, a) (s, lights, t)).2 !! r = Some rma /\
    Scene.models (visit sc P V (l, b) (s, lights, t)).2 !! r = Some rmb /\
    geometryOf rma = geometryOf rmb /\
    (forall r', r' <> r ->
       Scene.models (visit sc P V (l, a) (s, lights, t)).2 !! r' = Scene.models a !! r') /\
    (forall r', r' <> r ->
       Scene.models (visit sc P V (l, b) (s, lights, t)).2 !! r' = Scene.models b !! r') /\
    Scene._renderModelCache (visit sc P V (l, b) (s, lights, t)).2
    = Scene._renderModelCache b /\
    length (Scene.models (visit sc P V (l, b) (s, lights, t)).2) = length (Scene.models b) /\
    cache_ok (visit sc P V (l, a) (s, lights, t)).2 /\
    cache_ok (visit sc P V (l, b) (s, lights, t)).2.
Proof.
  intros Ec Hoka Hokb Hext.
  destruct (visit_stepped sc P V l a s lights t (fun _ => Hoka)) as (r & rm0 & Hs).
  destruct (visit_stepped sc P V l b s lights t (fun _ => Hokb)) as (rb & rm0b & Hsb').
  pose proof (st_cached _ _ _ _ _ _ _ _ _ _ _ Hsb' Ec) as [_ Hokb'].
  clear Hsb'.
  destruct (visitSurface_step sc lights t P V l b s (fun _ => Hokb))
    as (r' & rm1 & st1 & Er & _ & Hrm1 & Eb).
  destruct (visit sc P V (l, a) (s, lights, t)) as [la' a'] eqn:Ea.
  destruct Hs as [Hlist Hobj Hframe Hcomp Hid _ Hcached _ _ _ _ _ _]. simpl in *.
  destruct (Hcached Ec) as [Hslot Hoka'].
  destruct Hext as [Hec Hem].
  specialize (Hec _ _ Hslot). destruct (Hem _ _ Hobj) as (rmb0 & Hrb & Hsb).
  rewrite visited_surface in Hsb.
  rewrite (renderSurface_hit sc s t P V b r Ec Hec) in Er. injection Er as <- <-.
  simpl in Hrm1. rewrite list_lookup_alter_eq, Hrb in Hrm1. injection Hrm1 as <-.
  assert (geometryOf rm0 = geometryOf (RenderModel_update rmb0 t P V)) as Hg.
  { eapply geometryOf_computed; [done|apply RenderModel_update_computed|].
    by rewrite RenderModel_update_surface. }
  destruct (geometryOf_visited sc s lights _ _ Hg) as [Hvis Hgv].
  assert (Hlt : r < length (Scene.models b)) by (by eapply lookup_lt_Some).
  rewrite Eb in *. simpl in *. rewrite <- Hvis.
  exists r, (visited sc s lights rm0),
    (visited sc s lights (RenderModel_update rmb0 t P V)),
    (if Scene.visible sc s rm0 then [r] else []).
  rewrite list_lookup_insert_eq by (by rewrite length_alter).
  split_and!; try done.
  - subst la'. destruct (Scene.visible sc s rm0); [done|by rewrite app_nil_r].
  - destruct (Scene.visible sc s rm0); [done|by rewrite app_nil_r].
  - intros x Hx. destruct (Scene.visible sc s rm0);
      [by apply list_elem_of_singleton in Hx|by apply elem_of_nil in Hx].
  - intros r' Hne. by rewrite list_lookup_insert_ne, list_lookup_alter_ne.
  - by rewrite length_insert, length_alter.
Qed.

Lemma visit_extends sc P V l st v :
  (Scene.cache sc = true -> cache_ok st) -> extends st (visit sc P V (l, st) v).2.
Proof.
  intros Hok. apply (run_extends sc P V [v] l st Hok).
Qed.

(** The walk of the second frame against the walk of the first. *)
Lemma run_sim sc P V vs l a b :
  Scene.cache sc = true -> cache_ok a -> cache_ok b ->
  extends (run sc P V vs (l, a)).2 b ->
  (forall r, r ∈ l ->
     exists rma rmb, Scene.models a !! r = Some rma /\ Scene.models b !! r = Some rmb /\
                     geometryOf rma = geometryOf rmb) ->
  (run sc P V vs (l, a)).1 = (run sc P V vs (l, b)).1 /\
  (forall r, r ∈ (run sc P V vs (l, a)).1 ->
     exists rma rmb,
       Scene.models (run sc P V vs (l, a)).2 !! r = Some rma /\
       Scene.models (run sc P V vs (l, b)).2 !! r = Some rmb /\
       geometryOf rma = geometryOf rmb) /\
  Scene._renderModelCache (run sc P V vs (l, b)).2 = Scene._renderModelCache b /\
  length (Scene.models (run sc P V vs (l, b)).2) = length (Scene.models b).
Proof.
  intros Ec. revert l a b.
  induction vs as [|[[s lights] t] vs IH]; intros l a b Hoka Hokb Hext Hl;
    rewrite ?run_cons, ?run_nil.
  - done.
  - rewrite run_cons in Hext.
    pose proof (visit_extends sc P V l b (s, lights, t) (fun _ => Hokb)) as Hbb.
    destruct (visit_sim sc P V s lights t l a b Ec Hoka Hokb)
      as (r0 & rma & rmb & d & Hla & Hlb & Hd & Hra & Hrb & Hg & Hfa & Hfb & Hcb & Hlenb
          & Hoka' & Hokb').
    { pose proof (run_cache_ok sc P V [(s, lights, t)] l a (fun _ => Hoka) Ec) as Hoka1.
      rewrite run_cons, run_nil in Hoka1.
      destruct (visit sc P V (l, a) (s, lights, t)) as [la' a'] eqn:Ea. simpl in *.
      eapply extends_trans; [|exact Hext]. apply run_extends. by intros _. }
    destruct (visit sc P V (l, a) (s, lights, t)) as [la' a'] eqn:Ea.
    destruct (visit sc P V (l, b) (s, lights, t)) as [lb' b'] eqn:Eb.
    simpl in *. subst la' lb'.
    destruct (IH (l ++ d) a' b' Hoka' Hokb') as (H1 & H2 & H3 & H4).
    + by eapply extends_trans.
    + intros r Hr. destruct (decide (r = r0)) as [->|Hne].
      * by exists rma, rmb.
      * rewrite Hfa, Hfb by done. apply Hl.
        apply elem_of_app in Hr as [Hr|Hr]; [done|]. by apply Hd in Hr.
    + split_and!; try done; congruence.
Qed.

(** ** The frame as a whole *)
Lemma render_collect sc st :
  rendered sc st
  = (Array_sort (descending (Scene.depth (collected sc st).2)) (collected sc st).1,
     (collected sc st).2).
Proof. unfold rendered. by destruct (collected sc st). Qed.

Lemma render_elem sc st r :
  r ∈ (rendered sc st).1 <-> r ∈ (collected sc st).1.
Proof. rewrite render_collect. simpl. by rewrite Array_sort_perm. Qed.

Lemma collect_frame sc st :
  allocated sc (Scene.matrices st) ->
  collected sc st
  = run sc (frameProjection sc (Scene.matrices st)) (frameViewport sc (Scene.matrices st))
        (visits sc)
        ([], Scene.setMatrices (Scene.composeProjection sc (Scene.matrices st)).2 st).
Proof.
  intros Ha. rewrite collect_run.
  destruct (composeProjection_spec sc _ Ha) as (_ & _ & HP & Hold).
  destruct (Scene.composeProjection sc (Scene.matrices st)) as [p h]. simpl in *.
  rewrite HP. unfold frameViewport. rewrite Hold; [done|]. by destruct Ha as (_ & _ & _ & ?).
Qed.

Lemma collect_some_frame sc st :
  exists P V h, collected sc st = run sc P V (visits sc) ([], Scene.setMatrices h st).
Proof.
  rewrite collect_run. destruct (Scene.composeProjection sc (Scene.matrices st)) as [p h].
  by eexists _, _, _.
Qed.

Lemma collect_matrices sc st :
  Scene.matrices (collected sc st).2
  = (Scene.composeProjection sc (Scene.matrices st)).2.
Proof.
  rewrite collect_run. destruct (Scene.composeProjection sc (Scene.matrices st)) as [p h].
  by rewrite run_matrices.
Qed.

Lemma cache_ok_setMatrices h st : cache_ok st -> cache_ok (Scene.setMatrices h st).
Proof. done. Qed.

Lemma collect_cache_ok sc st :
  Scene.cache sc = true -> cache_ok st -> cache_ok (collected sc st).2.
Proof.
  intros Ec Hok. destruct (collect_some_frame sc st) as (P & V & h & ->).
  apply run_cache_ok; [|done]. by intros _.
Qed.

(** ** The visibility rule, the shading and the rounding *)

Lemma visible_inView sc s rm : Scene.visible sc s rm = true <-> inView sc s rm.
Proof.
  unfold Scene.visible, inView.
  rewrite andb_true_iff, !orb_true_iff, !negb_true_iff. tauto.
Qed.

Lemma visible_visited sc s s' lights rm :
  Scene.visible sc s (visited sc s' lights rm) = Scene.visible sc s rm.
Proof.
  unfold visited, Scene.quantize.
  by destruct (Scene.visible sc s' rm), (Scene.fractionalPoints sc).
Qed.

Lemma quantize_shade sc s lights rm :
  RenderModel.fill (Scene.quantize sc (Scene.shade sc s lights rm))
  = shadingOf sc lights (Surface.fillMaterial s) rm /\
  RenderModel.stroke (Scene.quantize sc (Scene.shade sc s lights rm))
  = shadingOf sc lights (Surface.strokeMaterial s) rm /\
  RenderModel.transformed (Scene.quantize sc (Scene.shade sc s lights rm))
  = RenderModel.transformed rm.
Proof. unfold Scene.quantize. by destruct (Scene.fractionalPoints sc). Qed.

Lemma quantize_integral sc s lights rm :
  Scene.fractionalPoints sc = false ->
  Forall Point.integral
    (RenderData.points (RenderModel.projected (Scene.quantize sc (Scene.shade sc s lights rm)))).
Proof.
  intros Ef. unfold Scene.quantize. rewrite Ef. simpl.
  apply Forall_forall. intros p Hp.
  apply list_elem_of_fmap in Hp as (p0 & -> & _). apply round_integral.
Qed.

Lemma visited_asProjected sc s lights rm0 t P V :
  Scene.fractionalPoints sc = true -> computed rm0 t P V ->
  RenderModel.projected (visited sc s lights rm0) = asProjected (visited sc s lights rm0).
Proof.
  intros Ef (Ht & Hp & Hv & Hg). unfold asProjected.
  destruct (visited_matrices sc s lights rm0) as (-> & -> & ->).
  rewrite visited_surface, Ht, Hp, Hv, <- Hg. simpl.
  unfold visited, Scene.quantize. rewrite Ef. by destruct (Scene.visible sc s rm0).
Qed.

(** ** The frame, visit by visit *)

Lemma collected_stepsOf sc st : collected sc st = stepsOf sc st (visits sc).
Proof.
  rewrite collect_run. unfold stepsOf.
  by destruct (Scene.composeProjection sc (Scene.matrices st)).
Qed.

Lemma run_app sc P V vs1 vs2 acc :
  run sc P V (vs1 ++ vs2) acc = run sc P V vs2 (run sc P V vs1 acc).
Proof. unfold run. apply fold_left_app. Qed.

Lemma extends_setMatrices h st : extends st (Scene.setMatrices h st).
Proof. split; simpl; [done|]. intros r rm Hr. by exists rm. Qed.

Lemma depth_geometryOf st st' r rm rm' :
  Scene.models st !! r = Some rm -> Scene.models st' !! r = Some rm' ->
  geometryOf rm = geometryOf rm' -> Scene.depth st r = Scene.depth st' r.
Proof.
  intros Hr Hr' Hg. unfold Scene.depth. rewrite Hr, Hr'.
  unfold geometryOf in Hg. by injection Hg as _ _ _ _ _ -> _.
Qed.


(** Two visits of one surface that both pass leave its slot twice in the
    array. *)
Lemma run_two_passes sc P V vs1 vs2 vs3 s lights1 t1 lights2 t2 st0 :
  Scene.cache sc = true -> cache_ok st0 ->
  passed sc P V (run sc P V vs1 ([], st0)).2 (s, lights1, t1) = true ->
  passed sc P V (run sc P V (vs1 ++ (s, lights1, t1) :: vs2) ([], st0)).2 (s, lights2, t2)
  = true ->
  exists r,
    2 <= count_occ Nat.eq_dec
           (run sc P V (vs1 ++ (s, lights1, t1) :: vs2 ++ (s, lights2, t2) :: vs3)
                ([], st0)).1 r /\
    Scene._renderModelCache
      (run sc P V (vs1 ++ (s, lights1, t1) :: vs2 ++ (s, lights2, t2) :: vs3) ([], st0)).2
      !! Surface.id s = Some r.
Proof.
  intros Ec Hok0 Hp1 Hp2.
  rewrite run_app, run_cons, run_app, run_cons.
  rewrite run_app, run_cons in Hp2.
  pose proof (run_cache_ok sc P V vs1 [] st0 (fun _ => Hok0) Ec) as HokA.
  destruct (run sc P V vs1 ([], st0)) as [lA sA]. cbn [fst snd] in *.
  destruct (visit_stepped sc P V lA sA s lights1 t1 (fun _ => HokA)) as (r & rm1 & Hs1).
  destruct Hs1 as [Hl1 _ _ _ _ _ Hc1 _ _ _ _ _ Hpass1].
  rewrite Hp1 in Hpass1. rewrite <- Hpass1 in Hl1.
  destruct (Hc1 Ec) as [Hslot1 Hok1].
  destruct (visit sc P V (lA, sA) (s, lights1, t1)) as [l1 s1]. cbn [fst snd] in *. subst l1.
  pose proof (run_cache_ok sc P V vs2 (lA ++ [r]) s1 (fun _ => Hok1) Ec) as HokB.
  pose proof (run_cache_mono sc P V vs2 (lA ++ [r]) s1 _ _ (fun _ => Hok1) Hslot1) as HslotB.
  rewrite (run_prefix sc P V vs2 (lA ++ [r]) s1) in *.
  destruct (run sc P V vs2 ([], s1)) as [dB sB]. cbn [fst snd] in *.
  destruct (visit_stepped sc P V ((lA ++ [r]) ++ dB) sB s lights2 t2 (fun _ => HokB))
    as (r' & rm2 & Hs2).
  destruct Hs2 as [Hl2 _ _ _ _ _ Hc2 Hmono2 _ _ _ _ Hpass2].
  rewrite Hp2 in Hpass2. rewrite <- Hpass2 in Hl2.
  destruct (Hc2 Ec) as [Hslot2 Hok2].
  assert (r' = r) as -> by (apply Hmono2 in HslotB; congruence).
  destruct (visit sc P V ((lA ++ [r]) ++ dB, sB) (s, lights2, t2)) as [l2 s2].
  cbn [fst snd] in *. subst l2.
  exists r. split.
  - rewrite (run_prefix sc P V vs3 _ s2). cbn [fst snd].
    rewrite !count_occ_app. simpl. destruct (Nat.eq_dec r r); [lia|done].
  - apply run_cache_mono; [by intros _|done].
Qed.

(** The slot of a surface holds the record as the last visit of the surface
    left it. *)
Lemma run_last_of sc P V before after s lights t st0 :
  Scene.cache sc = true -> cache_ok st0 ->
  Surface.id s ∉ map (fun v => Surface.id v.1.1) after ->
  exists r rm0,
    Scene._renderModelCache (run sc P V (before ++ (s, lights, t) :: after) ([], st0)).2
      !! Surface.id s = Some r /\
    Scene.models (run sc P V (before ++ (s, lights, t) :: after) ([], st0)).2 !! r
    = Some (visited sc s lights rm0) /\
    computed rm0 t P V.
Proof.
  intros Ec Hok0 Hni. rewrite run_app, run_cons.
  pose proof (run_cache_ok sc P V before [] st0 (fun _ => Hok0) Ec) as HokA.
  destruct (run sc P V before ([], st0)) as [lA sA]. cbn [fst snd] in *.
  destruct (visit_stepped sc P V lA sA s lights t (fun _ => HokA)) as (r & rm0 & Hs).
  destruct Hs as [_ Hobj _ Hcomp _ _ Hc _ _ _ _ _ _].
  destruct (Hc Ec) as [Hslot Hok1].
  destruct (visit sc P V (lA, sA) (s, lights, t)) as [l1 s1]. cbn [fst snd] in *.
  exists r, rm0. split_and!; [|by rewrite <- Hobj; eapply run_frame_cached|done].
  apply run_cache_mono; [by intros _|done].
Qed.
(** ** Calls that throw, calls that return *)

Lemma Object_get_cases {A : Type} (own : gmap string A) (key : string) :
  (exists a, own !! key = Some a /\ Object_get own key = Own a) \/
  (own !! key = None /\ key ∈ Object_prototype /\ Object_get own key = Inherited) \/
  (own !! key = None /\ (key ∉ Object_prototype) /\ Object_get own key = Undefined).
Proof.
  unfold Object_get. destruct (own !! key) as [a|]; [left; by exists a|right].
  case_bool_decide; [left|right]; done.
Qed.

Lemma inherits_dec sc st i : inherits sc st i \/ ~ inherits sc st i.
Proof.
  unfold inherits. destruct (cache_cases sc) as [Ec|Ec]; [|right; intros (? & _); congruence].
  destruct (Scene._renderModelCache st !! i) as [r|] eqn:E; [right; by intros (_ & ? & _)|].
  destruct (decide (i ∈ Object_prototype)) as [Hin|Hni]; [by left|right; by intros (_ & _ & ?)].
Qed.

(** [_renderSurface] throws exactly when its lookup finds an inherited
    member, and it leaves the store as it found it. *)
Lemma renderSurface_throws sc s t P V st :
  inherits sc st (Surface.id s) ->
  Scene._renderSurface sc s t P V st = (Throw TypeError, st).
Proof.
  intros (Ec & Hnone & Hin). unfold Scene._renderSurface. rewrite Ec. simpl.
  destruct (Object_get_cases (Scene._renderModelCache st) (Surface.id s))
    as [(a & Ha & _)|[(_ & _ & ->)|(_ & Hni & _)]]; [congruence|done|done].
Qed.

Lemma renderSurface_returns sc s t P V st :
  ~ inherits sc st (Surface.id s) ->
  Scene._renderSurface sc s t P V st
  = (Normal (resolve sc s t P V st).1, (resolve sc s t P V st).2).
Proof.
  intros Hni. unfold resolve.
  destruct (Scene._renderSurface sc s t P V st) as [[r|e] st1] eqn:E; [done|].
  exfalso. apply Hni. unfold Scene._renderSurface in E.
  destruct (cache_cases sc) as [Ec|Ec]; rewrite Ec in E; simpl in E.
  - destruct (Object_get_cases (Scene._renderModelCache st) (Surface.id s))
      as [(a & Ha & Hg)|[(Hn & Hin & Hg)|(Hn & Hn' & Hg)]]; rewrite Hg in E;
      [done|by split_and!|].
    unfold Scene.store_new in E. simpl in E. done.
  - done.
Qed.

Lemma renderSurface_normal sc s t P V st r st1 :
  Scene._renderSurface sc s t P V st = (Normal r, st1) ->
  resolve sc s t P V st = (r, st1) /\ ~ inherits sc st (Surface.id s).
Proof.
  intros E. split; [unfold resolve; by rewrite E|].
  intros Hin. rewrite (renderSurface_throws sc s t P V st Hin) in E. done.
Qed.

Lemma renderSurface_throw sc s t P V st e st1 :
  Scene._renderSurface sc s t P V st = (Throw e, st1) ->
  e = TypeError /\ st1 = st /\ inherits sc st (Surface.id s).
Proof.
  intros E. destruct (inherits_dec sc st (Surface.id s)) as [Hin|Hni].
  - rewrite (renderSurface_throws sc s t P V st Hin) in E. destruct e.
    by injection E as <-.
  - rewrite (renderSurface_returns sc s t P V st Hni) in E. done.
Qed.

Lemma visitOf_throws sc P V l st s lights t :
  inherits sc st (Surface.id s) ->
  visitOf sc P V (l, st) (s, lights, t) = (Throw TypeError, st).
Proof.
  intros Hin. unfold visitOf, Scene.visitSurface.
  by rewrite (renderSurface_throws sc s t P V st Hin).
Qed.

Lemma visitOf_returns sc P V l st s lights t :
  ~ inherits sc st (Surface.id s) ->
  visitOf sc P V (l, st) (s, lights, t)
  = (Normal (visit sc P V (l, st) (s, lights, t)).1, (visit sc P V (l, st) (s, lights, t)).2).
Proof.
  intros Hni. unfold visitOf, Scene.visitSurface, visit.
  rewrite (renderSurface_returns sc s t P V st Hni).
  destruct (resolve sc s t P V st) as [r st1]. simpl.
  by destruct (Scene.pushVisible sc s lights l r st1).
Qed.

Lemma passes_passed sc P V st v :
  passes sc P V st v = true ->
  passed sc P V st v = true /\ ~ inherits sc st (Surface.id v.1.1).
Proof.
  destruct v as [[s lights] t]. unfold passes, passed. simpl.
  destruct (Scene._renderSurface sc s t P V st) as [[r|e] st1] eqn:E; [|done].
  apply renderSurface_normal in E as [-> Hni]. done.
Qed.

Lemma passed_passes sc P V st v :
  ~ inherits sc st (Surface.id v.1.1) -> passes sc P V st v = passed sc P V st v.
Proof.
  destruct v as [[s lights] t]. simpl. intros Hni. unfold passes, passed.
  rewrite (renderSurface_returns sc s t P V st Hni).
  by destruct (resolve sc s t P V st).
Qed.

(** A visit that returns adds to the cache no id that names an inherited
    member: what later lookups inherit is what they inherited before. *)
Lemma visit_inherits sc P V l st s lights t i :
  ~ inherits sc st (Surface.id s) ->
  inherits sc (visit sc P V (l, st) (s, lights, t)).2 i <-> inherits sc st i.
Proof.
  intros Hni. pose proof (renderSurface_built sc s t P V st) as Hb.
  unfold visit. destruct (resolve sc s t P V st) as [r st1]. simpl in Hb.
  assert (Hc : Scene._renderModelCache (Scene.pushVisible sc s lights l r st1).2
               = Scene._renderModelCache st1).
  { unfold Scene.pushVisible. destruct (Scene.models st1 !! r) as [rm|]; [|done].
    by destruct (Scene.visible sc s rm). }
  unfold inherits. rewrite Hc. clear Hc.
  destruct Hb as [Ec|Ec Hmiss|r Ec Hhit]; simpl; [done| |done].
  destruct (decide (i = Surface.id s)) as [->|Hne].
  - rewrite lookup_insert_eq. split; [by intros (_ & ? & _)|].
    intros (_ & _ & Hin). exfalso. apply Hni. by split_and!.
  - by rewrite lookup_insert_ne.
Qed.

Lemma run_inherits sc P V vs l st i :
  (forall v, v ∈ vs -> ~ inherits sc st (Surface.id v.1.1)) ->
  inherits sc (run sc P V vs (l, st)).2 i <-> inherits sc st i.
Proof.
  revert l st. induction vs as [|[[s lights] t] vs IH]; intros l st Hvs;
    rewrite ?run_cons, ?run_nil; [done|].
  assert (Hs : ~ inherits sc st (Surface.id s))
    by (apply (Hvs (s, lights, t)), list_elem_of_here).
  pose proof (visit_inherits sc P V l st s lights t) as Hv.
  destruct (visit sc P V (l, st) (s, lights, t)) as [l' st'] eqn:E. simpl in Hv.
  rewrite IH; [by apply Hv|].
  intros v Hin. rewrite Hv by done. apply Hvs. by apply list_elem_of_further.
Qed.

Lemma walk_nil sc P V acc : walk sc P V [] acc = (Normal acc.1, acc.2).
Proof. done. Qed.

Lemma walk_cons sc P V v vs acc :
  walk sc P V (v :: vs) acc
  = match visitOf sc P V acc v with
    | (Normal l, st) => walk sc P V vs (l, st)
    | (Throw e, st) => (Throw e, st)
    end.
Proof. done. Qed.

#[local] Arguments walk : simpl never.
#[local] Arguments visitOf : simpl never.

(** A walk returns when no visit finds an inherited member, and then it is
    the fold of the visits; else it throws at the first visit that finds
    one, in the store the visits before it left. What a visit inherits can be
    read in the store the walk starts from. *)
Lemma walk_cases sc P V vs l st :
  ((forall v, v ∈ vs -> ~ inherits sc st (Surface.id v.1.1)) /\
   walk sc P V vs (l, st) = (Normal (run sc P V vs (l, st)).1, (run sc P V vs (l, st)).2)) \/
  (exists vs1 v vs2,
     vs = vs1 ++ v :: vs2 /\
     (forall u, u ∈ vs1 -> ~ inherits sc st (Surface.id u.1.1)) /\
     inherits sc st (Surface.id v.1.1) /\
     walk sc P V vs1 (l, st)
     = (Normal (run sc P V vs1 (l, st)).1, (run sc P V vs1 (l, st)).2) /\
     walk sc P V vs (l, st) = (Throw TypeError, (run sc P V vs1 (l, st)).2)).
Proof.
  revert l st. induction vs as [|[[s lights] t] vs IH]; intros l st.
  - left. split; [by intros ? ?%elem_of_nil|done].
  - destruct (inherits_dec sc st (Surface.id s)) as [Hin|Hni].
    + right. exists [], (s, lights, t), vs. split_and!; try done.
      * by intros ? ?%elem_of_nil.
      * rewrite walk_cons, (visitOf_throws sc P V l st s lights t Hin). by rewrite run_nil.
    + pose proof (visit_inherits sc P V l st s lights t) as Hv.
      rewrite walk_cons, (visitOf_returns sc P V l st s lights t Hni), run_cons.
      destruct (visit sc P V (l, st) (s, lights, t)) as [l' st'] eqn:E. simpl in *.
      destruct (IH l' st') as [[Hall Hw]|(vs1 & v & vs2 & -> & Hall & Hin & Hw1 & Hw)].
      * left. split; [|done]. intros v [->|Hv']%elem_of_cons; [done|].
        rewrite <- Hv by done. by apply Hall.
      * right. exists ((s, lights, t) :: vs1), v, vs2. split_and!; try done.
        -- intros u [->|Hu]%elem_of_cons; [done|]. rewrite <- Hv by done. by apply Hall.
        -- by rewrite <- Hv.
        -- rewrite walk_cons, (visitOf_returns sc P V l st s lights t Hni), run_cons, E.
           done.
        -- by rewrite run_cons, E.
Qed.

Lemma walk_normal sc P V vs l st l' st' :
  walk sc P V vs (l, st) = (Normal l', st') ->
  run sc P V vs (l, st) = (l', st') /\
  forall v, v ∈ vs -> ~ inherits sc st (Surface.id v.1.1).
Proof.
  intros E. destruct (walk_cases sc P V vs l st) as [[Hall Hw]|(vs1 & v & vs2 & _ & _ & _ & _ & Hw)];
    rewrite Hw in E; [|done].
  injection E as <- <-. split; [by destruct (run sc P V vs (l, st))|done].
Qed.

Lemma forOf_app {A B S : Type} (body : B * S -> A -> Completion B * S) xs ys acc :
  forOf body (xs ++ ys) acc
  = match forOf body xs acc with
    | (Normal b, s) => forOf body ys (b, s)
    | (Throw e, s) => (Throw e, s)
    end.
Proof.
  revert acc. induction xs as [|x xs IH]; intros acc; simpl; [by destruct acc|].
  destruct (body acc x) as [[b|e] s]; [apply IH|done].
Qed.

Lemma shapeVisitor_walk sc P V acc shape lights t :
  Scene.shapeVisitor sc P V acc (shape, lights, t)
  = walk sc P V (map (fun surface => (surface, lights, t)) (Shape.surfaces shape)) acc.
Proof.
  unfold Scene.shapeVisitor, walk. revert acc.
  induction (Shape.surfaces shape) as [|s ss IH]; intros acc; [done|]. simpl.
  change (visitOf sc P V acc (s, lights, t))
    with (Scene.visitSurface sc lights t P V acc s).
  destruct (Scene.visitSurface sc lights t P V acc s) as [[l|e] st]; [apply IH|done].
Qed.

Lemma shapeVisitors_walk sc P V calls acc :
  forOf (Scene.shapeVisitor sc P V) calls acc
  = walk sc P V
      (flat_map (fun '(shape, lights, transform) =>
                   map (fun surface => (surface, lights, transform)) (Shape.surfaces shape))
                calls) acc.
Proof.
  revert acc. induction calls as [|[[shape lights] t] calls IH]; intros acc; [done|].
  cbn [forOf flat_map]. rewrite (shapeVisitor_walk sc P V acc shape lights t).
  unfold walk in *. rewrite forOf_app.
  destruct (forOf (visitOf sc P V)
              (map (fun surface => (surface, lights, t)) (Shape.surfaces shape)) acc)
    as [[l|e] st]; [apply IH|done].
Qed.

Lemma collect_walked sc st : Scene.collect sc st = walked sc st (visits sc).
Proof.
  unfold Scene.collect, walked.
  destruct (Scene.composeProjection sc (Scene.matrices st)) as [p h].
  apply shapeVisitors_walk.
Qed.

Lemma walked_cases sc st vs :
  ((forall v, v ∈ vs -> ~ inherits sc st (Surface.id v.1.1)) /\
   walked sc st vs = (Normal (stepsOf sc st vs).1, (stepsOf sc st vs).2)) \/
  (exists vs1 v vs2,
     vs = vs1 ++ v :: vs2 /\
     (forall u, u ∈ vs1 -> ~ inherits sc st (Surface.id u.1.1)) /\
     inherits sc st (Surface.id v.1.1) /\
     walked sc st vs1 = (Normal (stepsOf sc st vs1).1, (stepsOf sc st vs1).2) /\
     walked sc st vs = (Throw TypeError, (stepsOf sc st vs1).2)).
Proof.
  unfold walked, stepsOf.
  exact (walk_cases sc _ _ vs []
           (Scene.setMatrices (Scene.composeProjection sc (Scene.matrices st)).2 st)).
Qed.

Lemma walked_normal sc st vs l st' :
  walked sc st vs = (Normal l, st') ->
  stepsOf sc st vs = (l, st') /\
  forall v, v ∈ vs -> ~ inherits sc st (Surface.id v.1.1).
Proof.
  unfold walked, stepsOf.
  exact (walk_normal sc _ _ vs []
           (Scene.setMatrices (Scene.composeProjection sc (Scene.matrices st)).2 st) l st').
Qed.

(** [render] returns when no visit finds an inherited member, and then it is
    the sort of what the visits collect; else it throws at the first visit
    that finds one. *)
Lemma render_cases sc st :
  ((forall i, i ∈ visitedIds sc -> ~ inherits sc st i) /\
   Scene.collect sc st = (Normal (collected sc st).1, (collected sc st).2) /\
   Scene.render sc st = (Normal (rendered sc st).1, (rendered sc st).2)) \/
  (exists vs1 v vs2,
     visits sc = vs1 ++ v :: vs2 /\
     (forall u, u ∈ vs1 -> ~ inherits sc st (Surface.id u.1.1)) /\
     inherits sc st (Surface.id v.1.1) /\
     Scene.collect sc st = (Throw TypeError, (stepsOf sc st vs1).2) /\
     Scene.render sc st = (Throw TypeError, (stepsOf sc st vs1).2)).
Proof.
  unfold Scene.render. rewrite collect_walked.
  destruct (walked_cases sc st (visits sc))
    as [[Hall ->]|(vs1 & v & vs2 & Hvs & Hall & Hin & _ & ->)].
  - left. split_and!; try done.
    intros i (v & -> & Hv)%list_elem_of_fmap. by apply Hall.
  - right. by exists vs1, v, vs2.
Qed.

Lemma render_normal sc st out st' :
  Scene.render sc st = (Normal out, st') ->
  rendered sc st = (out, st') /\
  Scene.collect sc st = (Normal (collected sc st).1, st') /\
  forall i, i ∈ visitedIds sc -> ~ inherits sc st i.
Proof.
  intros E. destruct (render_cases sc st) as [(Hall & Hc & Hr)|(vs1 & v & vs2 & _ & _ & _ & _ & Hr)];
    rewrite Hr in E; [|done].
  injection E as <- <-. split_and!; [done|by rewrite Hc|done].
Qed.

Lemma render_returned sc st out :
  (Scene.render sc st).1 = Normal out ->
  Scene.render sc st = (Normal out, (rendered sc st).2) /\
  out = (rendered sc st).1 /\ (Scene.render sc st).2 = (rendered sc st).2.
Proof.
  destruct (Scene.render sc st) as [c st'] eqn:E. cbn [fst snd]. intros ->.
  apply render_normal in E as (E & _). rewrite E. done.
Qed.

(** Whatever the outcome, the store [render] leaves is the store of the
    visits that returned. *)
Lemma render_store sc st :
  exists vs1 vs2, visits sc = vs1 ++ vs2 /\ (Scene.render sc st).2 = (stepsOf sc st vs1).2.
Proof.
  destruct (render_cases sc st) as [(_ & _ & ->)|(vs1 & v & vs2 & Hvs & _ & _ & _ & ->)].
  - exists (visits sc), []. by rewrite app_nil_r.
  - by exists vs1, (v :: vs2).
Qed.
(** One visit, whatever the cache holds: the builder's case, then at most one
    reference pushed and one record rewritten. *)
Lemma visit_built sc P V l st s lights t :
  exists r st1,
    built sc s t P V st r st1 /\
    Scene._renderModelCache (visit sc P V (l, st) (s, lights, t)).2
    = Scene._renderModelCache st1 /\
    length (Scene.models (visit sc P V (l, st) (s, lights, t)).2)
    = length (Scene.models st1) /\
    ((visit sc P V (l, st) (s, lights, t)).1 = l \/
     (visit sc P V (l, st) (s, lights, t)).1 = l ++ [r] /\
     r < length (Scene.models st1)) /\
    (forall r', r' <> r ->
       Scene.models (visit sc P V (l, st) (s, lights, t)).2 !! r'
       = Scene.models st1 !! r') /\
    (forall rm0, Scene.models st1 !! r = Some rm0 ->
       visit sc P V (l, st) (s, lights, t)
       = (if Scene.visible sc s rm0 then l ++ [r] else l,
          Scene.setModels (<[r := visited sc s lights rm0]> (Scene.models st1)) st1)).
Proof.
  pose proof (renderSurface_built sc s t P V st) as Hb.
  unfold visit, Scene.pushVisible.
  destruct (resolve sc s t P V st) as [r st1]. simpl in Hb.
  exists r, st1. split; [done|].
  destruct (Scene.models st1 !! r) as [rm|] eqn:Er.
  - assert (Hlt : r < length (Scene.models st1)) by (by eapply lookup_lt_Some).
    destruct (Scene.visible sc s rm) eqn:Ev; simpl.
    + split_and!; try done.
      * by rewrite length_insert.
      * by right.
      * intros r' Hne. by rewrite list_lookup_insert_ne.
      * intros rm0 [= <-]. unfold visited. by rewrite Ev.
    + split_and!; try done.
      * by left.
      * intros rm0 [= <-]. unfold visited. rewrite Ev.
        by rewrite list_insert_id, setModels_same.
  - split_and!; try done. by left.
Qed.

Lemma run_live sc P V vs l st :
  (forall r, r ∈ l -> r < length (Scene.models st)) ->
  (forall r, r ∈ (run sc P V vs (l, st)).1 ->
     r < length (Scene.models (run sc P V vs (l, st)).2)) /\
  length (run sc P V vs (l, st)).1 <= length l + length vs /\
  length (Scene.models st) <= length (Scene.models (run sc P V vs (l, st)).2).
Proof.
  revert l st. induction vs as [|[[s lights] t] vs IH]; intros l st Hl;
    rewrite ?run_cons, ?run_nil.
  - simpl. split_and!; [done|lia|done].
  - destruct (visit_built sc P V l st s lights t)
      as (r & st1 & Hb & _ & Hlen & Hlist & _).
    apply built_length in Hb.
    destruct (visit sc P V (l, st) (s, lights, t)) as [l' st'] eqn:E. simpl in *.
    destruct (IH l' st') as (H1 & H2 & H3).
    + intros r' Hr'. destruct Hlist as [->|[-> Hr]].
      * apply Hl in Hr'. lia.
      * apply elem_of_app in Hr' as [Hr'|Hr'].
        -- apply Hl in Hr'. lia.
        -- apply list_elem_of_singleton in Hr' as ->. lia.
    + split_and!; [done| |lia].
      destruct Hlist as [->|[-> _]]; [lia|]. rewrite length_app in H2. simpl in *. lia.
Qed.

Lemma run_cache_dom sc P V vs l st :
  Scene.cache sc = true ->
  dom (Scene._renderModelCache (run sc P V vs (l, st)).2)
  = dom (Scene._renderModelCache st)
    ∪ list_to_set (map (fun v => Surface.id v.1.1) vs) /\
  length (Scene.models (run sc P V vs (l, st)).2) + size (dom (Scene._renderModelCache st))
  = length (Scene.models st)
    + size (dom (Scene._renderModelCache (run sc P V vs (l, st)).2)) /\
  (forall i r, Scene._renderModelCache st !! i = Some r ->
     Scene._renderModelCache (run sc P V vs (l, st)).2 !! i = Some r).
Proof.
  intros Ec. revert l st. induction vs as [|[[s lights] t] vs IH]; intros l st;
    rewrite ?run_cons, ?run_nil.
  - simpl. split_and!; [by rewrite (right_id_L ∅ (∪))|done|done].
  - destruct (visit_built sc P V l st s lights t)
      as (r & st1 & Hb & Hc & Hlen & _).
    destruct (visit sc P V (l, st) (s, lights, t)) as [l' st'] eqn:E. simpl in *.
    destruct (IH l' st') as (Hdom & Hsize & Hmono).
    rewrite Hc in Hdom, Hsize. rewrite Hlen in Hsize. rewrite Hdom.
    pose proof (fun i r' => built_cache_mono _ _ _ _ _ _ _ _ i r' Hb) as Hm1.
    destruct Hb as [Ec'|_ Hmiss|r _ Hhit]; simpl in *; [congruence| |].
    + apply not_elem_of_dom in Hmiss. split_and!.
      * rewrite dom_insert_L. by rewrite (assoc_L (∪)), (comm_L (∪) _ {[_]}).
      * rewrite dom_insert_L, size_union, size_singleton in Hsize
          by (by apply disjoint_singleton_l).
        rewrite length_app in Hsize. simpl in Hsize. rewrite <- Hdom. lia.
      * intros i r' Hi. apply Hmono. rewrite Hc. by apply Hm1.
    + apply elem_of_dom_2 in Hhit. rewrite length_alter in Hsize. split_and!.
      * rewrite (assoc_L (∪)). f_equal. symmetry. rewrite (comm_L (∪)).
        apply subseteq_union_1_L. by apply singleton_subseteq_l.
      * rewrite <- Hdom. done.
      * intros i r' Hi. apply Hmono. by rewrite Hc.
Qed.

Lemma run_above sc P V vs l st n :
  cache_above n st -> (forall r, r ∈ l -> n <= r) ->
  (forall r, r ∈ (run sc P V vs (l, st)).1 -> n <= r) /\
  (forall r, r < n ->
     Scene.models (run sc P V vs (l, st)).2 !! r = Scene.models st !! r) /\
  cache_above n (run sc P V vs (l, st)).2.
Proof.
  revert l st. induction vs as [|[[s lights] t] vs IH]; intros l st [Hn Hca] Hl;
    rewrite ?run_cons, ?run_nil.
  - by split_and!.
  - destruct (visit_built sc P V l st s lights t)
      as (r & st1 & Hb & Hc & Hlen & Hlist & Hframe & _).
    pose proof (built_length _ _ _ _ _ _ _ _ Hb) as Hlen1.
    pose proof (fun r' => built_frame _ _ _ _ _ _ _ _ r' Hb) as Hf1.
    assert (Hr : n <= r /\ forall i r', Scene._renderModelCache st1 !! i = Some r' -> n <= r').
    { destruct Hb as [_|_ _|r _ Hhit]; simpl in *.
      - split; [done|]. apply Hca.
      - split; [done|]. intros i r'. destruct (decide (i = Surface.id s)) as [->|Hne].
        + rewrite lookup_insert_eq. by intros [= <-].
        + rewrite lookup_insert_ne by done. apply Hca.
      - split; [by eapply Hca|]. apply Hca. }
    destruct Hr as [Hr Hca1].
    destruct (visit sc P V (l, st) (s, lights, t)) as [l' st'] eqn:E. simpl in *.
    destruct (IH l' st') as (H1 & H2 & H3).
    + split; [lia|]. by rewrite Hc.
    + intros r' Hr'. destruct Hlist as [->|[-> _]]; [by apply Hl|].
      apply elem_of_app in Hr' as [Hr'|Hr']; [by apply Hl|].
      by apply list_elem_of_singleton in Hr' as ->.
    + split_and!; [done| |done].
      intros r' Hr'. rewrite H2 by done. rewrite Hframe by lia. apply Hf1. lia.
Qed.

Lemma run_pushed_slots sc P V vs st r :
  Scene.cache sc = true -> cache_ok st ->
  r ∈ (run sc P V vs ([], st)).1 ->
  exists v, v ∈ vs /\
            Scene._renderModelCache (run sc P V vs ([], st)).2 !! Surface.id v.1.1 = Some r.
Proof.
  intros Ec. revert st. induction vs as [|[[s lights] t] vs IH]; intros st Hok;
    rewrite ?run_cons, ?run_nil.
  - simpl. by intros ?%elem_of_nil.
  - destruct (visit_stepped sc P V [] st s lights t (fun _ => Hok)) as (r0 & rm0 & Hs).
    destruct (visit sc P V ([], st) (s, lights, t)) as [l' st'] eqn:E.
    destruct Hs as [Hlist _ _ _ _ _ Hcached _ _ _ _ _ _]. simpl in *.
    destruct (Hcached Ec) as [Hslot Hok'].
    rewrite run_prefix. simpl. intros [Hr|Hr]%elem_of_app.
    + subst l'. destruct (Scene.visible sc s rm0); [|by apply elem_of_nil in Hr].
      apply list_elem_of_singleton in Hr as ->.
      exists (s, lights, t). split; [apply list_elem_of_here|].
      apply run_cache_mono; [by intros _|done].
    + destruct (IH st' Hok' Hr) as (v & Hv & Hc).
      exists v. split; [by apply list_elem_of_further|done].
Qed.

(** With the cache on, every surface visited has a slot when the visits
    have returned. *)
Lemma run_slots sc P V vs l st v :
  Scene.cache sc = true -> v ∈ vs ->
  is_Some (Scene._renderModelCache (run sc P V vs (l, st)).2 !! Surface.id v.1.1).
Proof.
  intros Ec Hv. destruct (run_cache_dom sc P V vs l st Ec) as (Hdom & _).
  apply elem_of_dom. rewrite Hdom. apply elem_of_union. right.
  apply elem_of_list_to_set, list_elem_of_fmap. by exists v.
Qed.

(** The last element of a list with a given key. *)
Lemma last_occurrence {A : Type} (f : A -> string) (vs : list A) (i : string) :
  i ∈ map f vs ->
  exists before v after, vs = before ++ v :: after /\ f v = i /\ (i ∉ map f after).
Proof.
  induction vs as [|x vs IH]; simpl; [by intros ?%elem_of_nil|].
  intros Hin. destruct (decide (i ∈ map f vs)) as [Hlater|Hnot].
  - destruct (IH Hlater) as (before & v & after & -> & Hv & Hni).
    by exists (x :: before), v, after.
  - apply elem_of_cons in Hin as [->|Hin]; [|done].
    by exists [], x, vs.
Qed.

(** A visit that passes leaves its slot in the array, whatever comes after. *)
Lemma run_passed_pushed sc P V before v after st0 :
  Scene.cache sc = true -> cache_ok st0 ->
  passed sc P V (run sc P V before ([], st0)).2 v = true ->
  exists r,
    r ∈ (run sc P V (before ++ v :: after) ([], st0)).1 /\
    Scene._renderModelCache (run sc P V (before ++ v :: after) ([], st0)).2
      !! Surface.id v.1.1 = Some r.
Proof.
  intros Ec Hok0 Hp. destruct v as [[s lights] t]. rewrite run_app, run_cons.
  pose proof (run_cache_ok sc P V before [] st0 (fun _ => Hok0) Ec) as HokA.
  destruct (run sc P V before ([], st0)) as [lA sA]. cbn [fst snd] in *.
  destruct (visit_stepped sc P V lA sA s lights t (fun _ => HokA)) as (r & rm1 & Hs1).
  destruct Hs1 as [Hl1 _ _ _ _ _ Hc1 _ _ _ _ _ Hpass1].
  rewrite Hp in Hpass1. rewrite <- Hpass1 in Hl1.
  destruct (Hc1 Ec) as [Hslot1 Hok1].
  destruct (visit sc P V (lA, sA) (s, lights, t)) as [l1 s1]. cbn [fst snd] in *. subst l1.
  exists r. split.
  - rewrite (run_prefix sc P V after _ s1). cbn [fst snd].
    apply elem_of_app. left. apply elem_of_app. right. apply list_elem_of_here.
  - apply run_cache_mono; [by intros _|done].
Qed.

(** The frame by its prefixes. *)
Lemma stepsOf_app sc st vs1 vs2 :
  stepsOf sc st (vs1 ++ vs2)
  = run sc (Matrix.at_ (Scene.composeProjection sc (Scene.matrices st)).2
                       (Scene.composeProjection sc (Scene.matrices st)).1)
        (Matrix.at_ (Scene.composeProjection sc (Scene.matrices st)).2
                    (IViewport.postscale (Scene.viewport sc)))
        vs2 (stepsOf sc st vs1).
Proof. unfold stepsOf. apply run_app. Qed.

Lemma stepsOf_some_frame sc st vs :
  exists P V h, stepsOf sc st vs = run sc P V vs ([], Scene.setMatrices h st).
Proof. unfold stepsOf. by eexists _, _, _. Qed.

Lemma stepsOf_matrices sc st vs :
  Scene.matrices (stepsOf sc st vs).2 = (Scene.composeProjection sc (Scene.matrices st)).2.
Proof. unfold stepsOf. by rewrite run_matrices. Qed.

(** A visit that passes the test: the reference [_renderSurface] returns,
    the record behind it, and what the visit makes of both. *)
Lemma visit_passes sc P V l st0 s lights t :
  (Scene.cache sc = true -> cache_ok st0) ->
  passes sc P V st0 (s, lights, t) = true ->
  exists r rm0,
    (Scene._renderSurface sc s t P V st0).1 = Normal r /\
    Scene.models (Scene._renderSurface sc s t P V st0).2 !! r = Some rm0 /\
    computed rm0 t P V /\
    (Scene.visitSurface sc lights t P V (l, st0) s).1 = Normal (l ++ [r]) /\
    Scene.models (Scene.visitSurface sc lights t P V (l, st0) s).2 !! r
    = Some (Scene.quantize sc (Scene.shade sc s lights rm0)).
Proof.
  intros Hok Hp. apply passes_passed in Hp as [Hp Hni]. simpl in Hni.
  pose proof (visitOf_returns sc P V l st0 s lights t Hni) as Hv.
  unfold visitOf in Hv. rewrite Hv. clear Hv.
  rewrite (renderSurface_returns sc s t P V st0 Hni). cbn [fst snd].
  destruct (visitSurface_step sc lights t P V l st0 s Hok)
    as (r & rm0 & st1 & Er & Hb & Hrm0 & Ev).
  destruct (built_resolved _ _ _ _ _ _ _ _ Hb Hok) as (rm0' & Hrm0' & Hc & _).
  assert (rm0' = rm0) as -> by congruence.
  assert (Hvis : Scene.visible sc s rm0 = true).
  { unfold passed in Hp. by rewrite Er, Hrm0 in Hp. }
  rewrite Ev, Er. cbn [fst snd]. rewrite Hvis. unfold visited. rewrite Hvis.
  exists r, rm0. split_and!; try done.
  apply list_lookup_insert_eq. by eapply lookup_lt_Some.
Qed.

Lemma passesAfter_passed sc st vs v :
  passesAfter sc st vs v = true ->
  walked sc st vs = (Normal (stepsOf sc st vs).1, (stepsOf sc st vs).2) /\
  passed sc (Matrix.at_ (Scene.composeProjection sc (Scene.matrices st)).2
                        (Scene.composeProjection sc (Scene.matrices st)).1)
         (Matrix.at_ (Scene.composeProjection sc (Scene.matrices st)).2
                     (IViewport.postscale (Scene.viewport sc)))
         (stepsOf sc st vs).2 v = true.
Proof.
  unfold passesAfter. destruct (walked sc st vs) as [[l1|e] st1] eqn:Ew; [|done].
  apply walked_normal in Ew as [-> _]. cbn [fst snd]. intros Hp. split; [done|].
  by apply passes_passed in Hp as [Hp _].
Qed.
End Pipeline.

(** * The claims *)
Section Claims.
Context `{Collaborators}.

#[local] Arguments visit : simpl never.
#[local] Arguments run : simpl never.
#[local] Arguments passed : simpl never.
#[local] Arguments passes : simpl never.
#[local] Arguments walk : simpl never.
#[local] Arguments visitOf : simpl never.
#[local] Arguments Scene.composeProjection : simpl never.

Lemma barycenterZ_depth st r :
  is_Some (Scene.models st !! r) -> barycenterZ st r = Some (Scene.depth st r).
Proof. unfold barycenterZ, Scene.depth. by intros [rm ->]. Qed.

Lemma atDepth_depth st k l :
  (forall r, r ∈ l -> is_Some (Scene.models st !! r)) ->
  atDepth st k l = at_depth (Scene.depth st) k l.
Proof.
  unfold atDepth, at_depth. induction l as [|r l IH]; intros Hl; [done|].
  cbn [List.filter]. rewrite IH by (intros; apply Hl; by apply list_elem_of_further).
  by rewrite barycenterZ_depth by (apply Hl, list_elem_of_here).
Qed.

Lemma rendered_live sc st r :
  r ∈ (collected sc st).1 -> is_Some (Scene.models (collected sc st).2 !! r).
Proof.
  destruct (collect_some_frame sc st) as (P & V & h & ->). intros Hr.
  destruct (run_live sc P V (visits sc) [] (Scene.setMatrices h st)) as (H1 & _).
  { by intros ? ?%elem_of_nil. }
  apply lookup_lt_is_Some. by apply H1.
Qed.

(** C1, amended. The array [render] returns is a permutation of the render
    models that survived the walk, and every entry is a record of the store.
    When the z of no entry's projected barycenter is NaN, the array is sorted
    farthest first: of two neighbours, the z of the projected barycenter of
    the earlier is greater than or equal to that of the later; and the sort
    is stable: the entries whose projected barycenter has one z keep the
    order the walk gave them. *)
Theorem render_sorted_farthest_first (sc : Scene.t) (st : Scene.store) (out : list loc) :
  (Scene.render sc st).1 = Normal out ->
  (forall r, r ∈ out -> is_Some (barycenterZ (Scene.render sc st).2 r)) /\
  exists survivors,
    Scene.collect sc st = (Normal survivors, (Scene.render sc st).2) /\
    out ≡ₚ survivors /\
    ((forall r, r ∈ out -> barycenterZ (Scene.render sc st).2 r <> Some Number.NaN) ->
     Sorted (deeper (Scene.render sc st).2) out /\
     forall k, atDepth (Scene.render sc st).2 k out
               = atDepth (Scene.render sc st).2 k survivors).
Proof.
  intros Hout. destruct (render_returned sc st out Hout) as (E & -> & Est).
  apply render_normal in E as (_ & Ec & _). rewrite Est in *. clear Est Hout.
  pose proof (rendered_live sc st) as Hlive.
  rewrite render_collect in *. cbn [fst snd] in *.
  set (l := (collected sc st).1) in *. set (st' := (collected sc st).2) in *.
  assert (Hsorted : forall r, r ∈ Array_sort (descending (Scene.depth st')) l ->
                              is_Some (Scene.models st' !! r)).
  { intros r Hr. apply Hlive. by rewrite Array_sort_perm in Hr. }
  split.
  - intros r Hr. rewrite barycenterZ_depth by (by apply Hsorted). by eexists.
  - exists l. split_and!; [done|apply Array_sort_perm|]. intros Hnan. split.
    + eapply Sorted_among; [|apply Array_sort_sorted].
      * intros a b Ha Hb Hab. exists (Scene.depth st' a), (Scene.depth st' b).
        split_and!; [by apply barycenterZ_depth, Hsorted..|exact Hab].
      * apply Forall_forall. intros r Hr Hz.
        assert (Hr' : r ∈ Array_sort (descending (Scene.depth st')) l)
          by (by rewrite Array_sort_perm).
        apply (Hnan r Hr'). rewrite barycenterZ_depth by (by apply Hsorted). by rewrite Hz.
    + intros k. rewrite !atDepth_depth by done. apply Array_sort_stable.
Qed.



(** C9. Composing the projection of a frame mutates neither the camera's
    matrix nor its projection nor the viewport's prescale or postscale: the
    products are written into a copy, a Matrix object that did not exist
    before the call, and when [render] returns, or throws, every Matrix
    object that existed before it holds the entries it held. *)
Theorem render_keeps_camera_and_viewport (sc : Scene.t) (st : Scene.store) :
  allocated sc (Scene.matrices st) ->
  let h := Scene.matrices st in
  let h' := Scene.matrices (Scene.render sc st).2 in
  (Scene.composeProjection sc h).1 = Matrix.next h /\
  (forall r, r < Matrix.next h -> Matrix.at_ h' r = Matrix.at_ h r) /\
  Matrix.at_ h' (Camera.m (Scene.camera sc)) = Matrix.at_ h (Camera.m (Scene.camera sc)) /\
  Matrix.at_ h' (Camera.projection (Scene.camera sc))
  = Matrix.at_ h (Camera.projection (Scene.camera sc)) /\
  Matrix.at_ h' (IViewport.prescale (Scene.viewport sc))
  = Matrix.at_ h (IViewport.prescale (Scene.viewport sc)) /\
  Matrix.at_ h' (IViewport.postscale (Scene.viewport sc))
  = Matrix.at_ h (IViewport.postscale (Scene.viewport sc)).
Proof.
  intros Ha. cbv zeta.
  destruct (render_store sc st) as (vs1 & vs2 & _ & ->). rewrite stepsOf_matrices.
  destruct (composeProjection_spec sc _ Ha) as (Hp & _ & _ & Hold).
  destruct Ha as (? & ? & ? & ?). split_and!; try done; by apply Hold.
Qed.

(** C2, amended. A visit appends the record it resolved to the array exactly
    when that record is in the frustum and culling is off for the scene, or
    off for the surface, or the projected normal's z is negative. When no
    record is resolved twice in the frame (the cache is off, or no surface id
    is visited twice), this is also how [render] returns: the record of every
    visit is in the returned array exactly when it satisfies the rule, and no
    entry of the array has its frustum flag false. *)
Theorem render_visibility_rule (sc : Scene.t) (st : Scene.store) :
  (forall lights t P V l st0 s r rm,
     (Scene._renderSurface sc s t P V st0).1 = Normal r ->
     Scene.models (Scene._renderSurface sc s t P V st0).2 !! r = Some rm ->
     (inView sc s rm ->
      (Scene.visitSurface sc lights t P V (l, st0) s).1 = Normal (l ++ [r])) /\
     (~ inView sc s rm -> (Scene.visitSurface sc lights t P V (l, st0) s).1 = Normal l)) /\
  (forall out, (Scene.render sc st).1 = Normal out -> visited_once sc st ->
   (forall s lights t, (s, lights, t) ∈ visits sc ->
      exists r rm, Scene.models (Scene.render sc st).2 !! r = Some rm /\
                   Surface.id (RenderModel.surface rm) = Surface.id s /\
                   RenderModel.transform rm = t /\
                   (r ∈ out <-> inView sc s rm)) /\
   (forall r, r ∈ out ->
      exists rm, Scene.models (Scene.render sc st).2 !! r = Some rm /\
                 RenderModel.inFrustrum rm = true)).
Proof.
  split.
  - intros lights t P V l st0 s r rm Hr Hrm. unfold Scene.visitSurface.
    destruct (Scene._renderSurface sc s t P V st0) as [[r'|e] st1]; [|done].
    cbn [fst snd] in *. injection Hr as ->. unfold Scene.pushVisible. rewrite Hrm.
    rewrite <- visible_inView. destruct (Scene.visible sc s rm); split; done.
  - intros out Hout Honce.
    destruct (render_returned sc st out Hout) as (_ & -> & ->).
    rewrite render_collect. cbn [fst snd].
    pose proof (render_elem sc st) as Hel. rewrite render_collect in Hel. cbn [fst snd] in Hel.
    destruct (collect_some_frame sc st) as (P & V & h & Ecol). rewrite Ecol in *.
    assert (Scene.cache sc = true ->
            cache_ok (Scene.setMatrices h st) /\
            NoDup (map (fun v => Surface.id v.1.1) (visits sc))) as Hok
      by (intros Ec; by apply Honce).
    split.
    + intros s lights t Hin.
      destruct (run_each_visit sc P V _ _ Hok s lights t Hin)
        as (r & rm0 & Hc & Hid & _ & Hlk & Hiff & _).
      exists r, (visited sc s lights rm0). split_and!; try done.
      * by rewrite visited_surface.
      * destruct (visited_matrices sc s lights rm0) as (-> & _). by destruct Hc.
      * by rewrite Hel, Hiff, <- visible_inView, visible_visited.
    + intros r Hr. apply Hel in Hr.
      destruct (run_last_visit sc P V _ _ Hok r Hr)
        as (s & lights & t & rm0 & _ & _ & _ & _ & Hvis & Hlk).
      eexists. split; [exact Hlk|].
      apply visible_inView in Hvis as [Hin _].
      unfold Scene.quantize. by destruct (Scene.fractionalPoints sc).
Qed.

(** C6, amended. With fractionalPoints false, a visit that passes the test
    rounds the projected points of its record in place: afterwards they are
    the points the projection gave, each rounded, so that every finite
    coordinate is an integer, while fill and stroke are the shading of the
    transformed geometry, which is never rounded. When no record is resolved
    twice in the frame, every projected point of every entry of the returned
    array is so rounded. With fractionalPoints true the projected geometry of
    every entry is exactly what the projection gave. *)
Theorem render_point_quantizer (sc : Scene.t) (st : Scene.store) :
  (Scene.fractionalPoints sc = false ->
   (forall P V lights t l st0 s,
      (Scene.cache sc = true -> cache_ok st0) ->
      passes sc P V st0 (s, lights, t) = true ->
      exists r rm0 rm,
        (Scene._renderSurface sc s t P V st0).1 = Normal r /\
        Scene.models (Scene._renderSurface sc s t P V st0).2 !! r = Some rm0 /\
        Scene.models (Scene.visitSurface sc lights t P V (l, st0) s).2 !! r = Some rm /\
        RenderModel.projected rm0 = (geometry (RenderModel.surface rm0) t P V).1.2 /\
        RenderData.points (RenderModel.projected rm)
        = map Point.round (RenderData.points (RenderModel.projected rm0)) /\
        Forall Point.integral (RenderData.points (RenderModel.projected rm)) /\
        RenderModel.transformed rm = (geometry (RenderModel.surface rm0) t P V).1.1 /\
        RenderModel.fill rm = shadingOf sc lights (Surface.fillMaterial s) rm0 /\
        RenderModel.stroke rm = shadingOf sc lights (Surface.strokeMaterial s) rm0) /\
   (forall out, (Scene.render sc st).1 = Normal out -> visited_once sc st ->
    forall r, r ∈ out ->
    exists rm, Scene.models (Scene.render sc st).2 !! r = Some rm /\
               Forall Point.integral (RenderData.points (RenderModel.projected rm)))) /\
  (Scene.fractionalPoints sc = true ->
   (Scene.cache sc = true -> cache_ok st) ->
   forall out, (Scene.render sc st).1 = Normal out ->
   forall r, r ∈ out ->
   exists rm, Scene.models (Scene.render sc st).2 !! r = Some rm /\
              RenderModel.projected rm = asProjected rm).
Proof.
  split.
  - intros Ef. split.
    + intros P V lights t l st0 s Hok Hp.
      destruct (visit_passes sc P V l st0 s lights t Hok Hp)
        as (r & rm0 & Hr & Hrm0 & (_ & _ & _ & Hg) & _ & Hrm).
      exists r, rm0, (Scene.quantize sc (Scene.shade sc s lights rm0)).
      destruct (quantize_shade sc s lights rm0) as (Hf & Hk & Ht).
      split_and!; try done.
      * by rewrite <- Hg.
      * unfold Scene.quantize. by rewrite Ef.
      * by apply quantize_integral.
      * by rewrite Ht, <- Hg.
    + intros out Hout Honce r Hr.
      destruct (render_returned sc st out Hout) as (_ & -> & ->).
      apply render_elem in Hr. rewrite render_collect. cbn [fst snd].
      destruct (collect_some_frame sc st) as (P & V & h & Ecol). rewrite Ecol in *.
      destruct (run_last_visit sc P V (visits sc) (Scene.setMatrices h st)) with (r := r)
        as (s & lights & t & rm0 & _ & _ & _ & _ & _ & Hlk); [|done|].
      { intros Ec. by apply Honce. }
      eexists. split; [exact Hlk|]. by apply quantize_integral.
  - intros Ef Hok out Hout r Hr.
    destruct (render_returned sc st out Hout) as (_ & -> & ->).
    apply render_elem in Hr. rewrite render_collect. cbn [fst snd].
    destruct (collect_some_frame sc st) as (P & V & h & Ecol). rewrite Ecol in *.
    eapply (run_established sc P V (fun rm => RenderModel.projected rm = asProjected rm));
      [| |by intros ? ?%elem_of_nil|exact Hr].
    + intros s lights t rm0 Hc. by eapply visited_asProjected.
    + intros Ec. apply cache_ok_setMatrices. by apply Hok.
Qed.

(** C7. A record that passes the visibility test gets a fill result exactly
    when its surface has a fill material and a stroke result exactly when it
    has a stroke material; each is the material rendered with the lights of
    the visit, the scene's shader and the transformed geometry of the record,
    and a missing material gives a missing result. When no record is resolved
    twice in the frame, that is how every entry of the returned array stands. *)
Theorem render_shading (sc : Scene.t) (st : Scene.store) :
  (forall P V lights t l st0 s,
     (Scene.cache sc = true -> cache_ok st0) ->
     passes sc P V st0 (s, lights, t) = true ->
     exists r rm,
       (Scene._renderSurface sc s t P V st0).1 = Normal r /\
       Scene.models (Scene.visitSurface sc lights t P V (l, st0) s).2 !! r = Some rm /\
       RenderModel.fill rm = shadingOf sc lights (Surface.fillMaterial s) rm /\
       RenderModel.stroke rm = shadingOf sc lights (Surface.strokeMaterial s) rm /\
       RenderModel.transformed rm = (geometry (RenderModel.surface rm) t P V).1.1 /\
       (is_Some (RenderModel.fill rm) <-> is_Some (Surface.fillMaterial s)) /\
       (is_Some (RenderModel.stroke rm) <-> is_Some (Surface.strokeMaterial s))) /\
  (forall out, (Scene.render sc st).1 = Normal out -> visited_once sc st ->
   forall r, r ∈ out ->
   exists rm s lights t,
     (s, lights, t) ∈ visits sc /\
     Scene.models (Scene.render sc st).2 !! r = Some rm /\
     RenderModel.fill rm = shadingOf sc lights (Surface.fillMaterial s) rm /\
     RenderModel.stroke rm = shadingOf sc lights (Surface.strokeMaterial s) rm).
Proof.
  split.
  - intros P V lights t l st0 s Hok Hpass.
    destruct (visit_passes sc P V l st0 s lights t Hok Hpass)
      as (r & rm0 & Hr & _ & (_ & _ & _ & Hg) & _ & Hrm).
    exists r, (Scene.quantize sc (Scene.shade sc s lights rm0)).
    destruct (quantize_shade sc s lights rm0) as (Hf & Hk & Ht).
    assert (RenderModel.surface (Scene.quantize sc (Scene.shade sc s lights rm0))
            = RenderModel.surface rm0) as Hsurf
      by (unfold Scene.quantize; by destruct (Scene.fractionalPoints sc)).
    unfold shadingOf in *. rewrite Ht, Hf, Hk, Hsurf, <- Hg. simpl.
    split_and!; try done.
    + destruct (Surface.fillMaterial s); split; intros [? ?]; by eauto.
    + destruct (Surface.strokeMaterial s); split; intros [? ?]; by eauto.
  - intros out Hout Honce r Hr.
    destruct (render_returned sc st out Hout) as (_ & -> & ->).
    apply render_elem in Hr. rewrite render_collect. cbn [fst snd].
    destruct (collect_some_frame sc st) as (P & V & h & Ecol). rewrite Ecol in *.
    destruct (run_last_visit sc P V (visits sc) (Scene.setMatrices h st)) with (r := r)
      as (s & lights & t & rm0 & Hin & _ & _ & _ & _ & Hlk); [|done|].
    { intros Ec. by apply Honce. }
    exists (Scene.quantize sc (Scene.shade sc s lights rm0)), s, lights, t.
    destruct (quantize_shade sc s lights rm0) as (Hf & Hk & Ht).
    unfold shadingOf in *. rewrite Ht, Hf, Hk. done.
Qed.

(** C4. With the cache on, rendering an unchanged scene twice returns the
    same array both times: the second call returns, with the same references
    in the same order, each the cache slot of a surface visited. For every
    surface visited, its slot holds the same reference after both calls, the
    record behind it is in both arrays when a visit of the surface passed the
    test, and the geometry the second call recomputes for it (surface,
    matrices, transformed and projected data, frustum flag) equals that of the
    first. The second call adds no record and no slot. *)
Theorem render_twice_same_records (sc : Scene.t) (st : Scene.store) (out : list loc) :
  Scene.cache sc = true -> cache_ok st -> allocated sc (Scene.matrices st) ->
  (Scene.render sc st).1 = Normal out ->
  let first := (Scene.render sc st).2 in
  let second := (Scene.render sc first).2 in
  (Scene.render sc first).1 = Normal out /\
  Scene._renderModelCache second = Scene._renderModelCache first /\
  length (Scene.models second) = length (Scene.models first) /\
  (forall r, r ∈ out ->
     exists v, v ∈ visits sc /\
               Scene._renderModelCache first !! Surface.id v.1.1 = Some r) /\
  (forall before s lights t after,
     visits sc = before ++ (s, lights, t) :: after ->
     exists r rm1 rm2,
       Scene._renderModelCache first !! Surface.id s = Some r /\
       Scene._renderModelCache second !! Surface.id s = Some r /\
       Scene.models first !! r = Some rm1 /\ Scene.models second !! r = Some rm2 /\
       Surface.id (RenderModel.surface rm1) = Surface.id s /\
       geometryOf rm2 = geometryOf rm1 /\
       RenderModel.projected rm2 = RenderModel.projected rm1 /\
       (passesAfter sc st before (s, lights, t) = true -> r ∈ out)).
Proof.
  intros Ec Hok Ha Hout. cbv zeta.
  destruct (render_returned sc st out Hout) as (_ & -> & ->). clear Hout.
  destruct (composeProjection_spec sc _ Ha) as (_ & Hnext & HPa & Hold).
  assert (Ha' : allocated sc (Scene.matrices (collected sc st).2)).
  { rewrite collect_matrices. destruct Ha as (? & ? & ? & ?).
    unfold allocated. rewrite Hnext. split_and!; lia. }
  assert (HP : frameProjection sc (Scene.matrices (collected sc st).2)
               = frameProjection sc (Scene.matrices st)).
  { rewrite collect_matrices. destruct Ha as (? & ? & ? & ?).
    unfold frameProjection. by rewrite !Hold. }
  assert (HV : frameViewport sc (Scene.matrices (collected sc st).2)
               = frameViewport sc (Scene.matrices st)).
  { rewrite collect_matrices. destruct Ha as (? & ? & ? & ?).
    unfold frameViewport. by rewrite !Hold. }
  assert (HVa : Matrix.at_ (Scene.composeProjection sc (Scene.matrices st)).2
                  (IViewport.postscale (Scene.viewport sc))
                = frameViewport sc (Scene.matrices st)).
  { unfold frameViewport. apply Hold. by destruct Ha as (_ & _ & _ & ?). }
  pose proof (collect_cache_ok sc st Ec Hok) as Hok1.
  assert (Hsecond : Scene.render sc (rendered sc st).2
                    = (Normal (rendered sc (rendered sc st).2).1,
                       (rendered sc (rendered sc st).2).2)).
  { destruct (render_cases sc (rendered sc st).2)
      as [(_ & _ & Hr2)|(vs1 & v & vs2 & Hvs & _ & (_ & Hnone & _) & _)]; [done|].
    exfalso. rewrite render_collect in Hnone. cbn [fst snd] in Hnone.
    destruct (collect_some_frame sc st) as (P0 & V0 & h0 & E0). rewrite E0 in Hnone.
    destruct (run_slots sc P0 V0 (visits sc) [] (Scene.setMatrices h0 st) v Ec) as [r Hr].
    { rewrite Hvs. apply elem_of_app. right. apply list_elem_of_here. }
    congruence. }
  rewrite Hsecond. cbn [fst snd]. rewrite !render_collect. cbn [fst snd].
  rewrite (collect_frame sc (collected sc st).2 Ha'), HP, HV.
  pose proof (passesAfter_passed sc st) as Hpa. rewrite HPa, HVa in Hpa.
  pose proof (collected_stepsOf sc st) as Hsteps.
  assert (Hpre : forall vs, stepsOf sc st vs
                   = run sc (frameProjection sc (Scene.matrices st))
                         (frameViewport sc (Scene.matrices st)) vs
                         ([], Scene.setMatrices
                                (Scene.composeProjection sc (Scene.matrices st)).2 st)).
  { intros vs. unfold stepsOf. by rewrite HPa, HVa. }
  rewrite (collect_frame sc st Ha) in *.
  set (P := frameProjection sc (Scene.matrices st)) in *.
  set (V := frameViewport sc (Scene.matrices st)) in *.
  set (a := Scene.setMatrices (Scene.composeProjection sc (Scene.matrices st)).2 st) in *.
  set (F := run sc P V (visits sc) ([], a)) in *.
  set (b := Scene.setMatrices (Scene.composeProjection sc (Scene.matrices F.2)).2 F.2).
  assert (Hoka : cache_ok a) by (by apply cache_ok_setMatrices).
  assert (Hokb : cache_ok b) by (by apply cache_ok_setMatrices).
  destruct (run_sim sc P V (visits sc) [] a b Ec Hoka Hokb) as (Hl & Hg & Hc & Hn).
  { apply extends_setMatrices. }
  { by intros ? ?%elem_of_nil. }
  fold F in Hl, Hg. rewrite <- Hl. split_and!; try done.
  - f_equal. apply Array_sort_ext. intros r Hr.
    destruct (Hg r Hr) as (rma & rmb & Hra & Hrb & Hgeo).
    symmetry. by eapply depth_geometryOf.
  - intros r Hr. rewrite Array_sort_perm in Hr.
    by apply (run_pushed_slots sc P V (visits sc) a r Ec Hoka).
  - intros before s lights t after Hvs.
    assert (Hin : (s, lights, t) ∈ visits sc).
    { rewrite Hvs. apply elem_of_app. right. apply list_elem_of_here. }
    destruct (run_slots sc P V (visits sc) [] a (s, lights, t) Ec Hin) as [r Hr].
    fold F in Hr. cbn [fst snd] in Hr.
    destruct (last_occurrence (fun v => Surface.id v.1.1) (visits sc) (Surface.id s))
      as (b' & [[s' lights'] t'] & a' & Hvs' & Hid' & Hni').
    { apply list_elem_of_fmap. by exists (s, lights, t). }
    cbn [fst snd] in Hid'. rewrite <- Hid' in Hni'.
    destruct (run_last_of sc P V b' a' s' lights' t' a Ec Hoka Hni')
      as (r1 & rmA & Hs1 & Hm1 & Hc1).
    destruct (run_last_of sc P V b' a' s' lights' t' b Ec Hokb Hni')
      as (r2 & rmB & Hs2 & Hm2 & Hc2).
    rewrite <- Hvs' in Hs1, Hm1, Hs2, Hm2. fold F in Hs1, Hm1.
    rewrite Hc in Hs2. change (Scene._renderModelCache b) with (Scene._renderModelCache F.2) in Hs2.
    rewrite Hid' in Hs1, Hs2.
    assert (r1 = r) as -> by congruence. assert (r2 = r) as -> by congruence.
    destruct (run_kept sc P V (visits sc) [] b r (visited sc s' lights' rmA) (fun _ => Hokb))
      as (rm2 & Hrm2 & Hsurf); [exact Hm1|].
    rewrite Hm2 in Hrm2. injection Hrm2 as <-. rewrite !visited_surface in Hsurf.
    assert (Hgeo : geometryOf rmB = geometryOf rmA).
    { by eapply geometryOf_computed. }
    destruct (geometryOf_visited sc s' lights' _ _ Hgeo) as [_ Hgv].
    destruct Hok1 as [Hobj _]. destruct (Hobj _ _ Hr) as (rm1 & Hrm1 & Hid1).
    rewrite Hm1 in Hrm1. injection Hrm1 as <-.
    exists r, (visited sc s' lights' rmA), (visited sc s' lights' rmB).
    rewrite Hc. split_and!; try done.
    + unfold geometryOf in Hgv. by injection Hgv as _ _ _ _ _ -> _.
    + intros Hp. destruct (Hpa before (s, lights, t) Hp) as [_ Hp'].
      rewrite Hpre in Hp'.
      destruct (run_passed_pushed sc P V before (s, lights, t) after a Ec Hoka Hp')
        as (r' & Hr' & Hslot').
      rewrite <- Hvs in Hr', Hslot'. fold F in Hr', Hslot'. cbn [fst snd] in Hslot'.
      assert (r' = r) as -> by congruence.
      by rewrite Array_sort_perm.
Qed.


(** C10. With the cache on, when one surface is visited more than once in a
    frame and passes the visibility test on two of the visits, the returned
    array holds one reference at least twice, and the record behind it is as
    the last visit of the surface left it: its transform and its geometry are
    those of the last visit. *)
Theorem render_aliased_entries (sc : Scene.t) (st : Scene.store) (out : list loc)
    (vs1 vs2 vs3 before after : list (Surface.t * list LightRenderModel * Entries))
    (s : Surface.t) (lights1 lights2 lights : list LightRenderModel) (t1 t2 t : Entries) :
  Scene.cache sc = true -> cache_ok st ->
  (Scene.render sc st).1 = Normal out ->
  visits sc = vs1 ++ (s, lights1, t1) :: vs2 ++ (s, lights2, t2) :: vs3 ->
  passesAfter sc st vs1 (s, lights1, t1) = true ->
  passesAfter sc st (vs1 ++ (s, lights1, t1) :: vs2) (s, lights2, t2) = true ->
  visits sc = before ++ (s, lights, t) :: after ->
  Surface.id s ∉ map (fun v => Surface.id v.1.1) after ->
  let ph := Scene.composeProjection sc (Scene.matrices st) in
  exists r rm0,
    2 <= count_occ Nat.eq_dec out r /\
    Scene.models (Scene.render sc st).2 !! r = Some (visited sc s lights rm0) /\
    RenderModel.transform (visited sc s lights rm0) = t /\
    computed rm0 t (Matrix.at_ ph.2 ph.1)
             (Matrix.at_ ph.2 (IViewport.postscale (Scene.viewport sc))).
Proof.
  intros Ec Hok Hout Hvs Hp1 Hp2 Hlast Hni. cbv zeta.
  destruct (render_returned sc st out Hout) as (_ & -> & ->). clear Hout.
  apply passesAfter_passed in Hp1 as [_ Hp1]. apply passesAfter_passed in Hp2 as [_ Hp2].
  rewrite render_collect, collected_stepsOf. cbn [fst snd].
  unfold stepsOf in *.
  set (ph := Scene.composeProjection sc (Scene.matrices st)) in *.
  set (P := Matrix.at_ ph.2 ph.1) in *.
  set (V := Matrix.at_ ph.2 (IViewport.postscale (Scene.viewport sc))) in *.
  set (st0 := Scene.setMatrices ph.2 st) in *.
  assert (Hok0 : cache_ok st0) by (by apply cache_ok_setMatrices).
  destruct (run_two_passes sc P V vs1 vs2 vs3 s lights1 t1 lights2 t2 st0 Ec Hok0 Hp1 Hp2)
    as (r & Hcount & Hslot).
  destruct (run_last_of sc P V before after s lights t st0 Ec Hok0 Hni)
    as (r' & rm0 & Hslot' & Hobj & Hcomp).
  rewrite <- Hvs in Hcount, Hslot. rewrite <- Hlast in Hslot', Hobj.
  assert (r' = r) as -> by congruence.
  exists r, rm0. split_and!; try done.
  - by rewrite (proj1 (Permutation_count_occ Nat.eq_dec _ _) (Array_sort_perm _ _)).
  - destruct (visited_matrices sc s lights rm0) as (-> & _). by destruct Hcomp.
Qed.
End Claims.

(** * The claims on concrete worlds *)
Section Witnesses.
#[local] Existing Instance Translations.externals.
#[local] Existing Instance Translations.collaborators.

Lemma cache_ok_store0 : cache_ok Translations.store0.
Proof. split; simpl; intros *; by rewrite lookup_empty. Qed.

Lemma allocated_heap0 (sc : Scene.t) :
  Scene.camera sc = {| Camera.m := 0; Camera.projection := 1 |} ->
  Scene.viewport sc = {| IViewport.prescale := 2; IViewport.postscale := 3 |} ->
  allocated sc Translations.heap0.
Proof. intros Hc Hv. unfold allocated. rewrite Hc, Hv. simpl. lia. Qed.

Lemma visited_once_once (cache fractional : bool) :
  visited_once (Translations.once cache fractional) Translations.store0.
Proof.
  intros _. split; [exact cache_ok_store0|]. apply NoDup_singleton.
Qed.

(** C1: two surfaces at the depths 0 and 1/2; the deeper comes first. *)
Lemma render_sorted_farthest_first_witness :
  (Scene.render Scenes.layered Translations.store0).1 = Normal [1; 0] /\
  Sorted (deeper (Scene.render Scenes.layered Translations.store0).2) [1; 0].
Proof.
  assert (Hout : (Scene.render Scenes.layered Translations.store0).1 = Normal [1; 0])
    by (vm_compute; reflexivity).
  split; [exact Hout|].
  destruct (render_sorted_farthest_first Scenes.layered Translations.store0 [1; 0] Hout)
    as (_ & survivors & _ & _ & Hsorted).
  apply Hsorted. intros r Hr.
  apply elem_of_cons in Hr as [->|Hr]; [vm_compute; discriminate|].
  apply elem_of_cons in Hr as [->|Hr]; [vm_compute; discriminate|].
  by apply elem_of_nil in Hr.
Defined.

(** C1: a surface with no point has NaN for the z of its projected
    barycenter. The array returned holds it, and in no order of its two
    entries is the earlier at least as deep as the later. *)
Lemma render_returns_nan_depth :
  exists out,
    (Scene.render Scenes.degenerate Translations.store0).1 = Normal out /\
    (exists r, r ∈ out /\
       barycenterZ (Scene.render Scenes.degenerate Translations.store0).2 r
       = Some Number.NaN) /\
    forall l, l ≡ₚ out ->
              ~ Sorted (deeper (Scene.render Scenes.degenerate Translations.store0).2) l.
Proof.
  assert (Hz : barycenterZ (Scene.render Scenes.degenerate Translations.store0).2 1
               = Some Number.NaN) by (vm_compute; reflexivity).
  exists [0; 1]. split_and!.
  - vm_compute. reflexivity.
  - exists 1. split; [apply list_elem_of_further, list_elem_of_here|exact Hz].
  - intros l Hl Hs. symmetry in Hl.
    destruct (Permutation_length_2_inv Hl) as [El|El]; subst l;
      inversion Hs as [|? ? _ Hhd]; subst; inversion Hhd as [|? ? Hd]; subst;
      destruct Hd as (ze & zl & He & Hzl & Hle); rewrite Hz in *.
    + injection Hzl as <-. by destruct ze.
    + injection He as <-. by destruct zl.
Qed.

(** C2: the shape instantiated twice, the second time out of the frustum.
    The one record is in the returned array, its frustum flag false. *)
Lemma render_returns_record_out_of_frustum :
  let sc := Translations.twice 5 true false in
  exists out r rm,
    (Scene.render sc Translations.store0).1 = Normal out /\
    r ∈ out /\
    Scene.models (Scene.render sc Translations.store0).2 !! r = Some rm /\
    RenderModel.inFrustrum rm = false /\
    ~ inView sc Translations.triangle rm.
Proof.
  eexists [0], 0, _. split_and!.
  - vm_compute. reflexivity.
  - apply list_elem_of_here.
  - vm_compute. reflexivity.
  - reflexivity.
  - intros [Hf _]. vm_compute in Hf. discriminate.
Qed.

Lemma render_visibility_rule_witness :
  (Scene.render (Translations.once true false) Translations.store0).1 = Normal [0] /\
  visited_once (Translations.once true false) Translations.store0 /\
  (forall s lights t, (s, lights, t) ∈ visits (Translations.once true false) ->
     exists r rm,
       Scene.models (Scene.render (Translations.once true false) Translations.store0).2 !! r
       = Some rm /\
       Surface.id (RenderModel.surface rm) = Surface.id s /\
       RenderModel.transform rm = t /\
       (r ∈ [0] <-> inView (Translations.once true false) s rm)) /\
  forall r, r ∈ [0] ->
    exists rm,
      Scene.models (Scene.render (Translations.once true false) Translations.store0).2 !! r
      = Some rm /\
      RenderModel.inFrustrum rm = true.
Proof.
  assert (Hout : (Scene.render (Translations.once true false) Translations.store0).1
                 = Normal [0]) by (vm_compute; reflexivity).
  split; [exact Hout|]. split; [apply visited_once_once|].
  apply (proj2 (render_visibility_rule (Translations.once true false) Translations.store0)
           [0] Hout).
  apply visited_once_once.
Defined.



Lemma render_twice_same_records_witness :
  Scene.cache (Translations.twice (1 # 2) true false) = true /\
  cache_ok Translations.store0 /\
  allocated (Translations.twice (1 # 2) true false) (Scene.matrices Translations.store0) /\
  (Scene.render (Translations.twice (1 # 2) true false) Translations.store0).1
  = Normal [0; 0] /\
  (Scene.render (Translations.twice (1 # 2) true false)
     (Scene.render (Translations.twice (1 # 2) true false) Translations.store0).2).1
  = Normal [0; 0].
Proof.
  assert (Ha : allocated (Translations.twice (1 # 2) true false)
                 (Scene.matrices Translations.store0)) by (by apply allocated_heap0).
  assert (Hout : (Scene.render (Translations.twice (1 # 2) true false)
                    Translations.store0).1 = Normal [0; 0]) by (vm_compute; reflexivity).
  split_and!; [reflexivity|exact cache_ok_store0|exact Ha|exact Hout|].
  pose proof (render_twice_same_records (Translations.twice (1 # 2) true false)
                Translations.store0 [0; 0] eq_refl cache_ok_store0 Ha Hout) as Hb.
  cbv zeta in Hb. destruct Hb as (Hsame & _). exact Hsame.
Defined.

(** C6: the shape instantiated twice, the second time out of the frustum: the
    projected points of the returned record are those of the second visit,
    which did not pass and so did not round them. And a frame that visits
    every surface once, under a viewport that moves points to infinity: the
    rounded coordinate is infinite, and no integer. *)
Lemma render_returns_fractional_point :
  (let sc := Translations.twice 5 true false in
   Scene.fractionalPoints sc = false /\
   exists out r rm p,
     (Scene.render sc Translations.store0).1 = Normal out /\ r ∈ out /\
     Scene.models (Scene.render sc Translations.store0).2 !! r = Some rm /\
     p ∈ RenderData.points (RenderModel.projected rm) /\
     Number.finite (Point.y p) /\ ~ Number.is_integer (Point.y p)) /\
  (let sc := Scenes.pair true in
   Scene.fractionalPoints sc = false /\ visited_once sc Scenes.storeInfinity /\
   exists out r rm p,
     (Scene.render sc Scenes.storeInfinity).1 = Normal out /\ r ∈ out /\
     Scene.models (Scene.render sc Scenes.storeInfinity).2 !! r = Some rm /\
     p ∈ RenderData.points (RenderModel.projected rm) /\
     ~ Number.is_integer (Point.x p)).
Proof.
  split; cbv zeta.
  - split; [reflexivity|].
    eexists [0], 0, _, (Translations.at' 0 (1 # 2) 5). split_and!.
    + vm_compute. reflexivity.
    + apply list_elem_of_here.
    + vm_compute. reflexivity.
    + simpl. apply list_elem_of_further, list_elem_of_here.
    + exact I.
    + vm_compute. discriminate.
  - split; [reflexivity|]. split.
    + intros _. split; [split; simpl; intros *; by rewrite lookup_empty|].
      apply (bool_decide_unpack _). vm_compute. exact I.
    + eexists [1], 1, _,
        {| Point.x := Number.Infinity; Point.y := Number.zero; Point.z := Number.zero |}.
      split_and!.
      * vm_compute. reflexivity.
      * apply list_elem_of_here.
      * vm_compute. reflexivity.
      * simpl. apply list_elem_of_here.
      * simpl. tauto.
Qed.

Lemma render_point_quantizer_witness :
  Scene.fractionalPoints (Translations.once true false) = false /\
  (Scene.render (Translations.once true false) Translations.store0).1 = Normal [0] /\
  visited_once (Translations.once true false) Translations.store0 /\
  forall r, r ∈ [0] ->
    exists rm,
      Scene.models (Scene.render (Translations.once true false) Translations.store0).2 !! r
      = Some rm /\
      Forall Point.integral (RenderData.points (RenderModel.projected rm)).
Proof.
  assert (Hout : (Scene.render (Translations.once true false) Translations.store0).1
                 = Normal [0]) by (vm_compute; reflexivity).
  split_and!; [reflexivity|exact Hout|apply visited_once_once|].
  apply (proj2 (proj1 (render_point_quantizer (Translations.once true false)
                         Translations.store0) eq_refl) [0] Hout).
  apply visited_once_once.
Defined.

Lemma render_shading_witness :
  (passes (Translations.once true false) Translations.origin Translations.origin
          Translations.store0 (Translations.triangle, [], Translations.origin) = true /\
   exists r rm,
     (Scene._renderSurface (Translations.once true false) Translations.triangle
        Translations.origin Translations.origin Translations.origin
        Translations.store0).1 = Normal r /\
     Scene.models
       (Scene.visitSurface (Translations.once true false) [] Translations.origin
          Translations.origin Translations.origin ([], Translations.store0)
          Translations.triangle).2 !! r = Some rm /\
     RenderModel.fill rm = Some ("red", 0) /\
     RenderModel.stroke rm = None) /\
  (Scene.render (Translations.once true false) Translations.store0).1 = Normal [0] /\
  visited_once (Translations.once true false) Translations.store0 /\
  forall r, r ∈ [0] ->
    exists rm s lights t,
      (s, lights, t) ∈ visits (Translations.once true false) /\
      Scene.models (Scene.render (Translations.once true false) Translations.store0).2 !! r
      = Some rm /\
      RenderModel.fill rm
      = shadingOf (Translations.once true false) lights (Surface.fillMaterial s) rm /\
      RenderModel.stroke rm
      = shadingOf (Translations.once true false) lights (Surface.strokeMaterial s) rm.
Proof.
  assert (Hout : (Scene.render (Translations.once true false) Translations.store0).1
                 = Normal [0]) by (vm_compute; reflexivity).
  split_and!.
  - reflexivity.
  - destruct (proj1 (render_shading (Translations.once true false) Translations.store0)
                Translations.origin Translations.origin [] Translations.origin []
                Translations.store0 Translations.triangle)
      as (r & rm & Hr & Hrm & Hfill & Hstroke & _).
    + intros _. exact cache_ok_store0.
    + reflexivity.
    + exists r, rm. split; [exact Hr|]. split; [exact Hrm|].
      split; [exact Hfill|exact Hstroke].
  - exact Hout.
  - apply visited_once_once.
  - apply (proj2 (render_shading (Translations.once true false) Translations.store0)
             [0] Hout).
    apply visited_once_once.
Defined.


Lemma render_aliased_entries_witness :
  let sc := Translations.twice (1 # 2) true false in
  let first := (Translations.triangle, [] : list LightRenderModel, Translations.origin) in
  let second :=
    (Translations.triangle, [] : list LightRenderModel, Translations.at' 0 0 (1 # 2)) in
  Scene.cache sc = true /\ cache_ok Translations.store0 /\
  (Scene.render sc Translations.store0).1 = Normal [0; 0] /\
  visits sc = [] ++ first :: [] ++ second :: [] /\
  passesAfter sc Translations.store0 [] first = true /\
  passesAfter sc Translations.store0 ([] ++ first :: []) second = true /\
  visits sc = [first] ++ second :: [] /\
  exists r rm,
    2 <= count_occ Nat.eq_dec [0; 0] r /\
    Scene.models (Scene.render sc Translations.store0).2 !! r = Some rm /\
    RenderModel.transform rm = Translations.at' 0 0 (1 # 2).
Proof.
  cbv zeta.
  assert (Hout : (Scene.render (Translations.twice (1 # 2) true false)
                    Translations.store0).1 = Normal [0; 0]) by (vm_compute; reflexivity).
  split_and!; try reflexivity.
  - exact cache_ok_store0.
  - destruct (render_aliased_entries (Translations.twice (1 # 2) true false)
                Translations.store0 [0; 0] [] [] []
                [(Translations.triangle, [], Translations.origin)] []
                Translations.triangle [] [] [] Translations.origin
                (Translations.at' 0 0 (1 # 2)) (Translations.at' 0 0 (1 # 2)))
      as (r & rm0 & Hcount & Hrm & Ht & _).
    + reflexivity.
    + exact cache_ok_store0.
    + exact Hout.
    + reflexivity.
    + reflexivity.
    + reflexivity.
    + reflexivity.
    + simpl. apply not_elem_of_nil.
    + exists r. eexists. split; [exact Hcount|]. split; [exact Hrm|exact Ht].
Defined.
End Witnesses.

(** * The composition on the world of words *)
Section WordWitnesses.
#[local] Existing Instance Words.externals.
#[local] Existing Instance Words.collaborators.

Lemma allocated_words : allocated Words.scene (Scene.matrices Words.store).
Proof. unfold allocated. simpl. lia. Qed.


(** C9: after the frame the camera's matrix is still M, and the product was
    written to the new object 4. *)
Lemma render_keeps_camera_and_viewport_witness :
  allocated Words.scene (Scene.matrices Words.store) /\
  (Scene.composeProjection Words.scene (Scene.matrices Words.store)).1 = 4 /\
  Matrix.at_ (Scene.matrices (Scene.render Words.scene Words.store).2) 0 = "M".
Proof.
  pose proof (render_keeps_camera_and_viewport Words.scene Words.store allocated_words) as Hb.
  cbv zeta in Hb. destruct Hb as (Hcopy & _ & Hm & _).
  split; [exact allocated_words|]. split; [exact Hcopy|exact Hm].
Defined.
End WordWitnesses.

(** * Listeners and events *)
Section EventEmitterFacts.
Context {Callback : Type} `{EqDecision Callback} {Args : Type}.

Lemma indexOfFrom_cases (c : Callback) (l : list Callback) (i : Z) :
  ((c ∉ l) /\ EventEmitter.indexOfFrom c l i = (-1)%Z) \/
  (exists n, EventEmitter.indexOfFrom c l i = (i + Z.of_nat n)%Z /\
             l !! n = Some c /\ (c ∉ take n l)).
Proof.
  revert i. induction l as [|x l IH]; intros i; simpl.
  - left. split; [apply not_elem_of_nil|done].
  - destruct (decide (x = c)) as [->|Hne].
    + right. exists 0. split_and!; [lia|done|apply not_elem_of_nil].
    + destruct (IH (i + 1)%Z) as [[Hni Hi]|(n & Hi & Hn & Ht)].
      * left. split; [|done]. by apply not_elem_of_cons.
      * right. exists (S n). split_and!; [lia|done|].
        simpl. by apply not_elem_of_cons.
Qed.

(** The list [remove(callback)] leaves: the list itself when the callback is
    not in it, else the list without the first occurrence. *)
Lemma remove_list (c : Callback) (l : list Callback) :
  ((c ∉ l) /\ (EventEmitter.remove (Some c) l).2 = l) \/
  (exists n, l !! n = Some c /\ (c ∉ take n l) /\
             (EventEmitter.remove (Some c) l).2 = delete n l).
Proof.
  unfold EventEmitter.remove, EventEmitter.indexOf. simpl.
  destruct (indexOfFrom_cases c l 0) as [[Hni ->]|(n & -> & Hn & Ht)].
  - left. by split.
  - right. exists n. split_and!; try done.
    destruct (Z.leb_spec 0 (0 + Z.of_nat n)); [|lia].
    by rewrite Z.add_0_l, Nat2Z.id.
Qed.

Lemma filter_all_ne (c : Callback) (l : list Callback) :
  c ∉ l -> filter (fun x => x <> c) l = l.
Proof.
  induction l as [|x l IH]; intros Hni; [done|].
  apply not_elem_of_cons in Hni as [Hne Hni].
  rewrite filter_cons_True by done. by rewrite IH.
Qed.

Lemma remove_NoDup (c : Callback) (l : list Callback) :
  NoDup l -> (EventEmitter.remove (Some c) l).2 = filter (fun x => x <> c) l.
Proof.
  intros Hnd. destruct (remove_list c l) as [[Hni ->]|(n & Hn & Ht & ->)].
  - by rewrite filter_all_ne.
  - rewrite <- (take_drop_middle l n c Hn) at 2.
    rewrite <- (take_drop_middle l n c Hn) in Hnd.
    apply NoDup_app in Hnd as (_ & Hdisj & Hnd2).
    apply NoDup_cons in Hnd2 as [Hnd2 _].
    rewrite filter_app, filter_cons_False by (intros ?; done).
    rewrite !filter_all_ne by done. by rewrite delete_take_drop.
Qed.

Lemma remove_sublist (cb : option Callback) (l : list Callback) :
  sublist (EventEmitter.remove cb l).2 l.
Proof.
  destruct cb as [c|]; [|done].
  destruct (remove_list c l) as [[_ ->]|(n & _ & _ & ->)]; [done|].
  apply sublist_delete.
Qed.

Lemma remove_keeps_NoDup (cb : option Callback) (l : list Callback) :
  NoDup l -> NoDup (EventEmitter.remove cb l).2.
Proof. intros Hnd. eapply sublist_NoDup; [exact Hnd|apply remove_sublist]. Qed.

Lemma add_NoDup_list (c : Callback) (l : list Callback) :
  NoDup l -> EventEmitter.add c l = filter (fun x => x <> c) l ++ [c].
Proof. intros Hnd. unfold EventEmitter.add. by rewrite remove_NoDup. Qed.

Lemma add_keeps_NoDup (c : Callback) (l : list Callback) :
  NoDup l -> NoDup (EventEmitter.add c l).
Proof.
  intros Hnd. rewrite add_NoDup_list by done. apply NoDup_app. split_and!.
  - by apply NoDup_filter.
  - intros x Hx ->%list_elem_of_singleton. apply list_elem_of_filter in Hx as [Hx _]. done.
  - apply NoDup_singleton.
Qed.

Lemma remove_after_add_list (c : Callback) (l : list Callback) :
  c ∉ l -> (EventEmitter.remove (Some c) (EventEmitter.add c l)).2 = l.
Proof.
  intros Hni. unfold EventEmitter.add.
  destruct (remove_list c l) as [[_ ->]|(n & Hn & _)].
  - destruct (remove_list c (l ++ [c])) as [[Hni' _]|(n & Hn & Ht & Hr)].
    + exfalso. apply Hni'. apply elem_of_app. right. apply list_elem_of_here.
    + assert (n = length l) as ->.
      { destruct (decide (n < length l)) as [Hlt|Hge].
        - rewrite lookup_app_l in Hn by done. exfalso. apply Hni.
          by eapply list_elem_of_lookup_2.
        - apply lookup_lt_Some in Hn. rewrite length_app in Hn. simpl in Hn. lia. }
      rewrite Hr, delete_take_drop, take_app_length.
      rewrite drop_ge by (rewrite length_app; simpl; lia). by rewrite app_nil_r.
  - exfalso. apply Hni. by eapply list_elem_of_lookup_2.
Qed.

(** The loop of [emit] from an index on, when the listeners still to be
    called leave the list alone: it calls each once, in order. *)
Lemma emitFrom_quiet (react : Callback -> Args -> list Callback -> list Callback)
    (args : Args) (l : list Callback) (fuel i : nat) :
  (forall c, c ∈ drop i l -> react c args l = l) ->
  length l - i < fuel ->
  EventEmitter.emitFrom react fuel i l args
  = Some (map (fun c => (c, args)) (drop i l), l).
Proof.
  revert i. induction fuel as [|fuel IH]; intros i Hq Hf; [lia|]. simpl.
  destruct (l !! i) as [c|] eqn:E.
  - assert (Hd : drop i l = c :: drop (S i) l) by (by apply drop_S).
    rewrite Hd in *. rewrite (Hq c) by apply list_elem_of_here.
    rewrite IH.
    + done.
    + intros x Hx. apply Hq. by apply list_elem_of_further.
    + apply lookup_lt_Some in E. lia.
  - apply lookup_ge_None in E. by rewrite drop_ge.
Qed.

(** [add] never registers a listener twice: a listener already in the list
    is taken out, the others keep their order, and the listener goes last. *)
Theorem add_moves_listener_last (c : Callback) (l : list Callback) :
  NoDup l ->
  EventEmitter.add c l = filter (fun x => x <> c) l ++ [c] /\
  NoDup (EventEmitter.add c l) /\
  (forall x, x ∈ EventEmitter.add c l <-> x = c \/ x ∈ l).
Proof.
  intros Hnd. split_and!.
  - by apply add_NoDup_list.
  - by apply add_keeps_NoDup.
  - intros x. rewrite add_NoDup_list by done.
    rewrite elem_of_app, list_elem_of_filter, list_elem_of_singleton.
    destruct (decide (x = c)) as [->|Hne]; [split; auto|].
    split; [intros [[_ ?]|?]; auto|intros [?|?]; [done|auto]].
Qed.

(** Removing a listener just added to a list that did not hold it gives the
    list back, and the value returned tells whether that list is empty. *)
Theorem remove_after_add (c : Callback) (l : list Callback) :
  c ∉ l ->
  EventEmitter.remove (Some c) (EventEmitter.add c l) = (EventEmitter.isEmpty l, l).
Proof.
  intros Hni. pose proof (remove_after_add_list c l Hni) as Hl.
  unfold EventEmitter.remove in *. simpl in *. by rewrite Hl.
Qed.

(** [remove] of a listener that is not registered, or of no listener at all,
    leaves the list as it is; whatever is removed, the value returned is true
    exactly when no listener is left. *)
Theorem remove_nothing_to_remove (cb : option Callback) (c : Callback)
    (l : list Callback) :
  (c ∉ l -> EventEmitter.remove (Some c) l = (EventEmitter.isEmpty l, l)) /\
  EventEmitter.remove None l = (EventEmitter.isEmpty l, l) /\
  ((EventEmitter.remove cb l).1 = true <-> (EventEmitter.remove cb l).2 = []).
Proof.
  split_and!.
  - intros Hni. destruct (remove_list c l) as [[_ Hl]|(n & Hn & _)].
    + unfold EventEmitter.remove in *. simpl in *. by rewrite Hl.
    + exfalso. apply Hni. by eapply list_elem_of_lookup_2.
  - done.
  - unfold EventEmitter.remove. simpl. unfold EventEmitter.isEmpty.
    rewrite Nat.eqb_eq. split; [apply nil_length_inv|by intros ->].
Qed.

(** [remove] of a registered listener deletes its first occurrence and
    nothing else. *)
Theorem remove_deletes_first_occurrence (c : Callback) (l : list Callback) :
  c ∈ l ->
  exists n, l !! n = Some c /\ (c ∉ take n l) /\
            (EventEmitter.remove (Some c) l).2 = take n l ++ drop (S n) l /\
            length (EventEmitter.remove (Some c) l).2 = pred (length l).
Proof.
  intros Hin. destruct (remove_list c l) as [[Hni _]|(n & Hn & Ht & Hr)]; [done|].
  exists n. split_and!; try done.
  - by rewrite Hr, delete_take_drop.
  - rewrite Hr, length_delete; [lia|]. by eapply mk_is_Some.
Qed.

End EventEmitterFacts.

Section EventsFacts.
Context {Callback : Type} `{EqDecision Callback} {Args : Type}.
Implicit Types (ev : @Events.t Callback) (e : string) (c : Callback).

Lemma events_inherits_dec e ev : Events.inherits e ev \/ ~ Events.inherits e ev.
Proof.
  unfold Events.inherits.
  destruct (Events.emitters ev !! e) as [r|]; [right; by intros [? _]|].
  destruct (decide (e ∈ Object_prototype)); [by left|right; by intros [_ ?]].
Qed.

Lemma inherits_get e ev :
  Events.inherits e ev <-> Object_get (Events.emitters ev) e = Inherited.
Proof.
  unfold Events.inherits.
  destruct (Object_get_cases (Events.emitters ev) e)
    as [(r & Hr & ->)|[(Hn & Hin & ->)|(Hn & Hni & ->)]].
  - split; [intros [? _]; congruence|done].
  - done.
  - split; [by intros [_ ?]|done].
Qed.

(** Where the lookup finds an inherited member [ensure] makes no emitter. *)
Lemma ensure_inherits e ev : Events.inherits e ev -> Events.ensure e ev = ev.
Proof. intros Hin%inherits_get. unfold Events.ensure. by rewrite Hin. Qed.

(** What [ensure] does to the emitter of its event. *)
Lemma ensure_emitter e ev :
  ~ Events.inherits e ev ->
  exists r, Events.emitters (Events.ensure e ev) !! e = Some r /\
            (Events.emitters ev !! e = Some r /\ Events.ensure e ev = ev \/
             Events.emitters ev !! e = None /\ r = length (Events.objects ev) /\
             Events.objects (Events.ensure e ev) = Events.objects ev ++ [[]] /\
             Events.emitters (Events.ensure e ev) = <[e := r]> (Events.emitters ev)).
Proof.
  intros Hni. unfold Events.ensure.
  destruct (Object_get_cases (Events.emitters ev) e)
    as [(r & Hr & ->)|[(Hn & Hin & _)|(Hn & _ & ->)]].
  - exists r. split; [done|]. by left.
  - exfalso. by apply Hni.
  - exists (length (Events.objects ev)). simpl. rewrite lookup_insert_eq.
    split; [done|]. by right.
Qed.

Lemma ensure_mono e ev e' r :
  Events.emitters ev !! e' = Some r -> Events.emitters (Events.ensure e ev) !! e' = Some r.
Proof.
  intros He'. destruct (events_inherits_dec e ev) as [Hin|Hni];
    [by rewrite ensure_inherits|].
  destruct (ensure_emitter e ev Hni) as (r0 & _ & [(_ & ->)|(Hnone & _ & _ & ->)]);
    [done|].
  rewrite lookup_insert_ne; [done|]. intros ->. congruence.
Qed.

Lemma ensure_ok e ev : Events.events_ok ev -> Events.events_ok (Events.ensure e ev).
Proof.
  intros Hok. destruct (events_inherits_dec e ev) as [Hin|Hni];
    [by rewrite ensure_inherits|].
  destruct Hok as (Hlt & Hinj & Hnd).
  destruct (ensure_emitter e ev Hni) as (r0 & _ & [(_ & ->)|(Hnone & -> & Ho & Hm)]);
    [done|].
  unfold Events.events_ok. rewrite Ho, Hm. split_and!.
  - intros e' r Hr. rewrite length_app. simpl.
    destruct (decide (e' = e)) as [->|Hne].
    + rewrite lookup_insert_eq in Hr. injection Hr as <-. lia.
    + rewrite lookup_insert_ne in Hr by done. apply Hlt in Hr. lia.
  - intros e1 e2 r H1 H2.
    destruct (decide (e1 = e)) as [->|Hn1], (decide (e2 = e)) as [->|Hn2]; try done.
    + rewrite lookup_insert_eq in H1. rewrite lookup_insert_ne in H2 by done.
      injection H1 as <-. apply Hlt in H2. lia.
    + rewrite lookup_insert_eq in H2. rewrite lookup_insert_ne in H1 by done.
      injection H2 as <-. apply Hlt in H1. lia.
    + rewrite lookup_insert_ne in H1, H2 by done. by eapply Hinj.
  - apply Forall_app. split; [done|]. repeat constructor.
Qed.

Lemma ensure_listeners e ev e' :
  Events.events_ok ev -> Events.listeners e' (Events.ensure e ev) = Events.listeners e' ev.
Proof.
  intros Hok. destruct (events_inherits_dec e ev) as [Hin|Hni];
    [by rewrite ensure_inherits|].
  destruct Hok as (Hlt & _ & _).
  destruct (ensure_emitter e ev Hni) as (r0 & _ & [(_ & ->)|(Hnone & -> & Ho & Hm)]);
    [done|].
  unfold Events.listeners. rewrite Ho, Hm.
  destruct (decide (e' = e)) as [->|Hne].
  - rewrite lookup_insert_eq, Hnone. rewrite lookup_app_r by lia.
    by rewrite Nat.sub_diag.
  - rewrite lookup_insert_ne by done.
    destruct (Events.emitters ev !! e') as [r|] eqn:E; [|done].
    rewrite lookup_app_l; [done|]. by eapply Hlt.
Qed.

(** The listeners after the list of one emitter object is altered. *)
Lemma alter_listeners (f : list Callback -> list Callback) ev e r e' :
  Events.events_ok ev -> Events.emitters ev !! e = Some r ->
  Events.listeners e'
    {| Events.emitters := Events.emitters ev;
       Events.objects := alter f r (Events.objects ev) |}
  = if decide (e' = e) then f (Events.listeners e ev) else Events.listeners e' ev.
Proof.
  intros (Hlt & Hinj & _) Hr. unfold Events.listeners. simpl.
  destruct (decide (e' = e)) as [->|Hne].
  - rewrite Hr, list_lookup_alter_eq.
    destruct (lookup_lt_is_Some_2 _ _ (Hlt _ _ Hr)) as [l ->]. done.
  - destruct (Events.emitters ev !! e') as [r'|] eqn:E; [|done].
    rewrite list_lookup_alter_ne; [done|]. intros ->. apply Hne. by eapply Hinj.
Qed.

Lemma alter_ok (f : list Callback -> list Callback) ev r :
  (forall l, NoDup l -> NoDup (f l)) -> Events.events_ok ev ->
  Events.events_ok {| Events.emitters := Events.emitters ev;
                      Events.objects := alter f r (Events.objects ev) |}.
Proof.
  intros Hf (Hlt & Hinj & Hnd). unfold Events.events_ok. simpl.
  rewrite length_alter. split_and!; try done.
  apply Forall_alter; [done|]. intros l _. apply Hf.
Qed.

(** [on] throws exactly where the lookup finds an inherited member. *)
Lemma on_throws e c ev :
  Events.inherits e ev -> Events.on e c ev = (Throw TypeError, ev).
Proof.
  intros Hin. unfold Events.on. rewrite (ensure_inherits e ev Hin).
  apply inherits_get in Hin. by rewrite Hin.
Qed.

Lemma on_unfold e c ev :
  ~ Events.inherits e ev ->
  exists r, Events.emitters (Events.ensure e ev) !! e = Some r /\
            Events.on e c ev
            = (Normal tt,
               {| Events.emitters := Events.emitters (Events.ensure e ev);
                  Events.objects :=
                    alter (EventEmitter.add c) r (Events.objects (Events.ensure e ev)) |}).
Proof.
  intros Hni. destruct (ensure_emitter e ev Hni) as (r & Hr & _). exists r. split; [done|].
  unfold Events.on, Object_get. by rewrite Hr.
Qed.

Lemma on_ok e c ev : Events.events_ok ev -> Events.events_ok (Events.on e c ev).2.
Proof.
  intros Hok. destruct (events_inherits_dec e ev) as [Hin|Hni];
    [by rewrite on_throws|].
  destruct (on_unfold e c ev Hni) as (r & Hr & ->).
  apply alter_ok; [apply add_keeps_NoDup|by apply ensure_ok].
Qed.

Lemma off_throws e cb ev :
  Events.inherits e ev -> Events.off e cb ev = (Throw TypeError, ev).
Proof. intros Hin%inherits_get. unfold Events.off. by rewrite Hin. Qed.

Lemma off_unfold e cb ev r :
  Events.emitters ev !! e = Some r ->
  Events.off e cb ev
  = (Normal tt,
     {| Events.emitters := Events.emitters ev;
        Events.objects :=
          alter (fun cs => (EventEmitter.remove cb cs).2) r (Events.objects ev) |}).
Proof. intros Hr. unfold Events.off, Object_get. by rewrite Hr. Qed.

Lemma off_state e cb ev :
  (Events.off e cb ev).2 = ev \/
  exists r, Events.emitters ev !! e = Some r /\
            (Events.off e cb ev).2
            = {| Events.emitters := Events.emitters ev;
                 Events.objects :=
                   alter (fun cs => (EventEmitter.remove cb cs).2) r (Events.objects ev) |}.
Proof.
  unfold Events.off.
  destruct (Object_get_cases (Events.emitters ev) e)
    as [(r & Hr & ->)|[(_ & _ & ->)|(_ & _ & ->)]]; [right; by exists r|by left..].
Qed.

Lemma off_ok e cb ev : Events.events_ok ev -> Events.events_ok (Events.off e cb ev).2.
Proof.
  intros Hok. destruct (off_state e cb ev) as [->|(r & _ & ->)]; [done|].
  apply alter_ok; [|done]. intros l. apply remove_keeps_NoDup.
Qed.

Lemma step_ok ev (o : @Events.op Callback) :
  Events.events_ok ev -> Events.events_ok (Events.step ev o).
Proof.
  intros Hok. destruct o as [e c|e cb|e]; simpl.
  - by apply on_ok.
  - by apply off_ok.
  - by apply ensure_ok.
Qed.

Lemma step_mono ev (o : @Events.op Callback) e r :
  Events.emitters ev !! e = Some r -> Events.emitters (Events.step ev o) !! e = Some r.
Proof.
  intros Hr. destruct o as [e' c|e' cb|e']; simpl.
  - destruct (events_inherits_dec e' ev) as [Hin|Hni]; [by rewrite on_throws|].
    destruct (on_unfold e' c ev Hni) as (r' & _ & ->). simpl. by apply ensure_mono.
  - by destruct (off_state e' cb ev) as [->|(r' & _ & ->)].
  - by apply ensure_mono.
Qed.

Lemma steps_ok ev (ops : list (@Events.op Callback)) :
  Events.events_ok ev -> Events.events_ok (fold_left Events.step ops ev).
Proof.
  revert ev. induction ops as [|o ops IH]; intros ev Hok; [done|].
  simpl. apply IH. by apply step_ok.
Qed.

Lemma steps_mono ev (ops : list (@Events.op Callback)) e r :
  Events.emitters ev !! e = Some r ->
  Events.emitters (fold_left Events.step ops ev) !! e = Some r.
Proof.
  revert ev. induction ops as [|o ops IH]; intros ev Hr; [done|].
  simpl. apply IH. by apply step_mono.
Qed.

Lemma listeners_NoDup ev e : Events.events_ok ev -> NoDup (Events.listeners e ev).
Proof.
  intros (_ & _ & Hnd). unfold Events.listeners.
  destruct (Events.emitters ev !! e) as [r|]; [|apply NoDup_nil_2].
  destruct (Events.objects ev !! r) as [l|] eqn:E; [|apply NoDup_nil_2].
  simpl. by eapply Forall_lookup_1.
Qed.

Lemma on_listeners e c ev :
  Events.events_ok ev -> ~ Events.inherits e ev ->
  (Events.on e c ev).1 = Normal tt /\
  Events.listeners e (Events.on e c ev).2 = EventEmitter.add c (Events.listeners e ev) /\
  forall e', e' <> e -> Events.listeners e' (Events.on e c ev).2 = Events.listeners e' ev.
Proof.
  intros Hok Hni. destruct (on_unfold e c ev Hni) as (r & Hr & ->).
  pose proof (ensure_ok e ev Hok) as Hok1. cbn [fst snd]. split_and!; [done| |].
  - rewrite (alter_listeners _ _ e r e Hok1 Hr).
    rewrite decide_True by done. by rewrite ensure_listeners.
  - intros e' Hne. rewrite (alter_listeners _ _ e r e' Hok1 Hr).
    rewrite decide_False by done. by apply ensure_listeners.
Qed.

(** Calling the [emit] of an emitter whose listeners leave its list alone:
    each is called once, in order, and the object is left as it was. *)
Lemma call_quiet (react : Callback -> Args -> list Callback -> list Callback)
    (fuel : nat) (args : Args) ev r (l : list Callback) :
  Events.objects ev !! r = Some l -> Events.quiet react args l -> length l < fuel ->
  Events.call react fuel (Events.emitOf r) args ev
  = Some (Normal (map (fun c => (c, args)) l), ev).
Proof.
  intros Hr Hq Hf. unfold Events.call, EventEmitter.emit. rewrite Hr.
  rewrite (emitFrom_quiet react args l fuel 0); [| |lia].
  - rewrite drop_0, list_insert_id by done. by destruct ev.
  - rewrite drop_0. exact Hq.
Qed.

Lemma listeners_object ev e r :
  Events.events_ok ev -> Events.emitters ev !! e = Some r ->
  Events.objects ev !! r = Some (Events.listeners e ev).
Proof.
  intros (Hlt & _ & _) Hr. unfold Events.listeners. rewrite Hr.
  destruct (lookup_lt_is_Some_2 _ _ (Hlt _ _ Hr)) as [l ->]. done.
Qed.
End EventsFacts.

Section EventsTheorems.
Context {Callback : Type} `{EqDecision Callback} {Args : Type}.
Implicit Types (ev : @Events.t Callback) (e : string) (c : Callback).

(** Every operation of [Events] keeps the object sound, whether it returns
    or throws: the emitters are objects it made, no two events share an
    emitter, and no listener is registered twice for one event. *)
Theorem events_stay_sound e c (cb : option Callback) ev :
  Events.events_ok ev ->
  Events.events_ok (Events.on e c ev).2 /\
  Events.events_ok (Events.off e cb ev).2 /\
  Events.events_ok (Events.clear ev) /\
  Events.events_ok (Events.emitter e ev).2.
Proof.
  intros Hok. split_and!.
  - by apply on_ok.
  - by apply off_ok.
  - destruct Hok as (_ & _ & Hnd). by split_and!.
  - by apply ensure_ok.
Qed.

(** For an event whose lookup finds no inherited member, [on] returns and
    registers the listener as [EventEmitter.add] does, last in the list, and
    leaves the listeners of every other event alone. *)
Theorem on_registers_listener e c ev :
  Events.events_ok ev -> ~ Events.inherits e ev ->
  (Events.on e c ev).1 = Normal tt /\
  Events.listeners e (Events.on e c ev).2 = EventEmitter.add c (Events.listeners e ev) /\
  last (Events.listeners e (Events.on e c ev).2) = Some c /\
  forall e', e' <> e -> Events.listeners e' (Events.on e c ev).2 = Events.listeners e' ev.
Proof.
  intros Hok Hni. destruct (on_listeners e c ev Hok Hni) as (Hret & Hl & Hother).
  split_and!; [exact Hret|exact Hl| |exact Hother].
  rewrite Hl. unfold EventEmitter.add. apply last_snoc.
Qed.

(** [off] called with an event name and no callback removes no listener: the
    object is left exactly as it was. *)
Theorem off_without_callback_removes_nothing e ev :
  (Events.off e None ev).2 = ev.
Proof.
  destruct (off_state e None ev) as [->|(r & _ & ->)]; [done|].
  rewrite list_alter_id by done. by destruct ev.
Qed.

(** For an event whose lookup finds no inherited member, [off] undoes [on]
    for a listener that was not registered: both return, the listeners of
    the event are those before, the other events are untouched, and the
    emitter [on] made for the event stays. *)
Theorem off_after_on e c ev :
  Events.events_ok ev -> ~ Events.inherits e ev -> c ∉ Events.listeners e ev ->
  let ev1 := (Events.on e c ev).2 in
  (Events.on e c ev).1 = Normal tt /\
  (Events.off e (Some c) ev1).1 = Normal tt /\
  Events.listeners e (Events.off e (Some c) ev1).2 = Events.listeners e ev /\
  (forall e', e' <> e ->
     Events.listeners e' (Events.off e (Some c) ev1).2 = Events.listeners e' ev) /\
  is_Some (Events.emitters (Events.off e (Some c) ev1).2 !! e).
Proof.
  intros Hok Hni Hc. cbv zeta.
  destruct (on_listeners e c ev Hok Hni) as (Hret & Hl & Hother).
  pose proof (on_ok e c ev Hok) as Hok1.
  destruct (on_unfold e c ev Hni) as (r & Hr & Hon).
  assert (Hr1 : Events.emitters (Events.on e c ev).2 !! e = Some r) by (by rewrite Hon).
  rewrite (off_unfold e (Some c) _ r Hr1). cbn [fst snd]. split_and!; [done|done| | |].
  - rewrite (alter_listeners _ _ e r e Hok1 Hr1), decide_True by done.
    rewrite Hl. by rewrite remove_after_add_list.
  - intros e' Hne. rewrite (alter_listeners _ _ e r e' Hok1 Hr1), decide_False by done.
    by apply Hother.
  - simpl. by rewrite Hr1.
Qed.

(** For an event whose lookup finds no inherited member, the function
    [emitter] returns is neither the no-op nor [undefined]: it is the [emit]
    of the event's emitter, which [on], [off] and [emitter] keep. After any
    such operations, returned or thrown, it is still what [emitter] returns
    for the event, and when the listeners registered by then leave the list
    alone, calling it calls each of them once, in order. *)
Theorem emitter_reference_long_lived e ev (ops : list (@Events.op Callback))
    (react : Callback -> Args -> list Callback -> list Callback)
    (fuel : nat) (args : Args) :
  Events.events_ok ev -> ~ Events.inherits e ev ->
  let f := (Events.emitter e ev).1 in
  let later := fold_left Events.step ops (Events.emitter e ev).2 in
  f <> Events.noopEmitter /\ f <> Events.undefined /\
  Events.emitter e later = (f, later) /\
  NoDup (Events.listeners e later) /\
  (Events.quiet react args (Events.listeners e later) ->
   length (Events.listeners e later) < fuel ->
   Events.call react fuel f args later
   = Some (Normal (map (fun c => (c, args)) (Events.listeners e later)), later)).
Proof.
  intros Hok Hni. cbv zeta.
  destruct (ensure_emitter e ev Hni) as (r & Hr & _).
  assert (He : Events.emitter e ev = (Events.emitOf r, Events.ensure e ev)).
  { unfold Events.emitter, Object_get. by rewrite Hr. }
  rewrite He. cbn [fst snd].
  pose proof (ensure_ok e ev Hok) as Hok1.
  pose proof (steps_ok _ ops Hok1) as Hok2.
  pose proof (steps_mono _ ops e r Hr) as Hr2.
  split_and!.
  - done.
  - done.
  - assert (Hex : forall ev', Events.emitters ev' !! e = Some r ->
                         Events.emitter e ev' = (Events.emitOf r, ev')).
    { intros ev' H'. unfold Events.emitter, Events.ensure, Object_get. by rewrite H', H'. }
    by apply Hex.
  - by apply listeners_NoDup.
  - intros Hq Hf. apply call_quiet; [|done|done]. by apply listeners_object.
Qed.


(** Where the lookup of the event name finds an inherited member, [on] and
    [off] throw a TypeError and leave the object as it was, and [emitter]
    makes no emitter and returns [undefined], which it is a TypeError to
    call. *)
Theorem events_throw_at_inherited_names e c (cb : option Callback) ev
    (react : Callback -> Args -> list Callback -> list Callback)
    (fuel : nat) (args : Args) :
  Events.inherits e ev ->
  Events.on e c ev = (Throw TypeError, ev) /\
  Events.off e cb ev = (Throw TypeError, ev) /\
  Events.emitter e ev = (Events.undefined, ev) /\
  Events.call react fuel (Events.emitter e ev).1 args (Events.emitter e ev).2
  = Some (Throw TypeError, ev).
Proof.
  intros Hin.
  assert (He : Events.emitter e ev = (Events.undefined, ev)).
  { unfold Events.emitter. rewrite (ensure_inherits e ev Hin).
    apply inherits_get in Hin. by rewrite Hin. }
  split_and!; [by apply on_throws|by apply off_throws|exact He|by rewrite He].
Qed.
End EventsTheorems.

(** * Frames and the store *)
Section Frames.
Context `{Collaborators}.

#[local] Arguments visit : simpl never.
#[local] Arguments run : simpl never.
#[local] Arguments Scene.composeProjection : simpl never.

Lemma pushed_range sc P V n vs r :
  r ∈ pushed sc P V n vs -> n <= r < n + length vs.
Proof.
  revert n. induction vs as [|v vs IH]; intros n; simpl.
  - by intros ?%elem_of_nil.
  - intros [Hr|Hr]%elem_of_app.
    + destruct (Scene.visible sc v.1.1 _); [|by apply elem_of_nil in Hr].
      apply list_elem_of_singleton in Hr as ->. lia.
    + apply IH in Hr. lia.
Qed.

Lemma pushed_NoDup sc P V n vs : NoDup (pushed sc P V n vs).
Proof.
  revert n. induction vs as [|v vs IH]; intros n; simpl; [apply NoDup_nil_2|].
  apply NoDup_app. split_and!; [|intros r Hr Hr'|apply IH].
  - destruct (Scene.visible sc v.1.1 _); [apply NoDup_singleton|apply NoDup_nil_2].
  - destruct (Scene.visible sc v.1.1 _); [|by apply elem_of_nil in Hr].
    apply list_elem_of_singleton in Hr as ->. apply pushed_range in Hr'. lia.
Qed.

(** What a walk does when every visit builds a record. *)
Lemma run_all_built sc P V vs l st :
  all_built sc st vs ->
  (run sc P V vs (l, st)).1 = l ++ pushed sc P V (length (Scene.models st)) vs /\
  Scene.models (run sc P V vs (l, st)).2
  = Scene.models st ++ map (builtRecord sc P V) vs /\
  (Scene.cache sc = false ->
   Scene._renderModelCache (run sc P V vs (l, st)).2 = Scene._renderModelCache st).
Proof.
  revert l st. induction vs as [|[[s lights] t] vs IH]; intros l st Hall;
    rewrite ?run_cons, ?run_nil.
  - simpl. by rewrite !app_nil_r.
  - destruct (visit_built sc P V l st s lights t) as (r & st1 & Hb & _ & _ & _ & _ & Heq).
    assert (r = length (Scene.models st) /\
            Scene.models st1 = Scene.models st ++ [RenderModel_new s t P V] /\
            (Scene.cache sc = false ->
             Scene._renderModelCache st1 = Scene._renderModelCache st) /\
            (Scene.cache sc = true ->
             Scene._renderModelCache st1
             = <[Surface.id s := r]> (Scene._renderModelCache st)))
      as (-> & Hm & Hcoff & Hcon).
    { destruct Hb as [Ec|Ec Hmiss|r Ec Hhit]; simpl.
      - split_and!; try done. congruence.
      - split_and!; try done. congruence.
      - exfalso. destruct Hall as [Ec'|[_ Hnone]]; [congruence|].
        pose proof (Hnone (s, lights, t) (list_elem_of_here _ _)) as Hn.
        simpl in Hn. congruence. }
    rewrite (Heq (RenderModel_new s t P V)).
    2:{ rewrite Hm, lookup_app_r by lia. by rewrite Nat.sub_diag. }
    rewrite Hm, insert_app_r_alt by lia. rewrite Nat.sub_diag. simpl.
    destruct (IH (if Scene.visible sc s (RenderModel_new s t P V)
                  then l ++ [length (Scene.models st)] else l)
                 (Scene.setModels
                    (Scene.models st ++ [visited sc s lights (RenderModel_new s t P V)]) st1))
      as (H1 & H2 & H3).
    { destruct Hall as [Ec|[Hnd Hnone]]; [by left|].
      destruct (cache_cases sc) as [Ec|Ec]; [|by left]. right.
      simpl in Hnd. apply NoDup_cons in Hnd as [Hhd Hnd]. split; [done|].
      intros v Hv. simpl. rewrite (Hcon Ec). rewrite lookup_insert_ne.
      - apply Hnone. by apply list_elem_of_further.
      - intros Heq'. apply Hhd. apply list_elem_of_fmap. by exists v. }
    simpl in *. rewrite H1, H2. rewrite length_app. simpl.
    rewrite Nat.add_1_r. split_and!.
    + destruct (Scene.visible sc s (RenderModel_new s t P V)); simpl;
        by rewrite <- ?app_assoc.
    + by rewrite <- app_assoc.
    + intros Ec. rewrite (H3 Ec). by apply Hcoff.
Qed.

Lemma pushed_withCache b sc P V n vs :
  pushed (withCache b sc) P V n vs = pushed sc P V n vs.
Proof. revert n. induction vs as [|v vs IH]; intros n; simpl; [done|]. by rewrite IH. Qed.

(** Every reference a walk pushed is the record of a surface with the id of
    one of the surfaces visited. *)
Lemma run_entry_visited sc P V vs st r :
  (Scene.cache sc = true -> cache_ok st) ->
  r ∈ (run sc P V vs ([], st)).1 ->
  exists rm v, Scene.models (run sc P V vs ([], st)).2 !! r = Some rm /\ v ∈ vs /\
               Surface.id (RenderModel.surface rm) = Surface.id v.1.1.
Proof.
  intros Hok Hr. destruct (cache_cases sc) as [Ec|Ec].
  - destruct (run_pushed_slots sc P V vs st r Ec (Hok Ec) Hr) as (v & Hv & Hc).
    destruct (run_cache_ok sc P V vs [] st Hok Ec) as [Hrec _].
    destruct (Hrec _ _ Hc) as (rm & Hrm & Hid). by exists rm, v.
  - destruct (run_last_visit sc P V vs st) with (r := r)
      as (s & lights & t & rm0 & Hin & _ & Hid & _ & Ev & Hlk); [congruence|done|].
    exists (Scene.quantize sc (Scene.shade sc s lights rm0)), (s, lights, t).
    split_and!; [done|done|]. cbn [fst snd]. rewrite <- Hid.
    pose proof (visited_surface sc s lights rm0) as Hs. unfold visited in Hs.
    rewrite Ev in Hs. by rewrite Hs.
Qed.

(** With the cache off a frame returns. *)
Lemma render_uncached_returns sc st :
  Scene.cache sc = false ->
  Scene.render sc st = (Normal (rendered sc st).1, (rendered sc st).2).
Proof.
  intros Ec. destruct (render_cases sc st)
    as [(_ & _ & Hr)|(vs1 & v & vs2 & _ & _ & (Ec' & _) & _)]; [done|congruence].
Qed.

(** Every reference [render] returns is a RenderModel of the store it
    leaves, the array has at most one entry per visit of a surface, and when
    the cache, if it is on, is sound, every entry is the record of a surface
    with the id of a surface visited. A frame, returned or thrown, never
    drops a record of the store. *)
Theorem render_returns_live_references (sc : Scene.t) (st : Scene.store) :
  (forall out, (Scene.render sc st).1 = Normal out ->
     (forall r, r ∈ out -> is_Some (Scene.models (Scene.render sc st).2 !! r)) /\
     length out <= length (visits sc) /\
     ((Scene.cache sc = true -> cache_ok st) ->
      forall r, r ∈ out ->
      exists rm v, Scene.models (Scene.render sc st).2 !! r = Some rm /\
                   v ∈ visits sc /\
                   Surface.id (RenderModel.surface rm) = Surface.id v.1.1)) /\
  length (Scene.models st) <= length (Scene.models (Scene.render sc st).2).
Proof.
  split.
  - intros out Hout. destruct (render_returned sc st out Hout) as (_ & -> & ->).
    pose proof (render_elem sc st) as Hel. rewrite render_collect in *. cbn [fst snd] in *.
    rewrite (Permutation_length (Array_sort_perm _ _)).
    destruct (collect_some_frame sc st) as (P & V & h & Ecol). rewrite Ecol in *.
    destruct (run_live sc P V (visits sc) [] (Scene.setMatrices h st)) as (H1 & H2 & H3).
    { by intros ? ?%elem_of_nil. }
    split_and!; [|done|].
    + intros r Hr. apply lookup_lt_is_Some. apply H1. by apply Hel.
    + intros Hok r Hr. apply Hel in Hr.
      by apply (run_entry_visited sc P V (visits sc) (Scene.setMatrices h st) r).
  - destruct (render_store sc st) as (vs1 & vs2 & _ & ->).
    destruct (stepsOf_some_frame sc st vs1) as (P & V & h & ->).
    destruct (run_live sc P V vs1 [] (Scene.setMatrices h st)) as (_ & _ & H3).
    { by intros ? ?%elem_of_nil. }
    done.
Qed.

(** With the cache on, a frame, returned or thrown, never evicts or
    re-points a slot, it adds exactly one record per id it adds to the
    cache, and the ids it adds are ids of surfaces visited; when it returns,
    the ids in the cache are those before and those of all the surfaces
    visited. *)
Theorem render_cache_grows_by_visited_ids (sc : Scene.t) (st : Scene.store) :
  Scene.cache sc = true ->
  (forall i r, Scene._renderModelCache st !! i = Some r ->
     Scene._renderModelCache (Scene.render sc st).2 !! i = Some r) /\
  length (Scene.models (Scene.render sc st).2) + size (dom (Scene._renderModelCache st))
  = length (Scene.models st)
    + size (dom (Scene._renderModelCache (Scene.render sc st).2)) /\
  dom (Scene._renderModelCache (Scene.render sc st).2)
  ⊆ dom (Scene._renderModelCache st) ∪ list_to_set (visitedIds sc) /\
  (forall out, (Scene.render sc st).1 = Normal out ->
     dom (Scene._renderModelCache (Scene.render sc st).2)
     = dom (Scene._renderModelCache st) ∪ list_to_set (visitedIds sc)).
Proof.
  intros Ec. split_and!.
  - destruct (render_store sc st) as (vs1 & vs2 & _ & ->).
    destruct (stepsOf_some_frame sc st vs1) as (P & V & h & ->).
    by destruct (run_cache_dom sc P V vs1 [] (Scene.setMatrices h st) Ec) as (_ & _ & Hmono).
  - destruct (render_store sc st) as (vs1 & vs2 & _ & ->).
    destruct (stepsOf_some_frame sc st vs1) as (P & V & h & ->).
    by destruct (run_cache_dom sc P V vs1 [] (Scene.setMatrices h st) Ec) as (_ & Hsize & _).
  - destruct (render_store sc st) as (vs1 & vs2 & Hvs & ->).
    destruct (stepsOf_some_frame sc st vs1) as (P & V & h & ->).
    destruct (run_cache_dom sc P V vs1 [] (Scene.setMatrices h st) Ec) as (-> & _ & _).
    unfold visitedIds. rewrite Hvs, map_app, list_to_set_app_L.
    apply union_mono_l, union_subseteq_l.
  - intros out Hout. destruct (render_returned sc st out Hout) as (_ & _ & ->).
    rewrite render_collect. cbn [snd].
    destruct (collect_some_frame sc st) as (P & V & h & ->).
    by destruct (run_cache_dom sc P V (visits sc) [] (Scene.setMatrices h st) Ec)
      as (Hdom & _ & _).
Qed.

(** After [flushCache] a frame builds a new record for every surface it
    returns: the references of the array it returns are all new, and every
    record the store held before, such as those of arrays returned by earlier
    frames, is left as it was, whether the frame returns or throws. *)
Theorem render_after_flush_builds_new_records (sc : Scene.t) (st : Scene.store) :
  (forall out, (Scene.render sc (Scene.flushCache st)).1 = Normal out ->
     forall r, r ∈ out -> length (Scene.models st) <= r) /\
  (forall r, r < length (Scene.models st) ->
     Scene.models (Scene.render sc (Scene.flushCache st)).2 !! r = Scene.models st !! r).
Proof.
  split.
  - intros out Hout r Hr.
    destruct (render_returned sc _ out Hout) as (_ & -> & _).
    apply render_elem in Hr.
    destruct (collect_some_frame sc (Scene.flushCache st)) as (P & V & h & Ecol).
    rewrite Ecol in Hr.
    destruct (run_above sc P V (visits sc) [] (Scene.setMatrices h (Scene.flushCache st))
                (length (Scene.models st))) as (H1 & _ & _).
    + split; simpl; [done|]. intros i r'. by rewrite lookup_empty.
    + by intros ? ?%elem_of_nil.
    + by apply H1.
  - destruct (render_store sc (Scene.flushCache st)) as (vs1 & vs2 & _ & ->).
    destruct (stepsOf_some_frame sc (Scene.flushCache st) vs1) as (P & V & h & ->).
    destruct (run_above sc P V vs1 [] (Scene.setMatrices h (Scene.flushCache st))
                (length (Scene.models st))) as (_ & H2 & _).
    + split; simpl; [done|]. intros i r'. by rewrite lookup_empty.
    + by intros ? ?%elem_of_nil.
    + done.
Qed.

(** A slot whose surface is no longer visited stays in the cache, but its
    record is neither returned nor touched by the frame: what is rendered is
    what the walk visits. *)
Theorem render_skips_orphaned_slots (sc : Scene.t) (st : Scene.store)
    (i : string) (r : loc) :
  Scene.cache sc = true -> cache_ok st ->
  Scene._renderModelCache st !! i = Some r -> i ∉ visitedIds sc ->
  (forall out, (Scene.render sc st).1 = Normal out -> r ∉ out) /\
  Scene.models (Scene.render sc st).2 !! r = Scene.models st !! r /\
  Scene._renderModelCache (Scene.render sc st).2 !! i = Some r.
Proof.
  intros Ec Hok Hi Hni. split_and!.
  - intros out Hout. destruct (render_returned sc st out Hout) as (_ & -> & _).
    rewrite render_elem.
    destruct (collect_some_frame sc st) as (P & V & h & ->).
    assert (Hok0 : cache_ok (Scene.setMatrices h st)) by (by apply cache_ok_setMatrices).
    pose proof (run_cache_mono sc P V (visits sc) [] (Scene.setMatrices h st) i r
                  (fun _ => Hok0) Hi) as Hi'.
    intros Hr.
    destruct (run_pushed_slots sc P V _ _ r Ec Hok0 Hr) as (v & Hv & Hc).
    destruct (run_cache_ok sc P V (visits sc) [] _ (fun _ => Hok0) Ec) as [_ Hinj].
    apply Hni. rewrite (Hinj _ _ _ Hi' Hc).
    unfold visitedIds. apply list_elem_of_fmap. by exists v.
  - destruct (render_store sc st) as (vs1 & vs2 & Hvs & ->).
    destruct (stepsOf_some_frame sc st vs1) as (P & V & h & ->).
    change (Scene.models st) with (Scene.models (Scene.setMatrices h st)).
    eapply run_frame_cached; [done|done|exact Hi|].
    intros Hin. apply Hni. unfold visitedIds. rewrite Hvs, map_app.
    apply elem_of_app. by left.
  - destruct (render_store sc st) as (vs1 & vs2 & Hvs & ->).
    destruct (stepsOf_some_frame sc st vs1) as (P & V & h & ->).
    by apply (run_cache_mono sc P V vs1 [] (Scene.setMatrices h st) i r (fun _ => Hok)).
Qed.

(** With the cache off a frame returns, and it builds exactly one new record
    per surface visited, in the order of the walk, each from the transform of
    its visit and shaded and rounded when it passes the test; it touches
    neither the older records nor the cache, and it returns, without
    repetition, the references of the new records that pass. *)
Theorem render_uncached_builds_one_record_per_visit (sc : Scene.t) (st : Scene.store) :
  Scene.cache sc = false -> allocated sc (Scene.matrices st) ->
  let P := frameProjection sc (Scene.matrices st) in
  let V := frameViewport sc (Scene.matrices st) in
  exists out,
    (Scene.render sc st).1 = Normal out /\
    Scene.models (Scene.render sc st).2
    = Scene.models st ++ map (builtRecord sc P V) (visits sc) /\
    Scene._renderModelCache (Scene.render sc st).2 = Scene._renderModelCache st /\
    out ≡ₚ pushed sc P V (length (Scene.models st)) (visits sc) /\
    NoDup out.
Proof.
  intros Ec Ha. cbv zeta. rewrite (render_uncached_returns sc st Ec).
  exists (rendered sc st).1. cbn [fst snd]. split; [done|].
  rewrite render_collect, (collect_frame sc st Ha). simpl.
  destruct (run_all_built sc (frameProjection sc (Scene.matrices st))
              (frameViewport sc (Scene.matrices st)) (visits sc) []
              (Scene.setMatrices (Scene.composeProjection sc (Scene.matrices st)).2 st))
    as (H1 & H2 & H3); [by left|].
  simpl in *. rewrite Array_sort_perm, H1, H2. split_and!; try done.
  - by apply H3.
  - apply pushed_NoDup.
Qed.

(** The cache does not change what a frame returns when no visit finds a
    slot or an inherited member (the visited ids are distinct, none is
    cached, as after a flush, and none names a member of
    [Object.prototype]): with the [cache] option on or off the frame returns
    the same references and leaves the same records. *)
Theorem render_cache_transparent_when_nothing_cached (sc : Scene.t) (st : Scene.store) :
  allocated sc (Scene.matrices st) ->
  NoDup (visitedIds sc) ->
  (forall i, i ∈ visitedIds sc -> Scene._renderModelCache st !! i = None) ->
  (forall i, i ∈ visitedIds sc -> i ∉ Object_prototype) ->
  exists out,
    (Scene.render (withCache true sc) st).1 = Normal out /\
    (Scene.render (withCache false sc) st).1 = Normal out /\
    Scene.models (Scene.render (withCache true sc) st).2
    = Scene.models (Scene.render (withCache false sc) st).2.
Proof.
  intros Ha Hnd Hnone Hplain.
  assert (Eon : Scene.render (withCache true sc) st
                = (Normal (rendered (withCache true sc) st).1,
                   (rendered (withCache true sc) st).2)).
  { destruct (render_cases (withCache true sc) st)
      as [(_ & _ & Hr)|(vs1 & v & vs2 & Hvs & _ & (_ & _ & Hin) & _)]; [done|].
    exfalso. apply (Hplain (Surface.id v.1.1)); [|done].
    unfold visitedIds. change (visits sc) with (visits (withCache true sc)).
    rewrite Hvs. apply list_elem_of_fmap. exists v. split; [done|].
    apply elem_of_app. right. apply list_elem_of_here. }
  rewrite Eon, (render_uncached_returns (withCache false sc) st) by done.
  exists (rendered (withCache true sc) st).1. cbn [fst snd].
  rewrite !render_collect.
  rewrite (collect_frame (withCache true sc) st Ha).
  rewrite (collect_frame (withCache false sc) st Ha).
  change (visits (withCache true sc)) with (visits sc).
  change (visits (withCache false sc)) with (visits sc).
  change (frameProjection (withCache true sc)) with (frameProjection sc).
  change (frameProjection (withCache false sc)) with (frameProjection sc).
  change (frameViewport (withCache true sc)) with (frameViewport sc).
  change (frameViewport (withCache false sc)) with (frameViewport sc).
  change (Scene.composeProjection (withCache true sc)) with (Scene.composeProjection sc).
  change (Scene.composeProjection (withCache false sc)) with (Scene.composeProjection sc).
  set (P := frameProjection sc (Scene.matrices st)).
  set (V := frameViewport sc (Scene.matrices st)).
  set (st0 := Scene.setMatrices (Scene.composeProjection sc (Scene.matrices st)).2 st).
  destruct (run_all_built (withCache true sc) P V (visits sc) [] st0) as (A1 & A2 & _).
  { right. split; [exact Hnd|]. intros v Hv. apply Hnone.
    unfold visitedIds. apply list_elem_of_fmap. by exists v. }
  destruct (run_all_built (withCache false sc) P V (visits sc) [] st0) as (B1 & B2 & _).
  { by left. }
  rewrite pushed_withCache in A1, B1. cbn [fst snd].
  assert (Hm : Scene.models (run (withCache true sc) P V (visits sc) ([], st0)).2
               = Scene.models (run (withCache false sc) P V (visits sc) ([], st0)).2).
  { rewrite A2, B2. done. }
  split_and!; [done| |done]. f_equal. rewrite A1, B1. apply Array_sort_ext.
  intros r _. unfold descending, Scene.depth. by rewrite Hm.
Qed.

(** With backface culling off, for the scene or for the surface, the frustum
    alone decides: when the frame returns and no record is resolved twice in
    it, the record of a visit is in the returned array exactly when it is in
    the frustum. *)
Theorem render_without_culling_keeps_what_is_in_frustum (sc : Scene.t) (st : Scene.store)
    (out : list loc) (s : Surface.t) (lights : list LightRenderModel) (t : Entries) :
  (Scene.render sc st).1 = Normal out ->
  visited_once sc st -> (s, lights, t) ∈ visits sc ->
  Scene.cullBackfaces sc = false \/ Surface.cullBackfaces s = false ->
  exists r rm,
    Scene.models (Scene.render sc st).2 !! r = Some rm /\
    Surface.id (RenderModel.surface rm) = Surface.id s /\
    RenderModel.transform rm = t /\
    (r ∈ out <-> RenderModel.inFrustrum rm = true).
Proof.
  intros Hout Honce Hin Hoff.
  destruct (render_returned sc st out Hout) as (_ & -> & ->).
  pose proof (render_elem sc st) as Hel. rewrite render_collect in *. simpl in *.
  destruct (collect_some_frame sc st) as (P & V & h & Ecol). rewrite Ecol in *.
  destruct (run_each_visit sc P V (visits sc) (Scene.setMatrices h st)) with
    (s := s) (lights := lights) (t := t)
    as (r & rm0 & Hc & Hid & _ & Hlk & Hiff & _); [|done|].
  { intros Ec. by apply Honce. }
  exists r, (visited sc s lights rm0). split_and!; try done.
  - by rewrite visited_surface.
  - destruct (visited_matrices sc s lights rm0) as (-> & _). by destruct Hc.
  - rewrite Hel, Hiff, <- (visible_visited sc s s lights rm0).
    unfold Scene.visible. destruct Hoff as [-> | ->]; simpl;
      rewrite ?orb_true_r; simpl; done.
Qed.

End Frames.

(** * Further examples *)
Section MoreWitnesses.
#[local] Existing Instance Translations.externals.
#[local] Existing Instance Translations.collaborators.

Lemma quiet_still (args : string) (l : list string) : Events.quiet Listeners.still args l.
Proof. by intros c _. Qed.

Lemma add_moves_listener_last_witness :
  NoDup ["a"; "b"; "c"] /\ EventEmitter.add "b" ["a"; "b"; "c"] = ["a"; "c"; "b"].
Proof.
  assert (Hnd : NoDup ["a"; "b"; "c"]) by (apply (bool_decide_unpack _); vm_compute; exact I).
  split; [exact Hnd|].
  destruct (add_moves_listener_last "b" ["a"; "b"; "c"] Hnd) as (-> & _). reflexivity.
Defined.

Lemma remove_after_add_witness :
  ("c" ∉ ["a"; "b"]) /\
  EventEmitter.remove (Some "c") (EventEmitter.add "c" ["a"; "b"]) = (false, ["a"; "b"]).
Proof.
  assert (Hni : "c" ∉ ["a"; "b"]) by (apply (bool_decide_unpack _); vm_compute; exact I).
  split; [exact Hni|]. exact (remove_after_add "c" ["a"; "b"] Hni).
Defined.

Lemma remove_nothing_to_remove_witness :
  ("c" ∉ ["a"; "b"]) /\
  EventEmitter.remove (Some "c") ["a"; "b"] = (false, ["a"; "b"]).
Proof.
  assert (Hni : "c" ∉ ["a"; "b"]) by (apply (bool_decide_unpack _); vm_compute; exact I).
  split; [exact Hni|].
  exact (proj1 (remove_nothing_to_remove None "c" ["a"; "b"]) Hni).
Defined.

Lemma remove_deletes_first_occurrence_witness :
  "a" ∈ ["a"; "b"; "a"] /\
  exists n, (EventEmitter.remove (Some "a") ["a"; "b"; "a"]).2
            = take n ["a"; "b"; "a"] ++ drop (S n) ["a"; "b"; "a"].
Proof.
  assert (Hin : "a" ∈ ["a"; "b"; "a"]) by apply list_elem_of_here.
  split; [exact Hin|].
  destruct (remove_deletes_first_occurrence "a" ["a"; "b"; "a"] Hin)
    as (n & _ & _ & Hr & _).
  exists n. exact Hr.
Defined.


Lemma events_ok_empty : Events.events_ok (@Events.empty string).
Proof.
  unfold Events.events_ok, Events.empty. simpl.
  split_and!; [intros *; by rewrite lookup_empty..|constructor].
Qed.

Lemma click_not_inherited : ~ Events.inherits "click" (@Events.empty string).
Proof. intros [_ Hin]. revert Hin. apply (bool_decide_unpack _). vm_compute. exact I. Qed.

Lemma toString_inherited : Events.inherits "toString" (@Events.empty string).
Proof.
  split; [apply lookup_empty|]. apply (bool_decide_unpack _). vm_compute. exact I.
Qed.

Lemma events_stay_sound_witness :
  Events.events_ok (@Events.empty string) /\
  Events.events_ok (Events.on "click" "f" (@Events.empty string)).2.
Proof.
  split; [exact events_ok_empty|].
  exact (proj1 (events_stay_sound "click" "f" None Events.empty events_ok_empty)).
Defined.

Lemma on_registers_listener_witness :
  Events.events_ok (@Events.empty string) /\
  ~ Events.inherits "click" (@Events.empty string) /\
  (Events.on "click" "f" (@Events.empty string)).1 = Normal tt /\
  Events.listeners "click" (Events.on "click" "f" (@Events.empty string)).2
  = EventEmitter.add "f" (Events.listeners "click" (@Events.empty string)).
Proof.
  split; [exact events_ok_empty|]. split; [exact click_not_inherited|].
  destruct (on_registers_listener "click" "f" Events.empty events_ok_empty
              click_not_inherited) as (Hret & Hl & _).
  split; [exact Hret|exact Hl].
Defined.

Lemma off_after_on_witness :
  Events.events_ok (@Events.empty string) /\
  ~ Events.inherits "click" (@Events.empty string) /\
  ("f" ∉ Events.listeners "click" (@Events.empty string)) /\
  Events.listeners "click"
    (Events.off "click" (Some "f") (Events.on "click" "f" (@Events.empty string)).2).2
  = Events.listeners "click" (@Events.empty string).
Proof.
  assert (Hni : "f" ∉ Events.listeners "click" (@Events.empty string))
    by apply not_elem_of_nil.
  split; [exact events_ok_empty|]. split; [exact click_not_inherited|].
  split; [exact Hni|].
  destruct (off_after_on "click" "f" Events.empty events_ok_empty click_not_inherited Hni)
    as (_ & _ & Hl & _).
  exact Hl.
Defined.

Lemma emitter_reference_long_lived_witness :
  let later :=
    fold_left Events.step [Events.Op_on "click" "f"; Events.Op_on "click" "g"]
      (Events.emitter "click" (@Events.empty string)).2 in
  Events.events_ok (@Events.empty string) /\
  ~ Events.inherits "click" (@Events.empty string) /\
  Events.quiet Listeners.still "hello" (Events.listeners "click" later) /\
  length (Events.listeners "click" later) < 3 /\
  Events.call Listeners.still 3 (Events.emitter "click" (@Events.empty string)).1 "hello" later
  = Some (Normal [("f", "hello"); ("g", "hello")], later).
Proof.
  cbv zeta. split; [exact events_ok_empty|]. split; [exact click_not_inherited|].
  split; [apply quiet_still|].
  assert (Hlen : length (Events.listeners "click"
                   (fold_left Events.step
                      [Events.Op_on "click" "f"; Events.Op_on "click" "g"]
                      (Events.emitter "click" (@Events.empty string)).2)) < 3)
    by (vm_compute; lia).
  split; [exact Hlen|].
  destruct (emitter_reference_long_lived "click" Events.empty
              [Events.Op_on "click" "f"; Events.Op_on "click" "g"] Listeners.still 3 "hello"
              events_ok_empty click_not_inherited) as (_ & _ & _ & _ & Hcall).
  rewrite (Hcall (quiet_still _ _) Hlen). reflexivity.
Defined.


Lemma events_throw_at_inherited_names_witness :
  Events.inherits "toString" (@Events.empty string) /\
  Events.on "toString" "f" (@Events.empty string) = (Throw TypeError, Events.empty) /\
  Events.emitter "toString" (@Events.empty string) = (Events.undefined, Events.empty).
Proof.
  split; [exact toString_inherited|].
  destruct (events_throw_at_inherited_names "toString" "f" None Events.empty Listeners.still 1 "hello"
              toString_inherited) as (Hon & _ & Hem & _).
  split; [exact Hon|exact Hem].
Defined.

Lemma render_returns_live_references_witness :
  (Scene.render (Scenes.pair true) Translations.store0).1 = Normal [0; 1] /\
  (forall r, r ∈ [0; 1] ->
     is_Some (Scene.models (Scene.render (Scenes.pair true) Translations.store0).2 !! r)) /\
  length [0; 1] <= length (visits (Scenes.pair true)).
Proof.
  assert (Hout : (Scene.render (Scenes.pair true) Translations.store0).1 = Normal [0; 1])
    by (vm_compute; reflexivity).
  split; [exact Hout|].
  destruct (proj1 (render_returns_live_references (Scenes.pair true) Translations.store0)
              [0; 1] Hout) as (Hlive & Hlen & _).
  split; [exact Hlive|exact Hlen].
Defined.

Lemma render_cache_grows_by_visited_ids_witness :
  Scene.cache (Scenes.pair true) = true /\
  (Scene.render (Scenes.pair true) Translations.store0).1 = Normal [0; 1] /\
  dom (Scene._renderModelCache (Scene.render (Scenes.pair true) Translations.store0).2)
  = dom (Scene._renderModelCache Translations.store0)
    ∪ list_to_set (visitedIds (Scenes.pair true)).
Proof.
  assert (Hout : (Scene.render (Scenes.pair true) Translations.store0).1 = Normal [0; 1])
    by (vm_compute; reflexivity).
  split; [reflexivity|]. split; [exact Hout|].
  destruct (render_cache_grows_by_visited_ids (Scenes.pair true) Translations.store0 eq_refl)
    as (_ & _ & _ & Hdom).
  exact (Hdom [0; 1] Hout).
Defined.

Lemma render_after_flush_builds_new_records_witness :
  let st := (Scene.render (Scenes.pair true) Translations.store0).2 in
  (Scene.render (Scenes.pair true) (Scene.flushCache st)).1 = Normal [2; 3] /\
  (forall r, r ∈ [2; 3] -> length (Scene.models st) <= r) /\
  (forall r, r < length (Scene.models st) ->
     Scene.models (Scene.render (Scenes.pair true) (Scene.flushCache st)).2 !! r
     = Scene.models st !! r).
Proof.
  cbv zeta.
  assert (Hout : (Scene.render (Scenes.pair true)
                    (Scene.flushCache
                       (Scene.render (Scenes.pair true) Translations.store0).2)).1
                 = Normal [2; 3]) by (vm_compute; reflexivity).
  split; [exact Hout|].
  destruct (render_after_flush_builds_new_records (Scenes.pair true)
              (Scene.render (Scenes.pair true) Translations.store0).2) as (Hnew & Hold).
  split; [exact (Hnew [2; 3] Hout)|exact Hold].
Defined.

Lemma render_skips_orphaned_slots_witness :
  let st := (Scene.render (Translations.once true false) Translations.store0).2 in
  Scene.cache (Scenes.vacant true) = true /\ cache_ok st /\
  Scene._renderModelCache st !! "s1" = Some 0 /\
  ("s1" ∉ visitedIds (Scenes.vacant true)) /\
  (Scene.render (Scenes.vacant true) st).1 = Normal [] /\
  Scene.models (Scene.render (Scenes.vacant true) st).2 !! 0 = Scene.models st !! 0 /\
  Scene._renderModelCache (Scene.render (Scenes.vacant true) st).2 !! "s1" = Some 0.
Proof.
  cbv zeta.
  assert (Hret : (Scene.render (Translations.once true false) Translations.store0).1
                 = Normal [0]) by (vm_compute; reflexivity).
  assert (Hok : cache_ok (Scene.render (Translations.once true false) Translations.store0).2).
  { destruct (render_returned _ _ _ Hret) as (_ & _ & ->).
    rewrite render_collect. cbn [snd].
    apply collect_cache_ok; [reflexivity|exact cache_ok_store0]. }
  assert (Hi : Scene._renderModelCache
                 (Scene.render (Translations.once true false) Translations.store0).2 !! "s1"
               = Some 0) by (vm_compute; reflexivity).
  assert (Hni : "s1" ∉ visitedIds (Scenes.vacant true)) by apply not_elem_of_nil.
  destruct (render_skips_orphaned_slots (Scenes.vacant true) _ "s1" 0 eq_refl Hok Hi Hni)
    as (_ & Hkept & Hslot).
  split_and!; [reflexivity|exact Hok|exact Hi|exact Hni| |exact Hkept|exact Hslot].
  vm_compute. reflexivity.
Defined.

Lemma render_uncached_builds_one_record_per_visit_witness :
  Scene.cache (Translations.twice 5 false false) = false /\
  allocated (Translations.twice 5 false false) (Scene.matrices Translations.store0) /\
  exists out,
    (Scene.render (Translations.twice 5 false false) Translations.store0).1 = Normal out /\
    length (Scene.models (Scene.render (Translations.twice 5 false false)
                            Translations.store0).2) = 2 /\
    NoDup out.
Proof.
  assert (Ha : allocated (Translations.twice 5 false false)
                 (Scene.matrices Translations.store0)) by (by apply allocated_heap0).
  destruct (render_uncached_builds_one_record_per_visit
              (Translations.twice 5 false false) Translations.store0 eq_refl Ha)
    as (out & Hout & Hm & _ & _ & Hnd).
  split_and!; [reflexivity|exact Ha|].
  exists out. split_and!; [exact Hout| |exact Hnd].
  rewrite Hm. reflexivity.
Defined.

Lemma render_cache_transparent_when_nothing_cached_witness :
  allocated (Scenes.pair true) (Scene.matrices Translations.store0) /\
  NoDup (visitedIds (Scenes.pair true)) /\
  (forall i, i ∈ visitedIds (Scenes.pair true) -> i ∉ Object_prototype) /\
  exists out,
    (Scene.render (withCache true (Scenes.pair true)) Translations.store0).1 = Normal out /\
    (Scene.render (withCache false (Scenes.pair true)) Translations.store0).1 = Normal out.
Proof.
  assert (Ha : allocated (Scenes.pair true) (Scene.matrices Translations.store0))
    by (by apply allocated_heap0).
  assert (Hnd : NoDup (visitedIds (Scenes.pair true)))
    by (apply (bool_decide_unpack _); vm_compute; exact I).
  assert (Hplain : forall i, i ∈ visitedIds (Scenes.pair true) -> i ∉ Object_prototype).
  { apply Forall_forall. apply (bool_decide_unpack _). vm_compute. exact I. }
  split; [exact Ha|]. split; [exact Hnd|]. split; [exact Hplain|].
  destruct (render_cache_transparent_when_nothing_cached (Scenes.pair true)
              Translations.store0 Ha Hnd (fun i _ => lookup_empty i) Hplain)
    as (out & Hon & Hoff & _).
  exists out. split; [exact Hon|exact Hoff].
Defined.

Lemma render_without_culling_keeps_what_is_in_frustum_witness :
  (Scene.render (Scenes.pair true) Translations.store0).1 = Normal [0; 1] /\
  visited_once (Scenes.pair true) Translations.store0 /\
  (Scenes.backface, [], Translations.origin) ∈ visits (Scenes.pair true) /\
  Surface.cullBackfaces Scenes.backface = false /\
  exists r rm,
    Scene.models (Scene.render (Scenes.pair true) Translations.store0).2 !! r = Some rm /\
    Surface.id (RenderModel.surface rm) = "s2" /\
    (r ∈ [0; 1] <-> RenderModel.inFrustrum rm = true).
Proof.
  assert (Hout : (Scene.render (Scenes.pair true) Translations.store0).1 = Normal [0; 1])
    by (vm_compute; reflexivity).
  assert (Honce : visited_once (Scenes.pair true) Translations.store0).
  { intros _. split; [exact cache_ok_store0|]. apply (bool_decide_unpack _); vm_compute; exact I. }
  assert (Hin : (Scenes.backface, [], Translations.origin) ∈ visits (Scenes.pair true))
    by apply list_elem_of_further, list_elem_of_here.
  destruct (render_without_culling_keeps_what_is_in_frustum (Scenes.pair true)
              Translations.store0 [0; 1] Scenes.backface [] Translations.origin Hout Honce Hin
              (or_intror eq_refl)) as (r & rm & Hrm & Hid & _ & Hiff).
  split_and!; [exact Hout|exact Honce|exact Hin|reflexivity|].
  exists r, rm. split; [exact Hrm|]. split; [exact Hid|exact Hiff].
Defined.

End MoreWitnesses.
